(** * Glow-Dot-Art: the SVG-to-dots geometry pipeline and its coordinate text

    A shallow embedding of [src/services/svgProcessor.ts] (path parsing,
    Ramer-Douglas-Peucker simplification, point filtering, closure
    detection, serialisation), of the coordinate-text serialiser and
    deserialiser of the preview component ([shapesToString] and the
    [shapes] memo of [DotPreview]) with its editing handlers, and of the
    history of the coordinate text kept by [App].

    Numbers.  The development has two layers.

    In the first a JavaScript number is modelled by [num]: an exact
    rational or [NaN].  Rounding, overflow and the infinities of IEEE
    doubles are outside this layer, and a missing array element is read
    as [NaN].  It carries the properties of the text formats and of the
    structure of the algorithms (what is a subsequence of what, which
    points a command adds, what is printed and read back), which do not
    rest on the value of a rounded result.  [Math.sqrt] is the one
    operation that leaves the rationals, so the geometry takes the
    square root on rationals as a parameter [sqrtQ], and the theorems
    say which of its properties they rely on.

    The second layer, the module [Double], has the functions of the
    pipeline on IEEE 754 binary64 numbers, with [undefined] for a
    missing array element and the exceptions that the code can throw.
    The properties that depend on the value of a computed number (a
    distance, a test against a threshold, the frame rule) and on what
    the pipeline does with a whole document are stated over it. *)

From Stdlib Require Import QArith Qabs Qround ZArith Lia Lqa Bool Ascii String.
From Stdlib Require Import SpecFloat.
From stdpp Require Import list.
Import ListNotations.

Open Scope Q_scope.

(** ** Numbers *)

Inductive num : Type :=
  | Fin (q : Q)
  | NaN.

Declare Scope num_scope.
Delimit Scope num_scope with num.
Bind Scope num_scope with num.

Definition lift2 (f : Q -> Q -> Q) (a b : num) : num :=
  match a, b with
  | Fin x, Fin y => Fin (f x y)
  | _, _ => NaN
  end.

Definition nadd : num -> num -> num := lift2 Qplus.
Definition nsub : num -> num -> num := lift2 Qminus.
Definition nmul : num -> num -> num := lift2 Qmult.

(** Division.  A zero divisor would give an infinity (or NaN for 0/0) in
    JavaScript; the code only divides behind a test that the divisor is
    not zero, and the model answers [NaN] there. *)
Definition ndiv (a b : num) : num :=
  match a, b with
  | Fin x, Fin y => if Qeq_bool y 0 then NaN else Fin (x / y)
  | _, _ => NaN
  end.

Definition Qlt_bool (x y : Q) : bool := negb (Qle_bool y x).

(** The comparisons [<], [>], [<=] and [===]: false as soon as one side
    is [NaN]. *)
Definition nlt (a b : num) : bool :=
  match a, b with Fin x, Fin y => Qlt_bool x y | _, _ => false end.
Definition ngt (a b : num) : bool := nlt b a.
Definition nle (a b : num) : bool :=
  match a, b with Fin x, Fin y => Qle_bool x y | _, _ => false end.
Definition neq (a b : num) : bool :=
  match a, b with Fin x, Fin y => Qeq_bool x y | _, _ => false end.

Definition Math_abs (a : num) : num :=
  match a with Fin x => Fin (Qabs x) | NaN => NaN end.

Definition Math_min (a b : num) : num :=
  match a, b with
  | Fin x, Fin y => if Qle_bool x y then Fin x else Fin y
  | _, _ => NaN
  end.

(** [Math.sqrt]: NaN on a negative argument, otherwise the square root
    [sqrtQ] supplied by the host. *)
Definition Math_sqrt (sqrtQ : Q -> Q) (a : num) : num :=
  match a with
  | Fin x => if Qlt_bool x 0 then NaN else Fin (sqrtQ x)
  | NaN => NaN
  end.

Infix "+" := nadd : num_scope.
Infix "-" := nsub : num_scope.
Infix "*" := nmul : num_scope.
Infix "/" := ndiv : num_scope.
Infix "<?" := nlt (at level 70) : num_scope.
Infix ">?" := ngt (at level 70) : num_scope.
Infix "<=?" := nle (at level 70) : num_scope.
Infix "=?" := neq (at level 70) : num_scope.

(** Numeric literals of the source. *)
Definition nZ (z : Z) : num := Fin (inject_Z z).

(** Equality of values, as opposed to equality of representations. *)
Definition num_eq (a b : num) : Prop :=
  match a, b with
  | Fin x, Fin y => x == y
  | NaN, NaN => True
  | _, _ => False
  end.

(** A square root on the rationals that can be run: exact on the squares
    of rationals, rounded down to six decimals of the denominator
    otherwise.  It is used to evaluate the code on concrete inputs. *)
Definition sqrt_floor (q : Q) : Q :=
  Z.sqrt (Qnum q * Zpos (Qden q) * 10 ^ 12) # (Qden q * 10 ^ 6).

(** ** Geometry: svgProcessor.ts, lines 5-54 *)

Definition Point : Type := num * num.

(** Reading an array past its end gives [undefined] in JavaScript;
    arithmetic and comparisons read it as NaN, which is how this layer
    holds it.  (A method call on it throws: [Double.fixedCoord].) *)
Definition undefinedPoint : Point := (NaN, NaN).

Definition at_ (points : list Point) (i : nat) : Point :=
  nth i points undefinedPoint.

(** [a.slice(i, j)] for indices inside the array. *)
Definition slice {A : Type} (l : list A) (i j : nat) : list A :=
  take (j - i) (drop i l).

Section Geometry.

Variable sqrtQ : Q -> Q.

Definition getPerpendicularDistance (pt lineStart lineEnd : Point) : num :=
  let dx := (lineEnd.1 - lineStart.1)%num in
  let dy := (lineEnd.2 - lineStart.2)%num in
  if (dx =? nZ 0)%num && (dy =? nZ 0)%num then
    let dx := (pt.1 - lineStart.1)%num in
    let dy := (pt.2 - lineStart.2)%num in
    Math_sqrt sqrtQ (dx * dx + dy * dy)%num
  else
    let t := (((pt.1 - lineStart.1) * dx + (pt.2 - lineStart.2) * dy)
              / (dx * dx + dy * dy))%num in
    let nearestPoint : Point :=
      if (t <? nZ 0)%num then lineStart
      else if (t >? nZ 1)%num then lineEnd
      else ((lineStart.1 + t * dx)%num, (lineStart.2 + t * dy)%num) in
    let dx := (pt.1 - nearestPoint.1)%num in
    let dy := (pt.2 - nearestPoint.2)%num in
    Math_sqrt sqrtQ (dx * dx + dy * dy)%num.

(** One turn of the loop [for (let i = 1; i < end; i++)]: the state is
    the pair [(dmax, index)]. *)
Definition farthestStep (points : list Point) (end_ : nat)
    (acc : num * nat) (i : nat) : num * nat :=
  let d := getPerpendicularDistance (at_ points i) (at_ points 0) (at_ points end_) in
  if (d >? acc.1)%num then (d, i) else acc.

Definition farthest (points : list Point) (end_ : nat) : num * nat :=
  fold_left (farthestStep points end_) (seq 1 (end_ - 1)) (nZ 0, 0%nat).

(** The recursion of the source is not bounded by the code itself, so the
    model counts calls down from [fuel]; [None] is the recursion that has
    not returned within [fuel] nested calls. *)
Fixpoint ramerDouglasPeucker (fuel : nat) (points : list Point) (epsilon : num)
    : option (list Point) :=
  match fuel with
  | O => None
  | S fuel' =>
    if (length points <? 3)%nat then Some points
    else
      let end_ := (length points - 1)%nat in
      let '(dmax, index) := farthest points end_ in
      if (dmax >? epsilon)%num then
        match ramerDouglasPeucker fuel' (slice points 0 (index + 1)) epsilon with
        | None => None
        | Some recResults1 =>
          match ramerDouglasPeucker fuel' (slice points index (length points)) epsilon with
          | None => None
          | Some recResults2 =>
            Some (slice recResults1 0 (length recResults1 - 1) ++ recResults2)
          end
        end
      else Some [at_ points 0; at_ points (length points - 1)]
  end.

End Geometry.

(** ** Text

    A JavaScript string is modelled by the list of its code units; the
    model keeps the code units below 256, which hold every character the
    code tests for or writes. *)

Definition text : Type := list ascii.

Definition txt (s : string) : text := list_ascii_of_string s.

Definition LF : ascii := "010"%char.
Definition CR : ascii := "013"%char.

Definition code (c : ascii) : N := N_of_ascii c.

(** The class [\s] of regular expressions, which is also what [trim]
    removes: tab, line feed, vertical tab, form feed, carriage return,
    space and no-break space. *)
Definition isSpace (c : ascii) : bool :=
  ((9 <=? code c) && (code c <=? 13) || (code c =? 32) || (code c =? 160))%N.

(** The class [\d]. *)
Definition isDigit (c : ascii) : bool :=
  ((48 <=? code c) && (code c <=? 57))%N.

Definition isUpper (c : ascii) : bool := ((65 <=? code c) && (code c <=? 90))%N.
Definition isLower (c : ascii) : bool := ((97 <=? code c) && (code c <=? 122))%N.

(** [toLowerCase] and [toUpperCase] on the letters A-Z and a-z; the
    comparisons of the code are against such letters only. *)
Definition toLowerCase1 (c : ascii) : ascii :=
  if isUpper c then ascii_of_N (code c + 32) else c.
Definition toUpperCase1 (c : ascii) : ascii :=
  if isLower c then ascii_of_N (code c - 32) else c.
Definition toLowerCase (s : text) : text := map toLowerCase1 s.

Definition ascii_eqb (a b : ascii) : bool := (code a =? code b)%N.

Fixpoint text_eqb (a b : text) : bool :=
  match a, b with
  | [], [] => true
  | x :: a', y :: b' => ascii_eqb x y && text_eqb a' b'
  | _, _ => false
  end.

Fixpoint dropWhile {A : Type} (p : A -> bool) (l : list A) : list A :=
  match l with
  | [] => []
  | x :: l' => if p x then dropWhile p l' else l
  end.

Fixpoint takeWhile {A : Type} (p : A -> bool) (l : list A) : list A :=
  match l with
  | [] => []
  | x :: l' => if p x then x :: takeWhile p l' else []
  end.

Definition trimStart (s : text) : text := dropWhile isSpace s.
Definition trimEnd (s : text) : text := rev (dropWhile isSpace (rev s)).
Definition trim (s : text) : text := trimEnd (trimStart s).

(** [parts.join(sep)]. *)
Fixpoint join (sep : text) (parts : list text) : text :=
  match parts with
  | [] => []
  | [p] => p
  | p :: rest => p ++ sep ++ join sep rest
  end.

(** [s.includes(c)] for a one-character needle. *)
Definition includesChar (c : ascii) (s : text) : bool := existsb (ascii_eqb c) s.

(** *** Decimal digits *)

Definition digitVal (c : ascii) : Z := Z.of_N (code c) - 48.
Definition digitChar (d : Z) : ascii := ascii_of_N (Z.to_N (d + 48)).

(** The value of a string of decimal digits. *)
Definition digitsVal (ds : text) : Z :=
  fold_left (fun acc c => (10 * acc + digitVal c)%Z) ds 0%Z.

(** The decimal digits of a natural number, most significant first,
    without leading zeros ([0] is the single digit 0).  The recursion is
    on a counter that exceeds the number of digits. *)
Fixpoint digitsAux (fuel : nat) (n : Z) (acc : text) : text :=
  match fuel with
  | O => acc
  | S fuel' =>
    if (n <? 10)%Z then digitChar n :: acc
    else digitsAux fuel' (n / 10) (digitChar (n mod 10) :: acc)
  end.

Definition digitsOf (n : Z) : text := digitsAux (S (Z.to_nat (Z.log2 n))) n [].

Definition zeros (n : nat) : text := repeat "0"%char n.

(** *** parseFloat

    The longest prefix, after leading white space, that is a decimal
    literal: an optional sign, digits with an optional fraction (or a
    fraction alone), and an optional exponent.  NaN when there is none.
    The literal [Infinity] is not a rational and reads as NaN here. *)

Definition pow10 (n : nat) : Z := (10 ^ Z.of_nat n)%Z.

Definition scale10 (q : Q) (e : Z) : Q :=
  if (0 <=? e)%Z then q * inject_Z (10 ^ e) else q / inject_Z (10 ^ (- e)).

(** The exponent part [e], [e+] or [e-] followed by digits, if present. *)
Definition exponentPart (s : text) : Z :=
  match s with
  | c :: s1 =>
    if ascii_eqb c "e" || ascii_eqb c "E" then
      let '(neg, s2) :=
        match s1 with
        | c1 :: s1' =>
          if ascii_eqb c1 "-" then (true, s1')
          else if ascii_eqb c1 "+" then (false, s1')
          else (false, s1)
        | [] => (false, s1)
        end in
      let ds := takeWhile isDigit s2 in
      match ds with
      | [] => 0%Z
      | _ => if neg then (- digitsVal ds)%Z else digitsVal ds
      end
    else 0%Z
  | [] => 0%Z
  end.

Definition unsignedLiteral (s : text) : option Q :=
  let ip := takeWhile isDigit s in
  let s1 := dropWhile isDigit s in
  let '(fp, s2) :=
    match s1 with
    | c :: s1' =>
      if ascii_eqb c "." then (takeWhile isDigit s1', dropWhile isDigit s1')
      else ([], s1)
    | [] => ([], s1)
    end in
  match ip, fp with
  | [], [] => None
  | _, _ =>
    let mant := (digitsVal ip * pow10 (length fp) + digitsVal fp)%Z
                # Z.to_pos (pow10 (length fp)) in
    Some (scale10 mant (exponentPart s2))
  end.

Definition parseFloat (s : text) : num :=
  match trimStart s with
  | c :: s' =>
    if ascii_eqb c "-" then
      match unsignedLiteral s' with Some q => Fin (- q) | None => NaN end
    else if ascii_eqb c "+" then
      match unsignedLiteral s' with Some q => Fin q | None => NaN end
    else
      match unsignedLiteral (c :: s') with Some q => Fin q | None => NaN end
  | [] => NaN
  end.

(** *** Number to text

    [numToString] is the conversion that a template literal applies to a
    number (Number::toString of ECMAScript, radix 10) on exact values:
    with [s] the digits of the value without trailing zeros, [k] their
    number and [n] the position of the decimal point, it writes the
    digits plainly when [-6 < n <= 21] and in exponent notation
    otherwise. *)

(** The least [e], up to [fuel] further steps, at which [q * 10^e] is an
    integer, together with that integer.  A rational with a terminating
    decimal expansion reaches it within the size of its denominator; any
    other is cut off at the last step.  (The code prints sums of parsed
    decimals and values rounded to two decimals, which terminate; the
    one exception is [toFixed] on a magnitude of 10^21 or more, where a
    double is an integer and the exact value need not be.) *)
Fixpoint scaleToInt (fuel : nat) (e : nat) (q : Q) : Z * nat :=
  let v := q * inject_Z (pow10 e) in
  match fuel with
  | O => (Qfloor v, e)
  | S fuel' =>
    if Qeq_bool (inject_Z (Qfloor v)) v then (Qfloor v, e)
    else scaleToInt fuel' (S e) q
  end.

Definition isZeroChar (c : ascii) : bool := ascii_eqb c "0".

Definition stripZeros (ds : text) : text := rev (dropWhile isZeroChar (rev ds)).

(** Number::toString on a positive value [N / 10^e]. *)
Definition renderPositive (N : Z) (e : nat) : text :=
  let D := digitsOf N in
  let s := stripZeros D in
  let k := Z.of_nat (length s) in
  let n := (Z.of_nat (length D) - Z.of_nat e)%Z in
  if ((k <=? n) && (n <=? 21))%Z then s ++ zeros (Z.to_nat (n - k))
  else if ((0 <? n) && (n <=? 21))%Z then
    take (Z.to_nat n) s ++ txt "." ++ drop (Z.to_nat n) s
  else if ((-6 <? n) && (n <=? 0))%Z then
    txt "0." ++ zeros (Z.to_nat (- n)) ++ s
  else
    let mantissa :=
      match s with
      | [d] => [d]
      | d :: rest => d :: txt "." ++ rest
      | [] => []
      end in
    mantissa ++ txt "e" ++ (if (0 <=? n - 1)%Z then txt "+" else txt "-")
             ++ digitsOf (Z.abs (n - 1)).

Definition numToString (x : num) : text :=
  match x with
  | NaN => txt "NaN"
  | Fin q =>
    if Qeq_bool q 0 then txt "0"
    else
      let '(N, e) := scaleToInt (Pos.size_nat (Qden q)) 0 (Qabs q) in
      (if Qlt_bool q 0 then txt "-" else []) ++ renderPositive N e
  end.

(** [x.toFixed(2)]: the sign, then for a magnitude below 10^21 the
    integer [n] nearest to a hundred times the magnitude (the larger one
    in a tie) written with two decimals; from 10^21 on, the plain
    conversion of the magnitude. *)
Definition toFixed2 (x : num) : text :=
  match x with
  | NaN => txt "NaN"
  | Fin q =>
    let a := Qabs q in
    (if Qlt_bool q 0 then txt "-" else []) ++
    if Qle_bool (inject_Z (10 ^ 21)) a then numToString (Fin a)
    else
      let n := Qfloor (a * 100 + (1 # 2)) in
      let m := digitsOf n in
      let m := zeros (3 - length m) ++ m in
      take (length m - 2) m ++ txt "." ++ drop (length m - 2) m
  end.

(** What the two serialisers write for a coordinate [c]: the text of
    [parseFloat(c.toFixed(2))]. *)
Definition coordText (c : num) : text := numToString (parseFloat (toFixed2 c)).

(** ** Path data: svgProcessor.ts, lines 59-160 *)

(** The maximal runs of characters satisfying [p], in order: what
    [s.match(/[...]+/g)] returns for a character class. *)
Fixpoint runsAux (p : ascii -> bool) (s : text) : text * list text :=
  match s with
  | [] => ([], [])
  | c :: s' =>
    let '(run, later) := runsAux p s' in
    if p c then (c :: run, later)
    else ([], match run with [] => later | _ => run :: later end)
  end.

Definition runs (p : ascii -> bool) (s : text) : list text :=
  let '(run, later) := runsAux p s in
  match run with [] => later | _ => run :: later end.

(** [s.split(/[...]+/)] for a non-empty [s]: the pieces between the
    maximal runs of separator characters; a separator at either end
    leaves an empty piece there. *)
Fixpoint splitRuns (p : ascii -> bool) (s : text) : list text :=
  match s with
  | [] => [[]]
  | c :: s' =>
    if p c then
      match s' with
      | c' :: _ => if p c' then splitRuns p s' else [] :: splitRuns p s'
      | [] => [] :: splitRuns p s'
      end
    else
      match splitRuns p s' with
      | piece :: rest => (c :: piece) :: rest
      | [] => [[c]]
      end
  end.

(** [s.replace(/[...]+/g, repl)]. *)
Fixpoint replaceRuns (p : ascii -> bool) (repl : text) (s : text) : text :=
  match s with
  | [] => []
  | c :: s' =>
    if p c then
      match s' with
      | c' :: _ => if p c' then replaceRuns p repl s' else repl ++ replaceRuns p repl s'
      | [] => repl
      end
    else c :: replaceRuns p repl s'
  end.

(** The class [[a-df-z]] under the flag [i]: a letter other than e. *)
Definition isCommandLetter (c : ascii) : bool :=
  (isUpper c || isLower c) && negb (ascii_eqb (toLowerCase1 c) "e").

(** [d.match(/[a-df-z][^a-df-z]*/ig)]: every command letter with the
    characters up to the next one.  The first component is the text
    before the first command letter, which belongs to no match. *)
Fixpoint matchCommandsAux (d : text) : text * list text :=
  match d with
  | [] => ([], [])
  | c :: d' =>
    let '(chunk, commands) := matchCommandsAux d' in
    if isCommandLetter c then ([], (c :: chunk) :: commands)
    else (c :: chunk, commands)
  end.

Definition matchCommands (d : text) : list text := snd (matchCommandsAux d).

(** The class [[-.0-9]]. *)
Definition isArgChar (c : ascii) : bool :=
  isDigit c || ascii_eqb c "-" || ascii_eqb c ".".

Record PathState : Type := mkPathState {
  st_paths : list (list Point);
  st_currentPath : list Point;
  st_x : num;
  st_y : num;
  st_startX : num;
  st_startY : num
}.

(** [args[i]]; past the end of the array JavaScript gives [undefined],
    which the arithmetic and the comparisons of the code treat as NaN
    and this layer holds as NaN. *)
Definition arg (args : list num) (i : nat) : num := nth i args NaN.

(** The values of [i] in [for (let i = 0; i < n; i += stride)]. *)
Definition loopIndices (n stride : nat) : list nat :=
  map (fun k => (k * stride)%nat) (seq 0 ((n + stride - 1) / stride)).

Definition nonEmpty {A : Type} (l : list A) : bool :=
  match l with [] => false | _ => true end.

Section PathCommands.

Variables (isRelative : bool) (args : list num).

Definition resolve (cursor : num) (a : num) : num :=
  if isRelative then (cursor + a)%num else a.

Definition moveto (st : PathState) (i : nat) : PathState :=
  let px := resolve (st_x st) (arg args i) in
  let py := resolve (st_y st) (arg args (i + 1)) in
  if (i =? 0)%nat then
    mkPathState
      (if nonEmpty (st_currentPath st) then st_paths st ++ [st_currentPath st]
       else st_paths st)
      [(px, py)] px py px py
  else
    mkPathState (st_paths st) (st_currentPath st ++ [(px, py)])
                px py (st_startX st) (st_startY st).

Definition lineto (st : PathState) (i : nat) : PathState :=
  let px := resolve (st_x st) (arg args i) in
  let py := resolve (st_y st) (arg args (i + 1)) in
  mkPathState (st_paths st) (st_currentPath st ++ [(px, py)])
              px py (st_startX st) (st_startY st).

Definition horizontal (st : PathState) (i : nat) : PathState :=
  let px := resolve (st_x st) (arg args i) in
  mkPathState (st_paths st) (st_currentPath st ++ [(px, st_y st)])
              px (st_y st) (st_startX st) (st_startY st).

Definition vertical (st : PathState) (i : nat) : PathState :=
  let py := resolve (st_y st) (arg args i) in
  mkPathState (st_paths st) (st_currentPath st ++ [(st_x st, py)])
              (st_x st) py (st_startX st) (st_startY st).

(** The point of the cubic at [t = t_step / 10]. *)
Definition bezierPoint (x y x1 y1 x2 y2 endX endY : num) (t_step : nat) : Point :=
  let steps := nZ 10 in
  let t := (nZ (Z.of_nat t_step) / steps)%num in
  let it := (nZ 1 - t)%num in
  let b1 := (it * it * it)%num in
  let b2 := (nZ 3 * it * it * t)%num in
  let b3 := (nZ 3 * it * t * t)%num in
  let b4 := (t * t * t)%num in
  ((b1 * x + b2 * x1 + b3 * x2 + b4 * endX)%num,
   (b1 * y + b2 * y1 + b3 * y2 + b4 * endY)%num).

Definition curveto (st : PathState) (i : nat) : PathState :=
  let x := st_x st in
  let y := st_y st in
  let x1 := resolve x (arg args i) in
  let y1 := resolve y (arg args (i + 1)) in
  let x2 := resolve x (arg args (i + 2)) in
  let y2 := resolve y (arg args (i + 3)) in
  let endX := resolve x (arg args (i + 4)) in
  let endY := resolve y (arg args (i + 5)) in
  mkPathState (st_paths st)
    (st_currentPath st ++ map (bezierPoint x y x1 y1 x2 y2 endX endY) (seq 1 10))
    endX endY (st_startX st) (st_startY st).

End PathCommands.

Definition closepath (st : PathState) : PathState :=
  if nonEmpty (st_currentPath st) then
    mkPathState
      (st_paths st ++ [st_currentPath st ++ [(st_startX st, st_startY st)]])
      [] (st_x st) (st_y st) (st_startX st) (st_startY st)
  else st.

(** The body of [commands.forEach]. *)
Definition execCommand (st : PathState) (commandStr : text) : PathState :=
  match commandStr with
  | [] => st
  | command :: rest =>
    let args := map parseFloat (runs isArgChar (trim rest)) in
    let isRelative := ascii_eqb command (toLowerCase1 command) in
    let upper := toUpperCase1 command in
    if ascii_eqb upper "M" then
      fold_left (moveto isRelative args) (loopIndices (length args) 2) st
    else if ascii_eqb upper "L" then
      fold_left (lineto isRelative args) (loopIndices (length args) 2) st
    else if ascii_eqb upper "H" then
      fold_left (horizontal isRelative args) (loopIndices (length args) 1) st
    else if ascii_eqb upper "V" then
      fold_left (vertical isRelative args) (loopIndices (length args) 1) st
    else if ascii_eqb upper "C" then
      fold_left (curveto isRelative args) (loopIndices (length args) 6) st
    else if ascii_eqb upper "Z" then closepath st
    else st
  end.

Definition initialPathState : PathState :=
  mkPathState [] [] (nZ 0) (nZ 0) (nZ 0) (nZ 0).

(** The paths returned once the commands have run: a current path that
    is not empty is pushed last. *)
Definition finishPaths (st : PathState) : list (list Point) :=
  if nonEmpty (st_currentPath st) then st_paths st ++ [st_currentPath st]
  else st_paths st.

Definition runCommands (commands : list text) : PathState :=
  fold_left execCommand commands initialPathState.

Definition parsePathData (d : text) : list (list Point) :=
  match d with
  | [] => []
  | _ => finishPaths (runCommands (matchCommands d))
  end.

(** ** Elements and their path descriptions: svgProcessor.ts, lines 162-202

    The parsed document is modelled by the list of its elements in
    document order, each with its tag name and its attributes; the
    parser itself belongs to the browser. *)

Record Element : Type := mkElement {
  tagName : text;
  attributes : list (text * text)
}.

Definition getAttribute (el : Element) (name : text) : option text :=
  match find (fun kv => text_eqb kv.1 name) (attributes el) with
  | Some kv => Some kv.2
  | None => None
  end.

(** [v || dflt] for a string [v] that may be null: the empty string is
    falsy as well. *)
Definition orElse (v : option text) (dflt : text) : text :=
  match v with
  | Some (c :: s) => c :: s
  | _ => dflt
  end.

Definition tagIs (el : Element) (name : string) : bool :=
  text_eqb (toLowerCase (tagName el)) (txt name).

(** The helper [get] of [shapeToPath], with its element made explicit. *)
Definition getNumber (el : Element) (attr : string) : num :=
  parseFloat (orElse (getAttribute el (txt attr)) (txt "0")).

Definition shapeToPath (el : Element) : text * bool :=
  let str := numToString in
  if tagIs el "path" then
    let d := orElse (getAttribute el (txt "d")) [] in
    (d, includesChar "z" (toLowerCase d))
  else if tagIs el "rect" then
    let x := getNumber el "x" in let y := getNumber el "y" in
    let w := getNumber el "width" in let h := getNumber el "height" in
    (txt "M " ++ str x ++ txt " " ++ str y ++ txt " H " ++ str (x + w)%num
       ++ txt " V " ++ str (y + h)%num ++ txt " H " ++ str x ++ txt " Z", true)
  else if tagIs el "circle" then
    let cx := getNumber el "cx" in let cy := getNumber el "cy" in let r := getNumber el "r" in
    (txt "M " ++ str (cx - r)%num ++ txt " " ++ str cy
       ++ txt " A " ++ str r ++ txt " " ++ str r ++ txt " 0 1 0 "
       ++ str (cx + r)%num ++ txt " " ++ str cy
       ++ txt " A " ++ str r ++ txt " " ++ str r ++ txt " 0 1 0 "
       ++ str (cx - r)%num ++ txt " " ++ str cy ++ txt " Z", true)
  else if tagIs el "ellipse" then
    let ecx := getNumber el "cx" in let ecy := getNumber el "cy" in
    let rx := getNumber el "rx" in let ry := getNumber el "ry" in
    (txt "M " ++ str (ecx - rx)%num ++ txt " " ++ str ecy
       ++ txt " A " ++ str rx ++ txt " " ++ str ry ++ txt " 0 1 0 "
       ++ str (ecx + rx)%num ++ txt " " ++ str ecy
       ++ txt " A " ++ str rx ++ txt " " ++ str ry ++ txt " 0 1 0 "
       ++ str (ecx - rx)%num ++ txt " " ++ str ecy ++ txt " Z", true)
  else if tagIs el "line" then
    let x1 := getNumber el "x1" in let y1 := getNumber el "y1" in
    let x2 := getNumber el "x2" in let y2 := getNumber el "y2" in
    (txt "M " ++ str x1 ++ txt " " ++ str y1 ++ txt " L " ++ str x2
       ++ txt " " ++ str y2, false)
  else if tagIs el "polyline" then
    let polylinePoints :=
      orElse (option_map trim (getAttribute el (txt "points"))) [] in
    (txt "M " ++ replaceRuns isSpace (txt " L ") polylinePoints, false)
  else if tagIs el "polygon" then
    let polygonPoints :=
      orElse (option_map trim (getAttribute el (txt "points"))) [] in
    (txt "M " ++ replaceRuns isSpace (txt " L ") polygonPoints ++ txt " Z", true)
  else ([], false).

(** ** The pipeline: svgProcessor.ts, lines 207-361 *)

(** The values fixed by the resizing logic (lines 222-254). *)
Record Canvas : Type := mkCanvas {
  scale : num;
  translateX : num;
  translateY : num;
  originX : num;
  originY : num;
  svgWidth : num;
  svgHeight : num
}.

Definition isViewBoxSeparator (c : ascii) : bool := isSpace c || ascii_eqb c ",".

Definition resolveCanvas (svgEl : Element) (shouldResize : bool) : Canvas :=
  let viewBox := orElse (getAttribute svgEl (txt "viewBox")) [] in
  let parts :=
    match viewBox with
    | [] => []
    | _ => map parseFloat (splitRuns isViewBoxSeparator viewBox)
    end in
  let '(originX, originY, svgWidth, svgHeight) :=
    if (length parts =? 4)%nat
    then (arg parts 0, arg parts 1, arg parts 2, arg parts 3)
    else (nZ 0, nZ 0, nZ 0, nZ 0) in
  let '(svgWidth, svgHeight) :=
    if (svgWidth =? nZ 0)%num || (svgHeight =? nZ 0)%num
    then (parseFloat (orElse (getAttribute svgEl (txt "width")) (txt "0")),
          parseFloat (orElse (getAttribute svgEl (txt "height")) (txt "0")))
    else (svgWidth, svgHeight) in
  if shouldResize && (svgWidth >? nZ 0)%num && (svgHeight >? nZ 0)%num then
    let targetWidth := nZ 720 in
    let targetHeight := nZ 1080 in
    let scaleX := (targetWidth / svgWidth)%num in
    let scaleY := (targetHeight / svgHeight)%num in
    let scale := Math_min scaleX scaleY in
    let newWidth := (svgWidth * scale)%num in
    let newHeight := (svgHeight * scale)%num in
    mkCanvas scale ((targetWidth - newWidth) / nZ 2)%num
             ((targetHeight - newHeight) / nZ 2)%num
             originX originY svgWidth svgHeight
  else mkCanvas (nZ 1) (nZ 0) (nZ 0) originX originY svgWidth svgHeight.

(** The local name of an element: its tag name without the namespace
    prefix, if it has one ([s:rect] has the local name [rect]). *)
Definition localName (el : Element) : text :=
  match dropWhile (fun c => negb (ascii_eqb c ":")) (tagName el) with
  | _ :: name => name
  | [] => tagName el
  end.

(** A type selector such as [rect] or [parsererror]: it compares the
    local name of the element, as it is written in an XML document. *)
Definition matchesSelector (name : string) (el : Element) : bool :=
  text_eqb (localName el) (txt name).

(** The selector [path, rect, circle, ellipse, line, polyline, polygon]
    of [querySelectorAll]. *)
Definition isShapeElement (el : Element) : bool :=
  existsb (fun name => matchesSelector name el)
          ["path"; "rect"; "circle"; "ellipse"; "line"; "polyline"; "polygon"]%string.

(** Lines 266-292: the rectangles that are skipped as a frame or a
    background. *)
Definition isBackgroundRect (cv : Canvas) (el : Element) : bool :=
  if tagIs el "rect" then
    let wAttr := getAttribute el (txt "width") in
    let hAttr := getAttribute el (txt "height") in
    let is100 := fun a : option text =>
      match a with Some s => text_eqb s (txt "100%") | None => false end in
    if is100 wAttr && is100 hAttr then true
    else if (svgWidth cv >? nZ 0)%num && (svgHeight cv >? nZ 0)%num then
      let x := parseFloat (orElse (getAttribute el (txt "x")) (txt "0")) in
      let y := parseFloat (orElse (getAttribute el (txt "y")) (txt "0")) in
      let w := parseFloat (orElse wAttr (txt "0")) in
      let h := parseFloat (orElse hAttr (txt "0")) in
      (Math_abs (x - originX cv) <=? nZ 1)%num &&
      (Math_abs (y - originY cv) <=? nZ 1)%num &&
      (Math_abs (w - svgWidth cv) <=? nZ 1)%num &&
      (Math_abs (h - svgHeight cv) <=? nZ 1)%num
    else false
  else false.

(** Lines 300-306. *)
Definition transformPoints (shouldResize : bool) (cv : Canvas)
    (pathPoints : list Point) : list Point :=
  if shouldResize then
    map (fun p : Point =>
           let newX := ((p.1 - originX cv) * scale cv + translateX cv)%num in
           let newY := ((p.2 - originY cv) * scale cv + translateY cv)%num in
           (newX, newY))
        pathPoints
  else pathPoints.

(** Lines 311-326: one turn of the filtering loop, then the loop. *)
Definition filterStep (minDistanceSq : num) (filteredPoints : list Point)
    (currentPoint : Point) : list Point :=
  let lastPoint := at_ filteredPoints (length filteredPoints - 1) in
  let dx := (currentPoint.1 - lastPoint.1)%num in
  let dy := (currentPoint.2 - lastPoint.2)%num in
  if (dx * dx + dy * dy >? minDistanceSq)%num
  then filteredPoints ++ [currentPoint]
  else filteredPoints.

Definition filterPoints (minDistance : num) (simplified : list Point) : list Point :=
  if (minDistance >? nZ 0)%num && (0 <? length simplified)%nat then
    let minDistanceSq := (minDistance * minDistance)%num in
    fold_left (filterStep minDistanceSq) (drop 1 simplified) [at_ simplified 0]
  else simplified.

(** Lines 330-339. *)
Definition closedFlag (isClosed : bool) (simplified : list Point) : bool :=
  if isClosed then true
  else
    let first := at_ simplified 0 in
    let last := at_ simplified (length simplified - 1) in
    (Math_abs (first.1 - last.1) <? Fin (1 # 10))%num &&
    (Math_abs (first.2 - last.2) <? Fin (1 # 10))%num.

(** Lines 341-349, which [shapesToString] repeats for a shape, for
    coordinates that are numbers. *)
Definition pointText (len : nat) (closed : bool) (i : nat) (p : Point) : text :=
  let isLastPoint := (i =? len - 1)%nat in
  if isLastPoint && closed
  then txt "[" ++ coordText p.1 ++ txt "," ++ coordText p.2 ++ txt ",-1]"
  else txt "[" ++ coordText p.1 ++ txt "," ++ coordText p.2 ++ txt "]".

Definition pointsText (points : list Point) (closed : bool) : text :=
  join (txt "," ++ [LF]) (imap (pointText (length points) closed) points).

(** What becomes of one subpath: the recursion of the simplification
    does not return, or the subpath is dropped, or its final points and
    closed flag are written out. *)
Inductive SubPath : Type :=
  | StackOverflow
  | Skipped
  | Kept (finalPoints : list Point) (isPathClosed : bool).

Section Pipeline.

Variable sqrtQ : Q -> Q.
Variables (epsilon : num) (shouldResize : bool) (minDistance : num).

(** The body of [subPaths.forEach] up to the closed flag.  The
    simplification is given more fuel than its input has points, which
    is enough whenever the recursion returns at all. *)
Definition processSubPath (cv : Canvas) (isClosed : bool)
    (pathPoints : list Point) : SubPath :=
  if (length pathPoints <? 2)%nat then Skipped
  else
    let transformedPoints := transformPoints shouldResize cv pathPoints in
    match ramerDouglasPeucker sqrtQ (S (length transformedPoints))
                              transformedPoints epsilon with
    | None => StackOverflow
    | Some simplified =>
      if (length simplified <? 2)%nat then Skipped
      else
        let finalPoints := filterPoints minDistance simplified in
        if (length finalPoints <? 2)%nat then Skipped
        else Kept finalPoints (closedFlag isClosed simplified)
    end.

(** The strings pushed to [allShapesCoords] for a list of subpaths;
    [None] when a stack overflow ends the run. *)
Fixpoint subPathsCoords (cv : Canvas) (isClosed : bool)
    (subPaths : list (list Point)) : option (list text) :=
  match subPaths with
  | [] => Some []
  | pathPoints :: rest =>
    match processSubPath cv isClosed pathPoints with
    | StackOverflow => None
    | Skipped => subPathsCoords cv isClosed rest
    | Kept finalPoints isPathClosed =>
      match subPathsCoords cv isClosed rest with
      | None => None
      | Some coords => Some (pointsText finalPoints isPathClosed :: coords)
      end
    end
  end.

(** The body of [elements.forEach]. *)
Definition elementCoords (cv : Canvas) (el : Element) : option (list text) :=
  if isBackgroundRect cv el then Some []
  else
    let '(d, isClosed) := shapeToPath el in
    subPathsCoords cv isClosed (parsePathData d).

Fixpoint elementsCoords (cv : Canvas) (elements : list Element)
    : option (list text) :=
  match elements with
  | [] => Some []
  | el :: rest =>
    match elementCoords cv el with
    | None => None
    | Some coords =>
      match elementsCoords cv rest with
      | None => None
      | Some more => Some (coords ++ more)
      end
    end
  end.

(** How the promise settles: resolved with the coordinate text, rejected
    with an [Error] carrying a message, or rejected with the RangeError
    of a stack overflow thrown inside the executor. *)
Inductive Outcome : Type :=
  | Resolve (coordinates : text)
  | Reject (message : text)
  | RejectRangeError.

Definition processSVG (nodes : list Element) : Outcome :=
  if existsb (matchesSelector "parsererror") nodes then
    Reject (txt "Failed to parse SVG file.")
  else
    match nodes with
    | [] => Reject (txt "Invalid SVG file: missing root <svg> element.")
    | svgEl :: _ =>
      let cv := resolveCanvas svgEl shouldResize in
      let elements := filter (fun el => isShapeElement el = true) nodes in
      if (length elements =? 0)%nat then
        Reject (txt "No valid shapes found in the SVG.")
      else
        match elementsCoords cv elements with
        | None => RejectRangeError
        | Some allShapesCoords =>
          if (length allShapesCoords =? 0)%nat then
            Reject (txt "Could not extract any processable coordinates from the SVG's shapes.")
          else Resolve (join [LF; LF] allShapesCoords)
        end
    end.

End Pipeline.

(** ** The coordinate text of the preview: DotPreview, lines 10-91 *)

Record Shape : Type := mkShape {
  points : list Point;
  isClosed : bool
}.

(** The callback of [shapes.map] in [shapesToString]. *)
Definition shapeText (shape : Shape) : text :=
  if (length (points shape) =? 0)%nat then []
  else
    let pointsStr := pointsText (points shape) (isClosed shape) in
    match pointsStr with
    | [] => []
    | _ => txt "[" ++ [LF] ++ pointsStr ++ [LF] ++ txt "]"
    end.

Definition shapesToString (shapes : list Shape) : text :=
  join [LF; LF] (filter (fun s => nonEmpty s = true) (map shapeText shapes)).

(** [coordinates.replace(/\r\n/g, '\n')]. *)
Fixpoint normalizeLineEndings (s : text) : text :=
  match s with
  | [] => []
  | c :: s' =>
    match s' with
    | c' :: s'' =>
      if ascii_eqb c CR && ascii_eqb c' LF then LF :: normalizeLineEndings s''
      else c :: normalizeLineEndings s'
    | [] => [c]
    end
  end.

(** For the text [ws] that follows a line feed: the length of its
    shortest prefix that ends with the last line feed of [ws], or 0 when
    [ws] has no line feed. *)
Fixpoint throughLastLF (ws : text) : nat :=
  match ws with
  | [] => 0
  | c :: ws' =>
    match throughLastLF ws' with
    | O => if ascii_eqb c LF then 1 else 0
    | S n => S (S n)
    end
  end.

(** [s.split(/\n\s*\n/)]: a separator is a line feed together with the
    white space after it up to the last line feed of that white space.
    [skip] counts the characters of a separator that are still to be
    passed. *)
Fixpoint splitBlocksFrom (skip : nat) (s : text) : list text :=
  match s with
  | [] => [[]]
  | c :: s' =>
    match skip with
    | S k => splitBlocksFrom k s'
    | O =>
      let sep := throughLastLF (takeWhile isSpace s') in
      if ascii_eqb c LF && (0 <? sep)%nat then [] :: splitBlocksFrom sep s'
      else
        match splitBlocksFrom 0 s' with
        | block :: rest => (c :: block) :: rest
        | [] => [[c]]
        end
    end
  end.

Definition splitBlocks (s : text) : list text := splitBlocksFrom 0 s.

(** The sub-pattern [-?\d+(?:\.\d+)?] at the head of [s]: the text it
    matches and what follows. *)
Definition matchNumber (s : text) : option (text * text) :=
  let '(sign, s1) :=
    match s with
    | c :: s' => if ascii_eqb c "-" then ([c], s') else ([], s)
    | [] => ([], s)
    end in
  let ip := takeWhile isDigit s1 in
  let s2 := dropWhile isDigit s1 in
  match ip with
  | [] => None
  | _ =>
    match s2 with
    | c :: s3 =>
      if ascii_eqb c "." && nonEmpty (takeWhile isDigit s3)
      then Some (sign ++ ip ++ [c] ++ takeWhile isDigit s3, dropWhile isDigit s3)
      else Some (sign ++ ip, s2)
    | [] => Some (sign ++ ip, s2)
    end
  end.

(** The pattern [coordRegex] at the head of [s]: the two numbers as
    written, whether the closing [-1] is there, and the text after the
    match.  Each star and each option of the pattern is followed by a
    character it cannot itself match, so taking them greedily finds the
    match whenever there is one. *)
Definition matchCoord (s : text) : option (text * text * bool * text) :=
  match s with
  | [] => None
  | c0 :: s1 =>
    if negb (ascii_eqb c0 "[") then None else
    match matchNumber (dropWhile isSpace s1) with
    | None => None
    | Some (n1, s2) =>
      match dropWhile isSpace s2 with
      | [] => None
      | c1 :: s3 =>
        if negb (ascii_eqb c1 ",") then None else
        match matchNumber (dropWhile isSpace s3) with
        | None => None
        | Some (n2, s4) =>
          match dropWhile isSpace s4 with
          | [] => None
          | c2 :: s5 =>
            if ascii_eqb c2 "]" then Some (n1, n2, false, s5)
            else if ascii_eqb c2 "," then
              match dropWhile isSpace s5 with
              | c3 :: c4 :: s6 =>
                if ascii_eqb c3 "-" && ascii_eqb c4 "1" then
                  match dropWhile isSpace s6 with
                  | c5 :: s7 =>
                    if ascii_eqb c5 "]" then Some (n1, n2, true, s7) else None
                  | [] => None
                  end
                else None
              | _ => None
              end
            else None
          end
        end
      end
    end
  end.

(** The loop [while ((match = coordRegex.exec(block)) !== null)] and the
    push that follows it.  [skip] counts the characters of the last
    match that are still to be passed; [currentPoints] is
    [currentShape.points]. *)
Fixpoint scanBlock (skip : nat) (block : text) (currentPoints : list Point)
    : list Shape :=
  match block with
  | [] =>
    if (0 <? length currentPoints)%nat then [mkShape currentPoints false] else []
  | _ :: block' =>
    match skip with
    | S k => scanBlock k block' currentPoints
    | O =>
      match matchCoord block with
      | Some (n1, n2, isSeparator, rest) =>
        let x := parseFloat n1 in
        let y := parseFloat n2 in
        let pts := currentPoints ++ [(x, y)] in
        let skip' := (length block' - length rest)%nat in
        if isSeparator then mkShape pts true :: scanBlock skip' block' []
        else scanBlock skip' block' pts
      | None => scanBlock 0 block' currentPoints
      end
    end
  end.

(** The memo [shapes]: the deserialiser. *)
Definition deserialize (coordinates : text) : list Shape :=
  match trim coordinates with
  | [] => []
  | _ =>
    let normalizedCoordinates := normalizeLineEndings coordinates in
    let shapeBlocks := splitBlocks (trim normalizedCoordinates) in
    concat (map (fun block =>
                   match trim block with
                   | [] => []
                   | _ => scanBlock 0 block []
                   end)
                shapeBlocks)
  end.

(** ** Notions used in the statements *)

(** The test of the filtering loop: the squared distance from [p] to [q]
    exceeds the square of [minDistance]. *)
Definition fartherThan (minDistance : num) (p q : Point) : bool :=
  let dx := (q.1 - p.1)%num in
  let dy := (q.2 - p.2)%num in
  (dx * dx + dy * dy >? minDistance * minDistance)%num.

(** [a === '100%'] for an attribute that may be missing. *)
Definition is100Percent (a : option text) : bool :=
  match a with Some s => text_eqb s (txt "100%") | None => false end.

(** Elements written as a tag name and attributes. *)
Definition attr (name value : string) : text * text := (txt name, txt value).

Definition element (tag : string) (attrs : list (text * text)) : Element :=
  mkElement (txt tag) attrs.

(** Points equal as values. *)
Definition point_eq (p q : Point) : Prop := num_eq p.1 q.1 /\ num_eq p.2 q.2.

(** The messages of the two errors about shapes. *)
Definition noValidShapes : text := txt "No valid shapes found in the SVG.".
Definition noCoordinates : text :=
  txt "Could not extract any processable coordinates from the SVG's shapes.".

Definition hasParserError (nodes : list Element) : bool :=
  existsb (matchesSelector "parsererror") nodes.

(** The text of a plain decimal number: an optional minus sign, the
    digits [ip] of the integer part and, when [fp] is not empty, a point
    and the digits [fp] of the fraction. *)
Definition fracText (fp : text) : text :=
  match fp with [] => [] | _ => "."%char :: fp end.

Definition numberText (neg : bool) (ip fp : text) : text :=
  (if neg then txt "-" else []) ++ ip ++ fracText fp.

(** The value that the digits [ip] and [fp] denote. *)
Definition decValue (ip fp : text) : Q :=
  digitsVal (ip ++ fp) # Z.to_pos (pow10 (length fp)).

Definition allDigits (ds : text) : Prop := Forall (fun c => isDigit c = true) ds.

(** The integer that [toFixed(2)] prints for a magnitude below 10^21:
    the nearest integer to a hundred times the magnitude. *)
Definition hundredths (q : Q) : Z := Qfloor (Qabs q * 100 + (1 # 2)).

(** A coordinate that the serialiser writes in plain decimal notation:
    a number whose magnitude, rounded to two decimals, is below 10^21. *)
Definition plainCoord (c : num) : Prop :=
  match c with
  | Fin q => (hundredths q < 10 ^ 23)%Z
  | NaN => False
  end.

(** [v] is a whole number. *)
Definition isInteger (v : Q) : Prop := exists z : Z, v == inject_Z z.

(** The digits that [toFixed(2)] writes for the integer [n] of
    hundredths: at least three digits, with a point before the last
    two. *)
Definition fixedText (n : Z) : text :=
  let m := digitsOf n in
  let m := zeros (3 - length m) ++ m in
  take (length m - 2) m ++ txt "." ++ drop (length m - 2) m.

(** The point that the deserialiser reads back from the text of [p]. *)
Definition roundPoint (p : Point) : Point :=
  (parseFloat (coordText p.1), parseFloat (coordText p.2)).

Definition roundShape (shape : Shape) : Shape :=
  mkShape (map roundPoint (points shape)) (isClosed shape).

Definition plainPoint (p : Point) : Prop := plainCoord p.1 /\ plainCoord p.2.

(** A document whose coordinates are all written in plain decimal
    notation. *)
Definition plainDocument (shapes : list Shape) : Prop :=
  Forall (fun shape => Forall plainPoint (points shape)) shapes.

(** No character of [t] is white space. *)
Definition solid (t : text) : Prop := Forall (fun c => isSpace c = false) t.

(** Every line feed of [b] is followed, inside [b], by a character that
    is not white space: [b] holds no blank line and does not end with a
    line feed. *)
Fixpoint noBlankLine (b : text) : Prop :=
  match b with
  | [] => True
  | c :: b' =>
    (c = LF -> match b' with c' :: _ => isSpace c' = false | [] => False end)
    /\ noBlankLine b'
  end.

(** *** The language of the coordinate pattern

    Sets of texts built like the regular expression [coordRegex] of the
    deserialiser (an opening bracket, a number, a comma, a number, an
    optional comma and -1, a closing bracket, with white space allowed
    between them), to say what a coordinate-like token is without
    reference to the matcher. *)

Definition lang : Type := text -> Prop.

Definition lit (s : string) : lang := fun t => t = txt s.
Definition star (p : ascii -> bool) : lang := fun t => Forall (fun c => p c = true) t.
Definition plus (p : ascii -> bool) : lang := fun t => t <> [] /\ star p t.
Definition cat (P Q : lang) : lang :=
  fun t => exists a b, t = a ++ b /\ P a /\ Q b.
Definition opt (P : lang) : lang := fun t => t = [] \/ P t.

Definition numberLang : lang :=
  cat (opt (lit "-")) (cat (plus isDigit) (opt (cat (lit ".") (plus isDigit)))).

Definition closingMark : lang :=
  cat (lit ",") (cat (star isSpace) (cat (lit "-1") (star isSpace))).

Definition coordToken : lang :=
  cat (lit "[") (cat (star isSpace) (cat numberLang (cat (star isSpace)
    (cat (lit ",") (cat (star isSpace) (cat numberLang (cat (star isSpace)
      (cat (opt closingMark) (lit "]"))))))))).

(** [s] contains a coordinate-like token. *)
Definition containsToken (s : text) : Prop :=
  exists pre tok suf, s = pre ++ tok ++ suf /\ coordToken tok.

(** [s] is [n] with some of its line feeds written as carriage return
    and line feed. *)
Inductive expands : text -> text -> Prop :=
  | expands_nil : expands [] []
  | expands_same (c : ascii) (n s : text) :
      expands n s -> expands (c :: n) (c :: s)
  | expands_crlf (n s : text) :
      expands n s -> expands (LF :: n) (CR :: LF :: s).

(** ** The history of the coordinate text: App (src/unnamed/part_000)

    The component keeps the texts of the coordinates in [history] and
    shows the one at [historyIndex] (lines 13-15).  Each handler below
    takes the two values as the render that created it saw them and
    gives the values after its state updates. *)

Record History : Type := mkHistory {
  history : list text;
  historyIndex : nat
}.

(** [useState(['']) ] and [useState(0)]. *)
Definition initialHistory : History := mkHistory [[]] 0.

(** [history[historyIndex] || '']. *)
Definition coordinatesOf (h : History) : text :=
  nth (historyIndex h) (history h) [].

(** Lines 107-118, the part that concerns the history. *)
Definition handleCoordinatesUpdate (h : History) (newCoords : text) : History :=
  if text_eqb newCoords (coordinatesOf h) then h
  else
    let newHistory := slice (history h) 0 (historyIndex h + 1) ++ [newCoords] in
    mkHistory newHistory (length newHistory - 1).

(** Lines 120-124. *)
Definition handleUndo (h : History) : History :=
  if (0 <? historyIndex h)%nat then mkHistory (history h) (historyIndex h - 1)
  else h.

(** Lines 126-130. *)
Definition handleRedo (h : History) : History :=
  if (historyIndex h <? length (history h) - 1)%nat
  then mkHistory (history h) (historyIndex h + 1)
  else h.

(** Lines 36-48: choosing a file resets the history; without a file the
    handler returns at once. *)
Definition handleFileChange (h : History) (fileChosen : bool) : History :=
  if fileChosen then mkHistory [[]] 0 else h.

(** Lines 75-97: without SVG content the handler only reports an error;
    otherwise the history is reset, and holds the text of the pipeline
    when the promise resolves.  [svgContent] is the loaded document as
    the pipeline sees it once parsed, [None] when nothing is loaded. *)
Definition handleProcess (sqrtQ : Q -> Q) (epsilon : num) (shouldResize : bool)
    (minDistance : num) (h : History) (svgContent : option (list Element)) : History :=
  match svgContent with
  | None => h
  | Some nodes =>
    match processSVG sqrtQ epsilon shouldResize minDistance nodes with
    | Resolve result => mkHistory [result] 0
    | _ => mkHistory [[]] 0
    end
  end.

(** What can happen to the history: an edit of the text (typed, or made
    in the preview), undo, redo, a file selection, a run of the
    pipeline with the settings of the moment. *)
Inductive HistoryEvent : Type :=
  | Edit (newCoords : text)
  | Undo
  | Redo
  | FileChange (fileChosen : bool)
  | Process (epsilon : num) (shouldResize : bool) (minDistance : num)
            (svgContent : option (list Element)).

Definition historyStep (sqrtQ : Q -> Q) (h : History) (e : HistoryEvent) : History :=
  match e with
  | Edit newCoords => handleCoordinatesUpdate h newCoords
  | Undo => handleUndo h
  | Redo => handleRedo h
  | FileChange fileChosen => handleFileChange h fileChosen
  | Process epsilon shouldResize minDistance svgContent =>
    handleProcess sqrtQ epsilon shouldResize minDistance h svgContent
  end.

Definition historyAfter (sqrtQ : Q -> Q) (events : list HistoryEvent) : History :=
  fold_left (historyStep sqrtQ) events initialHistory.

(** The index points into the history, and no two neighbouring entries
    of the history are the same text. *)
Definition historyOk (h : History) : Prop :=
  (historyIndex h < length (history h))%nat
  /\ forall i a b, history h !! i = Some a -> history h !! S i = Some b -> a <> b.

(** ** Editing in the preview: DotPreview (src/unnamed/part_002), lines 131-168

    A handler copies the shapes of the memo with
    [JSON.parse(JSON.stringify(shapes))], changes the copy and hands the
    text of the copy to [onUpdateCoordinates].  The shapes of the memo
    are what the deserialiser read from the coordinate text, numbers
    throughout, which the copy leaves as they are; so the handlers are
    given here as functions of the coordinate text. *)

(** Lines 146-150: the clicked point starts a new open shape when there
    is no shape or the last one is closed, and is appended to the last
    shape otherwise. *)
Definition addPoint (shapes : list Shape) (newPoint : Point) : list Shape :=
  match last shapes with
  | Some lastShape =>
    if isClosed lastShape then shapes ++ [mkShape [newPoint] false]
    else take (length shapes - 1) shapes
         ++ [mkShape (points lastShape ++ [newPoint]) (isClosed lastShape)]
  | None => shapes ++ [mkShape [newPoint] false]
  end.

(** Lines 131-153.  [drawing] says that the guard of line 132 lets the
    click through (a background image is shown and the click is not on
    a point); [newPoint] is the position of the click in the coordinates
    of the drawing. *)
Definition handleCanvasClick (drawing : bool) (coordinates : text) (newPoint : Point)
    : option text :=
  if drawing
  then Some (shapesToString (addPoint (deserialize coordinates) newPoint))
  else None.

(** Lines 159-165: [splice] removes the point at [pointIndex] if there
    is one; a shape left without points is removed.  Reading a shape
    past the end of the array gives [undefined], and the access to its
    points throws: [None]. *)
Definition deletePoint (shapes : list Shape) (shapeIndex pointIndex : nat)
    : option (list Shape) :=
  match shapes !! shapeIndex with
  | None => None
  | Some shape =>
    let remaining := delete pointIndex (points shape) in
    if (length remaining =? 0)%nat then Some (delete shapeIndex shapes)
    else Some (<[shapeIndex := mkShape remaining (isClosed shape)]> shapes)
  end.

(** Lines 155-168. *)
Definition handleDeletePoint (coordinates : text) (shapeIndex pointIndex : nat)
    : option text :=
  match deletePoint (deserialize coordinates) shapeIndex pointIndex with
  | Some newShapes => Some (shapesToString newShapes)
  | None => None
  end.

(** ** The view box of the preview: DotPreview (src/unnamed/part_002), lines 94-124 *)

(** The four values that the template literal of the memo writes:
    numbers, or the infinities that the arithmetic of lines 119-123
    yields when only the vertical extent is still infinite (padding,
    width and height are [-Infinity], the two corners [Infinity]). *)
Inductive Frame : Type :=
  | FrameNumbers (x y width height : num)
  | FrameInfinite.

Definition frameText (f : Frame) : text :=
  match f with
  | FrameNumbers x y width height =>
    numToString x ++ txt " " ++ numToString y ++ txt " " ++ numToString width
      ++ txt " " ++ numToString height
  | FrameInfinite => txt "Infinity Infinity -Infinity -Infinity"
  end.

(** [s.split(c)] for a separator of one character. *)
Fixpoint splitChar (c : ascii) (s : text) : list text :=
  match s with
  | [] => [[]]
  | x :: s' =>
    if ascii_eqb x c then [] :: splitChar c s'
    else
      match splitChar c s' with
      | piece :: rest => (x :: piece) :: rest
      | [] => [[x]]
      end
  end.

(** [s.startsWith(p)]. *)
Fixpoint startsWith (p s : text) : bool :=
  match p, s with
  | [], _ => true
  | a :: p', b :: s' => ascii_eqb a b && startsWith p' s'
  | _ :: _, [] => false
  end.

(** [parseFloat] reads an infinity from [s]: after leading white space
    and an optional sign, [s] goes on with [Infinity]. *)
Definition readsInfinity (s : text) : bool :=
  let s := trimStart s in
  let s :=
    match s with
    | c :: s' => if ascii_eqb c "-" || ascii_eqb c "+" then s' else s
    | [] => s
    end in
  startsWith (txt "Infinity") s.

(** [parseFloat] with the infinities, which [num] leaves out: [None]
    when the literal read is an infinity. *)
Definition parseFloatOrInfinity (s : text) : option num :=
  if readsInfinity s then None else Some (parseFloat s).

(** The memo [strokeWidth], lines 126-129: the third number of the view
    box, or 100 when it is missing, NaN or zero, divided by 200.  When
    the third number is an infinity so is the result: [None]. *)
Definition strokeWidth (viewBox : text) : option num :=
  let parts := map parseFloatOrInfinity (splitChar " " viewBox) in
  match nth_error parts 2 with
  | Some None => None
  | Some (Some (Fin q)) => Some ((if Qeq_bool q 0 then nZ 100 else Fin q) / nZ 200)%num
  | _ => Some (nZ 100 / nZ 200)%num
  end.

(** ** Notions used in the further properties *)

(** Every two neighbours of a list of positions are related by [R]. *)
Inductive adjacent (R : nat -> nat -> Prop) : list nat -> Prop :=
  | adjacent_nil : adjacent R []
  | adjacent_one (a : nat) : adjacent R [a]
  | adjacent_cons (a b : nat) (l : list nat) :
      R a b -> adjacent R (b :: l) -> adjacent R (a :: b :: l).

(** Positions [a < b] of [points] such that no point strictly between
    them is farther than [epsilon] from the segment that joins the
    points at [a] and [b]. *)
Definition withinEpsilon (sqrtQ : Q -> Q) (epsilon : num) (points : list Point)
    (a b : nat) : Prop :=
  (a < b)%nat
  /\ forall i, (a < i < b)%nat ->
       (getPerpendicularDistance sqrtQ (at_ points i) (at_ points a) (at_ points b)
        >? epsilon)%num = false.

(** A value of [num] that is a number: not NaN. *)
Definition isFinite (x : num) : bool :=
  match x with Fin _ => true | NaN => false end.

(** A number with at most six decimals and a magnitude below 10^21: what
    a template literal writes in plain decimal notation. *)
Definition decimalNumber (x : num) : Prop :=
  match x with
  | Fin q => isInteger (Qabs q * inject_Z (pow10 6)) /\ Qabs q < inject_Z (10 ^ 21)
  | NaN => False
  end.

(** A non-empty text of digits, minus signs and points: a token of the
    argument tokenizer [/[-.0-9]+/g]. *)
Definition argToken (t : text) : Prop :=
  t <> [] /\ Forall (fun c => isArgChar c = true) t.

(** What [processSVG] pushes for a subpath it keeps: the lines of its
    points, without enclosing brackets. *)
Definition shapeLines (shape : Shape) : text :=
  pointsText (points shape) (isClosed shape).

(** Both coordinates of a point are numbers. *)
Definition finitePoint (p : Point) : Prop :=
  isFinite p.1 = true /\ isFinite p.2 = true.

(** A point of a [points] attribute written as two number tokens with a
    comma between them, the attribute written with one space between
    its points, and the point that the two tokens denote. *)
Definition pointPairText (ab : text * text) : text := ab.1 ++ txt "," ++ ab.2.

Definition pointsAttribute (pairs : list (text * text)) : text :=
  join (txt " ") (map pointPairText pairs).

Definition pairPoint (ab : text * text) : Point := (parseFloat ab.1, parseFloat ab.2).

(** * The pipeline on IEEE 754 doubles

    The functions of [svgProcessor.ts] once more, this time with the
    numbers of the platform.  A JavaScript number is an IEEE 754
    binary64 value: [spec_float] of the standard library at precision 53
    and exponent bound 1024, with its signed zeros, its infinities and
    NaN; every operation rounds to nearest, ties to even; a decimal
    literal denotes the double nearest to it.  A missing array element
    is [undefined], which arithmetic reads as NaN and on which a method
    call throws.  The definitions that only handle text ([runs],
    [matchCommands], [getAttribute], ...) are those of the first part.

    The properties whose truth depends on the value of a computed number
    (a distance, a difference compared with a threshold) are stated over
    this module. *)

Module Double.

Definition prec : Z := 53.
Definition emax : Z := 1024.

Definition double : Type := spec_float.

(** The double nearest to [n / d], with the sign [neg]. *)
Definition ofRatio (neg : bool) (n d : positive) : double :=
  SFdiv prec emax (S754_finite neg n 0) (S754_finite false d 0).

(** The double nearest to [mantissa * 10 ^ exponent], for a mantissa
    that is not negative. *)
Definition ofDecimal (neg : bool) (mantissa exponent : Z) : double :=
  match mantissa with
  | Zpos m =>
    if (0 <=? exponent)%Z then ofRatio neg (m * Z.to_pos (10 ^ exponent)) 1
    else ofRatio neg m (Z.to_pos (10 ^ (- exponent)))
  | _ => S754_zero neg
  end.

(** Integer literals of the source. *)
Definition ofZ (z : Z) : double := binary_normalize prec emax z 0 false.

Definition dadd : double -> double -> double := SFadd prec emax.
Definition dsub : double -> double -> double := SFsub prec emax.
Definition dmul : double -> double -> double := SFmul prec emax.
Definition ddiv : double -> double -> double := SFdiv prec emax.

(** The comparisons [<], [>], [<=] and [===] on numbers. *)
Definition dlt (a b : double) : bool := SFltb a b.
Definition dgt (a b : double) : bool := SFltb b a.
Definition dle (a b : double) : bool := SFleb a b.
Definition deq (a b : double) : bool := SFeqb a b.

Definition Math_abs (a : double) : double := SFabs a.
Definition Math_sqrt (a : double) : double := SFsqrt prec emax a.

(** [Math.min] of two numbers: NaN when one of them is, and -0 below
    +0. *)
Definition Math_min (a b : double) : double :=
  match SFcompare a b with
  | None => S754_nan
  | Some Lt => a
  | Some Gt => b
  | Some Eq =>
    match a, b with
    | S754_zero false, S754_zero true => b
    | _, _ => a
    end
  end.

Declare Scope double_scope.
Delimit Scope double_scope with D.
Bind Scope double_scope with double.

Infix "+" := dadd : double_scope.
Infix "-" := dsub : double_scope.
Infix "*" := dmul : double_scope.
Infix "/" := ddiv : double_scope.
Infix "<?" := dlt (at level 70) : double_scope.
Infix ">?" := dgt (at level 70) : double_scope.
Infix "<=?" := dle (at level 70) : double_scope.
Infix "=?" := deq (at level 70) : double_scope.

(** The exact value of a finite double. *)
Definition toQ (x : double) : Q :=
  match x with
  | S754_finite s m e =>
    let v := if (0 <=? e)%Z then inject_Z (Zpos m * 2 ^ e)
             else Zpos m # Z.to_pos (2 ^ (- e)) in
    if s then - v else v
  | _ => 0
  end.

Definition isFiniteDouble (x : double) : bool :=
  match x with
  | S754_finite _ _ _ | S754_zero _ => true
  | _ => false
  end.

(** *** parseFloat

    The longest prefix, after leading white space, that is a decimal
    literal: an optional sign, then [Infinity], or digits with an
    optional fraction (or a fraction alone) and an optional exponent.
    Its value is rounded to the nearest double; NaN when there is no
    such prefix. *)

Definition unsignedLiteral (neg : bool) (s : text) : double :=
  if startsWith (txt "Infinity") s then S754_infinity neg
  else
    let ip := takeWhile isDigit s in
    let s1 := dropWhile isDigit s in
    let '(fp, s2) :=
      match s1 with
      | c :: s1' =>
        if ascii_eqb c "." then (takeWhile isDigit s1', dropWhile isDigit s1')
        else ([], s1)
      | [] => ([], s1)
      end in
    match ip, fp with
    | [], [] => S754_nan
    | _, _ =>
      ofDecimal neg (digitsVal (ip ++ fp)) (exponentPart s2 - Z.of_nat (length fp))
    end.

Definition parseFloat (s : text) : double :=
  match trimStart s with
  | c :: s' =>
    if ascii_eqb c "-" then unsignedLiteral true s'
    else if ascii_eqb c "+" then unsignedLiteral false s'
    else unsignedLiteral false (c :: s')
  | [] => S754_nan
  end.

(** *** Number to text

    Number::toString of ECMAScript, radix 10: the digits [s] are the
    fewest whose decimal [s * 10 ^ e] rounds to the number (the closest
    to it when several do, the even one in a tie); they are written
    plainly or in exponent notation by [renderPositive]. *)

Definition pow10z (k : Z) : Z := (10 ^ Z.max 0 k)%Z.

(** The [k] with [10 ^ (k - 1) <= n / d < 10 ^ k], for positive [n] and
    [d]. *)
Definition decimalOrder (n d : Z) : Z :=
  let a := Z.of_nat (length (digitsOf n)) in
  let b := Z.of_nat (length (digitsOf d)) in
  if (d * pow10z (a - b) <=? n * pow10z (b - a))%Z then (a - b + 1)%Z
  else (a - b)%Z.

Definition roundsTo (x : double) (s e : Z) : bool :=
  SFeqb (ofDecimal false s e) x.

(** The search for the digits of the positive double [x] of exact value
    [n / d] and decimal order [order], from [k] digits on.  Seventeen
    digits identify a double, so the search ends before [fuel] does. *)
Fixpoint shortestDigits (fuel : nat) (k : Z) (x : double) (n d order : Z) : Z * Z :=
  let e := (order - k)%Z in
  let scaledN := (n * pow10z (- e))%Z in
  let scaledD := (d * pow10z e)%Z in
  let lo := (scaledN / scaledD)%Z in
  let hi := (lo + 1)%Z in
  let nearest :=
    match (2 * scaledN ?= (2 * lo + 1) * scaledD)%Z with
    | Lt => lo
    | Gt => hi
    | Eq => if Z.even lo then lo else hi
    end in
  match fuel with
  | O => (nearest, e)
  | S fuel' =>
    match roundsTo x lo e, roundsTo x hi e with
    | true, true => (nearest, e)
    | true, false => (lo, e)
    | false, true => (hi, e)
    | false, false => shortestDigits fuel' (k + 1) x n d order
    end
  end.

Definition numToString (x : double) : text :=
  match x with
  | S754_nan => txt "NaN"
  | S754_zero _ => txt "0"
  | S754_infinity s => if s then txt "-Infinity" else txt "Infinity"
  | S754_finite s m e =>
    let n := if (0 <=? e)%Z then (Zpos m * 2 ^ e)%Z else Zpos m in
    let d := if (0 <=? e)%Z then 1%Z else (2 ^ (- e))%Z in
    let '(digits, e10) :=
      shortestDigits 17 1 (S754_finite false m e) n d (decimalOrder n d) in
    (if s then txt "-" else [])
    ++ (if (0 <=? e10)%Z then renderPositive (digits * 10 ^ e10) 0
        else renderPositive digits (Z.to_nat (- e10)))
  end.

(** [x.toFixed(2)] for a number [x]: the sign when [x < 0], then for a
    magnitude below 10^21 the integer nearest to a hundred times the
    magnitude (the larger one in a tie) written with two decimals; from
    10^21 on, the plain conversion of the magnitude. *)
Definition toFixed2 (x : double) : text :=
  match x with
  | S754_nan => txt "NaN"
  | S754_zero _ => txt "0.00"
  | S754_infinity s => (if s then txt "-" else []) ++ txt "Infinity"
  | S754_finite s m e =>
    let a := toQ (S754_finite false m e) in
    (if s then txt "-" else []) ++
    if Qle_bool (inject_Z (10 ^ 21)) a then numToString (S754_finite false m e)
    else fixedText (Qfloor (a * 100 + (1 # 2)))
  end.

(** What the serialiser writes for a coordinate [c] that is a number:
    the text of [parseFloat(c.toFixed(2))]. *)
Definition coordText (c : double) : text := numToString (parseFloat (toFixed2 c)).

(** ** Values and points *)

(** What an array of the code holds at an index: a number, or
    [undefined] past the end of an argument list. *)
Inductive value : Type :=
  | Num (d : double)
  | Undefined.

(** The number that arithmetic and comparisons read from a value. *)
Definition toNumber (v : value) : double :=
  match v with
  | Num d => d
  | Undefined => S754_nan
  end.

Definition Point : Type := value * value.

(** [p[0]] and [p[1]] as operands. *)
Definition x_of (p : Point) : double := toNumber p.1.
Definition y_of (p : Point) : double := toNumber p.2.

(** [points[i]]; the code reads points at positions inside the array
    only. *)
Definition at_ (points : list Point) (i : nat) : Point :=
  nth i points (Undefined, Undefined).

(** ** Geometry: svgProcessor.ts, lines 5-54 *)

Definition getPerpendicularDistance (pt lineStart lineEnd : Point) : double :=
  let dx := (x_of lineEnd - x_of lineStart)%D in
  let dy := (y_of lineEnd - y_of lineStart)%D in
  if (dx =? ofZ 0)%D && (dy =? ofZ 0)%D then
    let dx := (x_of pt - x_of lineStart)%D in
    let dy := (y_of pt - y_of lineStart)%D in
    Math_sqrt (dx * dx + dy * dy)%D
  else
    let t := (((x_of pt - x_of lineStart) * dx + (y_of pt - y_of lineStart) * dy)
              / (dx * dx + dy * dy))%D in
    let nearestPoint : Point :=
      if (t <? ofZ 0)%D then lineStart
      else if (t >? ofZ 1)%D then lineEnd
      else (Num (x_of lineStart + t * dx)%D, Num (y_of lineStart + t * dy)%D) in
    let dx := (x_of pt - x_of nearestPoint)%D in
    let dy := (y_of pt - y_of nearestPoint)%D in
    Math_sqrt (dx * dx + dy * dy)%D.

(** One turn of the loop [for (let i = 1; i < end; i++)]: the state is
    the pair [(dmax, index)]. *)
Definition farthestStep (points : list Point) (end_ : nat)
    (acc : double * nat) (i : nat) : double * nat :=
  let d := getPerpendicularDistance (at_ points i) (at_ points 0) (at_ points end_) in
  if (d >? acc.1)%D then (d, i) else acc.

Definition farthest (points : list Point) (end_ : nat) : double * nat :=
  fold_left (farthestStep points end_) (seq 1 (end_ - 1)) (ofZ 0, 0%nat).

(** The recursion of the source is bounded by the call stack only; the
    model counts calls down from [fuel], and [None] is the recursion
    that has not returned within [fuel] nested calls. *)
Fixpoint ramerDouglasPeucker (fuel : nat) (points : list Point) (epsilon : double)
    : option (list Point) :=
  match fuel with
  | O => None
  | S fuel' =>
    if (length points <? 3)%nat then Some points
    else
      let end_ := (length points - 1)%nat in
      let '(dmax, index) := farthest points end_ in
      if (dmax >? epsilon)%D then
        match ramerDouglasPeucker fuel' (slice points 0 (index + 1)) epsilon with
        | None => None
        | Some recResults1 =>
          match ramerDouglasPeucker fuel' (slice points index (length points)) epsilon with
          | None => None
          | Some recResults2 =>
            Some (slice recResults1 0 (length recResults1 - 1) ++ recResults2)
          end
        end
      else Some [at_ points 0; at_ points (length points - 1)]
  end.

(** ** Path data: svgProcessor.ts, lines 59-160 *)

Record PathState : Type := mkPathState {
  st_paths : list (list Point);
  st_currentPath : list Point;
  st_x : value;
  st_y : value;
  st_startX : value;
  st_startY : value
}.

(** [args[i]]: [undefined] past the end of the array. *)
Definition arg (args : list double) (i : nat) : value :=
  match nth_error args i with
  | Some d => Num d
  | None => Undefined
  end.

Section PathCommands.

Variables (isRelative : bool) (args : list double).

(** [isRelative ? x + args[i] : args[i]]. *)
Definition resolve (cursor : value) (a : value) : value :=
  if isRelative then Num (toNumber cursor + toNumber a)%D else a.

Definition moveto (st : PathState) (i : nat) : PathState :=
  let px := resolve (st_x st) (arg args i) in
  let py := resolve (st_y st) (arg args (i + 1)) in
  if (i =? 0)%nat then
    mkPathState
      (if nonEmpty (st_currentPath st) then st_paths st ++ [st_currentPath st]
       else st_paths st)
      [(px, py)] px py px py
  else
    mkPathState (st_paths st) (st_currentPath st ++ [(px, py)])
                px py (st_startX st) (st_startY st).

Definition lineto (st : PathState) (i : nat) : PathState :=
  let px := resolve (st_x st) (arg args i) in
  let py := resolve (st_y st) (arg args (i + 1)) in
  mkPathState (st_paths st) (st_currentPath st ++ [(px, py)])
              px py (st_startX st) (st_startY st).

Definition horizontal (st : PathState) (i : nat) : PathState :=
  let px := resolve (st_x st) (arg args i) in
  mkPathState (st_paths st) (st_currentPath st ++ [(px, st_y st)])
              px (st_y st) (st_startX st) (st_startY st).

Definition vertical (st : PathState) (i : nat) : PathState :=
  let py := resolve (st_y st) (arg args i) in
  mkPathState (st_paths st) (st_currentPath st ++ [(st_x st, py)])
              (st_x st) py (st_startX st) (st_startY st).

(** The point of the cubic at [t = t_step / 10]. *)
Definition bezierPoint (x y x1 y1 x2 y2 endX endY : value) (t_step : nat) : Point :=
  let steps := ofZ 10 in
  let t := (ofZ (Z.of_nat t_step) / steps)%D in
  let it := (ofZ 1 - t)%D in
  let b1 := (it * it * it)%D in
  let b2 := (ofZ 3 * it * it * t)%D in
  let b3 := (ofZ 3 * it * t * t)%D in
  let b4 := (t * t * t)%D in
  (Num (b1 * toNumber x + b2 * toNumber x1 + b3 * toNumber x2 + b4 * toNumber endX)%D,
   Num (b1 * toNumber y + b2 * toNumber y1 + b3 * toNumber y2 + b4 * toNumber endY)%D).

Definition curveto (st : PathState) (i : nat) : PathState :=
  let x := st_x st in
  let y := st_y st in
  let x1 := resolve x (arg args i) in
  let y1 := resolve y (arg args (i + 1)) in
  let x2 := resolve x (arg args (i + 2)) in
  let y2 := resolve y (arg args (i + 3)) in
  let endX := resolve x (arg args (i + 4)) in
  let endY := resolve y (arg args (i + 5)) in
  mkPathState (st_paths st)
    (st_currentPath st ++ map (bezierPoint x y x1 y1 x2 y2 endX endY) (seq 1 10))
    endX endY (st_startX st) (st_startY st).

End PathCommands.

Definition closepath (st : PathState) : PathState :=
  if nonEmpty (st_currentPath st) then
    mkPathState
      (st_paths st ++ [st_currentPath st ++ [(st_startX st, st_startY st)]])
      [] (st_x st) (st_y st) (st_startX st) (st_startY st)
  else st.

(** The body of [commands.forEach]. *)
Definition execCommand (st : PathState) (commandStr : text) : PathState :=
  match commandStr with
  | [] => st
  | command :: rest =>
    let args := map parseFloat (runs isArgChar (trim rest)) in
    let isRelative := ascii_eqb command (toLowerCase1 command) in
    let upper := toUpperCase1 command in
    if ascii_eqb upper "M" then
      fold_left (moveto isRelative args) (loopIndices (length args) 2) st
    else if ascii_eqb upper "L" then
      fold_left (lineto isRelative args) (loopIndices (length args) 2) st
    else if ascii_eqb upper "H" then
      fold_left (horizontal isRelative args) (loopIndices (length args) 1) st
    else if ascii_eqb upper "V" then
      fold_left (vertical isRelative args) (loopIndices (length args) 1) st
    else if ascii_eqb upper "C" then
      fold_left (curveto isRelative args) (loopIndices (length args) 6) st
    else if ascii_eqb upper "Z" then closepath st
    else st
  end.

Definition initialPathState : PathState :=
  mkPathState [] [] (Num (ofZ 0)) (Num (ofZ 0)) (Num (ofZ 0)) (Num (ofZ 0)).

Definition finishPaths (st : PathState) : list (list Point) :=
  if nonEmpty (st_currentPath st) then st_paths st ++ [st_currentPath st]
  else st_paths st.

Definition runCommands (commands : list text) : PathState :=
  fold_left execCommand commands initialPathState.

Definition parsePathData (d : text) : list (list Point) :=
  match d with
  | [] => []
  | _ => finishPaths (runCommands (matchCommands d))
  end.

(** ** Elements and their path descriptions: svgProcessor.ts, lines 162-202 *)

(** The helper [get] of [shapeToPath], with its element made explicit. *)
Definition getNumber (el : Element) (attr : string) : double :=
  parseFloat (orElse (getAttribute el (txt attr)) (txt "0")).

Definition shapeToPath (el : Element) : text * bool :=
  let str := numToString in
  if tagIs el "path" then
    let d := orElse (getAttribute el (txt "d")) [] in
    (d, includesChar "z" (toLowerCase d))
  else if tagIs el "rect" then
    let x := getNumber el "x" in let y := getNumber el "y" in
    let w := getNumber el "width" in let h := getNumber el "height" in
    (txt "M " ++ str x ++ txt " " ++ str y ++ txt " H " ++ str (x + w)%D
       ++ txt " V " ++ str (y + h)%D ++ txt " H " ++ str x ++ txt " Z", true)
  else if tagIs el "circle" then
    let cx := getNumber el "cx" in let cy := getNumber el "cy" in let r := getNumber el "r" in
    (txt "M " ++ str (cx - r)%D ++ txt " " ++ str cy
       ++ txt " A " ++ str r ++ txt " " ++ str r ++ txt " 0 1 0 "
       ++ str (cx + r)%D ++ txt " " ++ str cy
       ++ txt " A " ++ str r ++ txt " " ++ str r ++ txt " 0 1 0 "
       ++ str (cx - r)%D ++ txt " " ++ str cy ++ txt " Z", true)
  else if tagIs el "ellipse" then
    let ecx := getNumber el "cx" in let ecy := getNumber el "cy" in
    let rx := getNumber el "rx" in let ry := getNumber el "ry" in
    (txt "M " ++ str (ecx - rx)%D ++ txt " " ++ str ecy
       ++ txt " A " ++ str rx ++ txt " " ++ str ry ++ txt " 0 1 0 "
       ++ str (ecx + rx)%D ++ txt " " ++ str ecy
       ++ txt " A " ++ str rx ++ txt " " ++ str ry ++ txt " 0 1 0 "
       ++ str (ecx - rx)%D ++ txt " " ++ str ecy ++ txt " Z", true)
  else if tagIs el "line" then
    let x1 := getNumber el "x1" in let y1 := getNumber el "y1" in
    let x2 := getNumber el "x2" in let y2 := getNumber el "y2" in
    (txt "M " ++ str x1 ++ txt " " ++ str y1 ++ txt " L " ++ str x2
       ++ txt " " ++ str y2, false)
  else if tagIs el "polyline" then
    let polylinePoints :=
      orElse (option_map trim (getAttribute el (txt "points"))) [] in
    (txt "M " ++ replaceRuns isSpace (txt " L ") polylinePoints, false)
  else if tagIs el "polygon" then
    let polygonPoints :=
      orElse (option_map trim (getAttribute el (txt "points"))) [] in
    (txt "M " ++ replaceRuns isSpace (txt " L ") polygonPoints ++ txt " Z", true)
  else ([], false).

(** ** The pipeline: svgProcessor.ts, lines 207-361 *)

(** The values fixed by the resizing logic (lines 222-254). *)
Record Canvas : Type := mkCanvas {
  scale : double;
  translateX : double;
  translateY : double;
  originX : double;
  originY : double;
  svgWidth : double;
  svgHeight : double
}.

Definition resolveCanvas (svgEl : Element) (shouldResize : bool) : Canvas :=
  let viewBox := orElse (getAttribute svgEl (txt "viewBox")) [] in
  let parts :=
    match viewBox with
    | [] => []
    | _ => map parseFloat (splitRuns isViewBoxSeparator viewBox)
    end in
  let '(originX, originY, svgWidth, svgHeight) :=
    match parts with
    | [p0; p1; p2; p3] => (p0, p1, p2, p3)
    | _ => (ofZ 0, ofZ 0, ofZ 0, ofZ 0)
    end in
  let '(svgWidth, svgHeight) :=
    if (svgWidth =? ofZ 0)%D || (svgHeight =? ofZ 0)%D
    then (parseFloat (orElse (getAttribute svgEl (txt "width")) (txt "0")),
          parseFloat (orElse (getAttribute svgEl (txt "height")) (txt "0")))
    else (svgWidth, svgHeight) in
  if shouldResize && (svgWidth >? ofZ 0)%D && (svgHeight >? ofZ 0)%D then
    let targetWidth := ofZ 720 in
    let targetHeight := ofZ 1080 in
    let scaleX := (targetWidth / svgWidth)%D in
    let scaleY := (targetHeight / svgHeight)%D in
    let scale := Math_min scaleX scaleY in
    let newWidth := (svgWidth * scale)%D in
    let newHeight := (svgHeight * scale)%D in
    mkCanvas scale ((targetWidth - newWidth) / ofZ 2)%D
             ((targetHeight - newHeight) / ofZ 2)%D
             originX originY svgWidth svgHeight
  else mkCanvas (ofZ 1) (ofZ 0) (ofZ 0) originX originY svgWidth svgHeight.

(** Lines 266-292: the rectangles that are skipped as a frame or a
    background. *)
Definition isBackgroundRect (cv : Canvas) (el : Element) : bool :=
  if tagIs el "rect" then
    let wAttr := getAttribute el (txt "width") in
    let hAttr := getAttribute el (txt "height") in
    if is100Percent wAttr && is100Percent hAttr then true
    else if (svgWidth cv >? ofZ 0)%D && (svgHeight cv >? ofZ 0)%D then
      let x := parseFloat (orElse (getAttribute el (txt "x")) (txt "0")) in
      let y := parseFloat (orElse (getAttribute el (txt "y")) (txt "0")) in
      let w := parseFloat (orElse wAttr (txt "0")) in
      let h := parseFloat (orElse hAttr (txt "0")) in
      (Math_abs (x - originX cv) <=? ofZ 1)%D &&
      (Math_abs (y - originY cv) <=? ofZ 1)%D &&
      (Math_abs (w - svgWidth cv) <=? ofZ 1)%D &&
      (Math_abs (h - svgHeight cv) <=? ofZ 1)%D
    else false
  else false.

(** Lines 300-306. *)
Definition transformPoints (shouldResize : bool) (cv : Canvas)
    (pathPoints : list Point) : list Point :=
  if shouldResize then
    map (fun p : Point =>
           let newX := ((x_of p - originX cv) * scale cv + translateX cv)%D in
           let newY := ((y_of p - originY cv) * scale cv + translateY cv)%D in
           (Num newX, Num newY))
        pathPoints
  else pathPoints.

(** Lines 311-326: one turn of the filtering loop, then the loop. *)
Definition filterStep (minDistanceSq : double) (filteredPoints : list Point)
    (currentPoint : Point) : list Point :=
  let lastPoint := at_ filteredPoints (length filteredPoints - 1) in
  let dx := (x_of currentPoint - x_of lastPoint)%D in
  let dy := (y_of currentPoint - y_of lastPoint)%D in
  if (dx * dx + dy * dy >? minDistanceSq)%D
  then filteredPoints ++ [currentPoint]
  else filteredPoints.

Definition filterPoints (minDistance : double) (simplified : list Point) : list Point :=
  if (minDistance >? ofZ 0)%D && (0 <? length simplified)%nat then
    let minDistanceSq := (minDistance * minDistance)%D in
    fold_left (filterStep minDistanceSq) (drop 1 simplified) [at_ simplified 0]
  else simplified.

(** The literal [0.1]. *)
Definition tenth : double := ofDecimal false 1 (-1).

(** Lines 330-339. *)
Definition closedFlag (isClosed : bool) (simplified : list Point) : bool :=
  if isClosed then true
  else
    let first := at_ simplified 0 in
    let last := at_ simplified (length simplified - 1) in
    (Math_abs (x_of first - x_of last) <? tenth)%D &&
    (Math_abs (y_of first - y_of last) <? tenth)%D.

(** Lines 341-349.  [p[0].toFixed(2)] throws a TypeError when the
    coordinate is [undefined]: [None]. *)
Definition fixedCoord (v : value) : option text :=
  match v with
  | Num d => Some (coordText d)
  | Undefined => None
  end.

Definition pointText (len : nat) (closed : bool) (i : nat) (p : Point) : option text :=
  match fixedCoord p.1, fixedCoord p.2 with
  | Some x, Some y =>
    let isLastPoint := (i =? len - 1)%nat in
    Some (if isLastPoint && closed
          then txt "[" ++ x ++ txt "," ++ y ++ txt ",-1]"
          else txt "[" ++ x ++ txt "," ++ y ++ txt "]")
  | _, _ => None
  end.

(** [l.map(f)] for a callback that may throw. *)
Fixpoint mapThrowing {A B : Type} (f : A -> option B) (l : list A) : option (list B) :=
  match l with
  | [] => Some []
  | a :: l' =>
    match f a with
    | None => None
    | Some b =>
      match mapThrowing f l' with
      | None => None
      | Some bs => Some (b :: bs)
      end
    end
  end.

Definition pointsText (points : list Point) (closed : bool) : option text :=
  match mapThrowing (fun ip : nat * Point => pointText (length points) closed ip.1 ip.2)
                    (imap pair points) with
  | Some lines => Some (join (txt "," ++ [LF]) lines)
  | None => None
  end.

(** What becomes of one subpath before it is written: the recursion of
    the simplification does not return, or the subpath is dropped, or
    it is kept with its final points and closed flag. *)
Inductive SubPath : Type :=
  | StackOverflow
  | Skipped
  | Kept (finalPoints : list Point) (isPathClosed : bool).

(** An exception thrown inside the executor of the promise. *)
Inductive Exception : Type :=
  | RangeError
  | TypeError.

Inductive Completion (A : Type) : Type :=
  | Normal (a : A)
  | Throw (e : Exception).

Arguments Normal {A} a.
Arguments Throw {A} e.

Section Pipeline.

Variables (epsilon : double) (shouldResize : bool) (minDistance : double).

(** The body of [subPaths.forEach] up to the closed flag.  The
    simplification is given more fuel than its input has points, which
    is enough whenever the recursion returns at all. *)
Definition processSubPath (cv : Canvas) (isClosed : bool)
    (pathPoints : list Point) : SubPath :=
  if (length pathPoints <? 2)%nat then Skipped
  else
    let transformedPoints := transformPoints shouldResize cv pathPoints in
    match ramerDouglasPeucker (S (length transformedPoints))
                              transformedPoints epsilon with
    | None => StackOverflow
    | Some simplified =>
      if (length simplified <? 2)%nat then Skipped
      else
        let finalPoints := filterPoints minDistance simplified in
        if (length finalPoints <? 2)%nat then Skipped
        else Kept finalPoints (closedFlag isClosed simplified)
    end.

(** The strings pushed to [allShapesCoords] for a list of subpaths, or
    the first exception. *)
Fixpoint subPathsCoords (cv : Canvas) (isClosed : bool)
    (subPaths : list (list Point)) : Completion (list text) :=
  match subPaths with
  | [] => Normal []
  | pathPoints :: rest =>
    match processSubPath cv isClosed pathPoints with
    | StackOverflow => Throw RangeError
    | Skipped => subPathsCoords cv isClosed rest
    | Kept finalPoints isPathClosed =>
      match pointsText finalPoints isPathClosed with
      | None => Throw TypeError
      | Some coordsStr =>
        match subPathsCoords cv isClosed rest with
        | Throw e => Throw e
        | Normal coords => Normal (coordsStr :: coords)
        end
      end
    end
  end.

(** The body of [elements.forEach]. *)
Definition elementCoords (cv : Canvas) (el : Element) : Completion (list text) :=
  if isBackgroundRect cv el then Normal []
  else
    let '(d, isClosed) := shapeToPath el in
    subPathsCoords cv isClosed (parsePathData d).

Fixpoint elementsCoords (cv : Canvas) (elements : list Element)
    : Completion (list text) :=
  match elements with
  | [] => Normal []
  | el :: rest =>
    match elementCoords cv el with
    | Throw e => Throw e
    | Normal coords =>
      match elementsCoords cv rest with
      | Throw e => Throw e
      | Normal more => Normal (coords ++ more)
      end
    end
  end.

(** How the promise settles: resolved with the coordinate text, rejected
    with an [Error] carrying a message, or rejected with an exception
    thrown inside the executor. *)
Inductive Outcome : Type :=
  | Resolve (coordinates : text)
  | Reject (message : text)
  | RejectThrown (e : Exception).

Definition processSVG (nodes : list Element) : Outcome :=
  if hasParserError nodes then Reject (txt "Failed to parse SVG file.")
  else
    match nodes with
    | [] => Reject (txt "Invalid SVG file: missing root <svg> element.")
    | svgEl :: _ =>
      let cv := resolveCanvas svgEl shouldResize in
      let elements := filter (fun el => isShapeElement el = true) nodes in
      if (length elements =? 0)%nat then Reject noValidShapes
      else
        match elementsCoords cv elements with
        | Throw e => RejectThrown e
        | Normal allShapesCoords =>
          if (length allShapesCoords =? 0)%nat then Reject noCoordinates
          else Resolve (join [LF; LF] allShapesCoords)
        end
    end.

End Pipeline.

(** ** Notions used in the statements *)

(** The test of the filtering loop: the squared distance from [p] to
    [q], computed in doubles, exceeds the square of [minDistance],
    computed in doubles. *)
Definition fartherThan (minDistance : double) (p q : Point) : bool :=
  let dx := (x_of q - x_of p)%D in
  let dy := (y_of q - y_of p)%D in
  (dx * dx + dy * dy >? minDistance * minDistance)%D.

(** The test of the closure heuristic: on both axes the absolute value
    of the difference, computed in doubles, is below the double [0.1]. *)
Definition nearlyEqual (p q : Point) : bool :=
  (Math_abs (x_of p - x_of q) <? tenth)%D &&
  (Math_abs (y_of p - y_of q) <? tenth)%D.

(** The test of the frame rule: [Math.abs(a - b) <= 1]. *)
Definition within1 (a b : double) : bool := (Math_abs (a - b) <=? ofZ 1)%D.

(** The frame rule of the code on a rectangle: its width and height
    attributes are both [100%], or a coordinate space was resolved and
    its [x], [y], [width] and [height] are each within one unit of the
    origin and of the size of the coordinate space. *)
Definition frameRule (cv : Canvas) (el : Element) : bool :=
  is100Percent (getAttribute el (txt "width"))
    && is100Percent (getAttribute el (txt "height"))
  || (svgWidth cv >? ofZ 0)%D && (svgHeight cv >? ofZ 0)%D
     && within1 (getNumber el "x") (originX cv)
     && within1 (getNumber el "y") (originY cv)
     && within1 (getNumber el "width") (svgWidth cv)
     && within1 (getNumber el "height") (svgHeight cv).

(** The frame rule as the specification words it, to be compared with
    [frameRule]: the four edges [x], [y], [x + width] and [y + height]
    are each within one unit of the origin and of the extent of the
    coordinate space. *)
Definition specFrameRule (cv : Canvas) (el : Element) : bool :=
  is100Percent (getAttribute el (txt "width"))
    && is100Percent (getAttribute el (txt "height"))
  || (svgWidth cv >? ofZ 0)%D && (svgHeight cv >? ofZ 0)%D
     && within1 (getNumber el "x") (originX cv)
     && within1 (getNumber el "y") (originY cv)
     && within1 (getNumber el "x" + getNumber el "width")%D
                (originX cv + svgWidth cv)%D
     && within1 (getNumber el "y" + getNumber el "height")%D
                (originY cv + svgHeight cv)%D.

(** A number that a template literal writes in plain decimal notation:
    digits with an optional sign and point, without exponent, and
    neither NaN nor an infinity. *)
Definition plainNumber (x : double) : Prop :=
  numToString x <> [] /\ Forall (fun c => isArgChar c = true) (numToString x).

(** The number that [parseFloat] reads from the text of [x]. *)
Definition readBack (x : double) : value := Num (parseFloat (numToString x)).

(** A point whose coordinates are both finite numbers, and its exact
    coordinates. *)
Definition finitePoint (p : Point) : bool :=
  match p with
  | (Num x, Num y) => isFiniteDouble x && isFiniteDouble y
  | _ => false
  end.

Definition exactX (p : Point) : Q := toQ (x_of p).
Definition exactY (p : Point) : Q := toQ (y_of p).

(** The exact squared Euclidean distance between two finite points. *)
Definition exactSqDistance (p q : Point) : Q :=
  (exactX q - exactX p) * (exactX q - exactX p)
  + (exactY q - exactY p) * (exactY q - exactY p).

(** Finite points that lie, exactly, on one line [a x + b y + c = 0]. *)
Definition collinearPoints (points : list Point) : Prop :=
  Forall (fun p => finitePoint p = true) points
  /\ exists a b c : Q,
       ~ (a == 0 /\ b == 0)
       /\ Forall (fun p => a * exactX p + b * exactY p + c == 0) points.

(** The point written as two decimal literals. *)
Definition point (x y : string) : Point :=
  (Num (parseFloat (txt x)), Num (parseFloat (txt y))).

End Double.
(** * Properties *)

(** ** Booleans of the arithmetic *)

Lemma Qlt_bool_iff (x y : Q) : Qlt_bool x y = true <-> x < y.
Proof.
  unfold Qlt_bool. rewrite negb_true_iff.
  split.
  - intros H. apply Qnot_le_lt. intros Hle. apply Qle_bool_iff in Hle. congruence.
  - intros H. destruct (Qle_bool y x) eqn:E; [|reflexivity].
    apply Qle_bool_iff in E. exfalso. exact (Qlt_not_le _ _ H E).
Qed.

Lemma Qlt_bool_false (x y : Q) : Qlt_bool x y = false <-> y <= x.
Proof.
  unfold Qlt_bool. rewrite negb_false_iff. apply Qle_bool_iff.
Qed.

Lemma nlt_Fin (x y : Q) : (Fin x <? Fin y)%num = true <-> x < y.
Proof. apply Qlt_bool_iff. Qed.

Lemma ngt_Fin (x y : Q) : (Fin x >? Fin y)%num = true <-> y < x.
Proof. apply Qlt_bool_iff. Qed.

(** ** Simplification *)

Section Simplification.

Variable sqrtQ : Q -> Q.

Local Abbreviation rdp := (ramerDouglasPeucker sqrtQ).

(** The loop leaves [index] at 0 with [dmax] at 0, or at an interior
    position. *)
Lemma farthestStep_index points end_ (acc : num * nat) i :
  (1 <= i < end_)%nat ->
  (acc.2 = 0%nat /\ acc.1 = nZ 0) \/ (1 <= acc.2 < end_)%nat ->
  ((farthestStep sqrtQ points end_ acc i).2 = 0%nat
   /\ (farthestStep sqrtQ points end_ acc i).1 = nZ 0)
  \/ (1 <= (farthestStep sqrtQ points end_ acc i).2 < end_)%nat.
Proof.
  intros Hi Hinv. unfold farthestStep.
  destruct (ngt _ _); [right; exact Hi | exact Hinv].
Qed.

Lemma farthest_fold_index points end_ (l : list nat) (acc : num * nat) :
  Forall (fun i => (1 <= i < end_)%nat) l ->
  (acc.2 = 0%nat /\ acc.1 = nZ 0) \/ (1 <= acc.2 < end_)%nat ->
  ((fold_left (farthestStep sqrtQ points end_) l acc).2 = 0%nat
   /\ (fold_left (farthestStep sqrtQ points end_) l acc).1 = nZ 0)
  \/ (1 <= (fold_left (farthestStep sqrtQ points end_) l acc).2 < end_)%nat.
Proof.
  revert acc. induction l as [|i l IH]; intros acc Hl Hinv; simpl.
  - exact Hinv.
  - inversion Hl as [|? ? Hi Hl']; subst.
    apply IH; [assumption|]. apply farthestStep_index; assumption.
Qed.

Lemma farthest_index points end_ :
  ((farthest sqrtQ points end_).2 = 0%nat /\ (farthest sqrtQ points end_).1 = nZ 0)
  \/ (1 <= (farthest sqrtQ points end_).2 < end_)%nat.
Proof.
  unfold farthest. apply farthest_fold_index.
  - apply Forall_forall. intros i Hi. apply list_elem_of_In, in_seq in Hi. lia.
  - left. split; reflexivity.
Qed.

Lemma slice_from_0 {A : Type} (l : list A) (j : nat) : slice l 0 j = take j l.
Proof. unfold slice. rewrite Nat.sub_0_r. reflexivity. Qed.

Lemma slice_to_length {A : Type} (l : list A) (i : nat) :
  slice l i (length l) = drop i l.
Proof.
  unfold slice. apply take_ge. rewrite length_drop. lia.
Qed.

Lemma last_drop_lt {A : Type} (l : list A) (i : nat) :
  (i < length l)%nat -> last (drop i l) = last l.
Proof.
  intros Hi. rewrite <- (take_drop i l) at 2. rewrite last_app.
  destruct (last (drop i l)) eqn:E; [reflexivity|].
  apply last_None in E. apply (f_equal length) in E.
  rewrite length_drop in E. simpl in E. lia.
Qed.

Lemma head_split {A : Type} (l : list A) (i : nat) :
  head l = match head (take i l) with
           | Some y => Some y
           | None => head (drop i l)
           end.
Proof. rewrite <- (take_drop i l) at 1. apply head_app. Qed.

Lemma at_lookup (l : list Point) (i : nat) (p : Point) :
  l !! i = Some p -> at_ l i = p.
Proof. intros H. unfold at_. apply nth_lookup_Some. exact H. Qed.

Lemma at_last (l : list Point) (p : Point) :
  at_ (l ++ [p]) (length (l ++ [p]) - 1) = p.
Proof.
  apply at_lookup. rewrite length_app. simpl.
  replace (length l + 1 - 1)%nat with (length l) by lia.
  apply list_lookup_middle. reflexivity.
Qed.

(** The collapse to the two end points is a subsequence. *)
Lemma ends_sublist (l : list Point) :
  (2 <= length l)%nat ->
  [at_ l 0; at_ l (length l - 1)] `sublist_of` l
  /\ head l = Some (at_ l 0) /\ last l = Some (at_ l (length l - 1)).
Proof.
  intros Hlen. destruct l as [|p0 tl]; [simpl in Hlen; lia|].
  destruct (last tl) as [pl|] eqn:Elast.
  - apply last_Some in Elast as [mid ->].
    change (p0 :: mid ++ [pl]) with ((p0 :: mid) ++ [pl]).
    rewrite at_last. split; [|split].
    + simpl. apply sublist_skip. apply sublist_inserts_l. reflexivity.
    + reflexivity.
    + apply last_snoc.
  - apply last_None in Elast. subst. simpl in Hlen. lia.
Qed.

(** Whenever the recursion returns, it returns a subsequence of its
    input with the same first and last point. *)
Lemma rdp_sound fuel : forall points epsilon r,
  rdp fuel points epsilon = Some r ->
  r `sublist_of` points /\ head r = head points /\ last r = last points.
Proof.
  induction fuel as [|fuel IH]; intros points epsilon r Hr; simpl in Hr.
  - discriminate.
  - destruct (length points <? 3)%nat eqn:Elen.
    + inversion Hr; subst. split; [reflexivity|split; reflexivity].
    + apply Nat.ltb_ge in Elen.
      pose proof (farthest_index points (length points - 1)) as Hidx.
      destruct (farthest sqrtQ points (length points - 1)) as [dmax index].
      simpl in Hidx.
      destruct (ngt dmax epsilon).
      * assert (Hi : (index < length points)%nat) by lia.
        destruct (rdp fuel (slice points 0 (index + 1)) epsilon) as [r1|] eqn:E1;
          [|discriminate].
        destruct (rdp fuel (slice points index (length points)) epsilon) as [r2|] eqn:E2;
          [|discriminate].
        inversion Hr; subst r; clear Hr.
        apply IH in E1 as (S1 & H1 & L1). apply IH in E2 as (S2 & H2 & L2).
        rewrite slice_from_0 in *. rewrite slice_to_length in *.
        destruct (lookup_lt_is_Some_2 points index Hi) as [x Hx].
        replace (index + 1)%nat with (S index) in * by lia.
        rewrite (take_S_r _ _ _ Hx) in *.
        rewrite last_snoc in L1. apply last_Some in L1 as [r1' ->].
        rewrite length_app. simpl.
        replace (length r1' + 1 - 1)%nat with (length r1') by lia.
        rewrite take_app_length.
        apply sublist_app_inv_r in S1.
        rewrite (last_drop_lt _ _ Hi) in L2.
        assert (Hd : head (drop index points) = Some x).
        { rewrite head_lookup, lookup_drop. rewrite Nat.add_0_r. exact Hx. }
        rewrite Hd in H2.
        split; [|split].
        -- rewrite <- (take_drop index points). apply sublist_app; assumption.
        -- rewrite (head_split points index), head_app.
           destruct r1' as [|a r1']; simpl in *.
           ++ rewrite head_snoc in H1.
              destruct (head (take index points)); congruence.
           ++ rewrite head_snoc in H1.
              destruct (head (take index points)); congruence.
        -- rewrite last_app, L2.
           destruct (last points) eqn:El; [reflexivity|].
           apply last_None in El. subst. simpl in Hi. lia.
      * inversion Hr; subst r; clear Hr.
        destruct (ends_sublist points) as (S & H & L); [lia|].
        split; [exact S|]. rewrite H, L. split; reflexivity.
Qed.

(** A split at index 0 hands the whole input to the second recursive
    call: the recursion never returns. *)
Lemma rdp_stuck points epsilon :
  (3 <= length points)%nat ->
  (farthest sqrtQ points (length points - 1)).2 = 0%nat ->
  ((farthest sqrtQ points (length points - 1)).1 >? epsilon)%num = true ->
  forall fuel, rdp fuel points epsilon = None.
Proof.
  intros Hlen Hidx Hgt fuel. induction fuel as [|fuel IH]; [reflexivity|].
  simpl. apply Nat.ltb_ge in Hlen. rewrite Hlen.
  destruct (farthest sqrtQ points (length points - 1)) as [dmax index].
  simpl in Hidx, Hgt. subst index. rewrite Hgt.
  rewrite slice_to_length. change (drop 0 points) with points. rewrite IH.
  destruct (rdp fuel (slice points 0 (0 + 1)) epsilon); reflexivity.
Qed.

(** With an [epsilon] that is not negative every split is at an interior
    point, and the recursion returns within as many nested calls as the
    input has points. *)
Lemma rdp_returns fuel : forall points epsilon,
  (epsilon <? nZ 0)%num = false ->
  (length points < fuel)%nat ->
  exists r, rdp fuel points epsilon = Some r.
Proof.
  induction fuel as [|fuel IH]; intros points epsilon Heps Hfuel; [lia|].
  simpl. destruct (length points <? 3)%nat eqn:Elen; [eauto|].
  apply Nat.ltb_ge in Elen.
  pose proof (farthest_index points (length points - 1)) as Hidx.
  destruct (farthest sqrtQ points (length points - 1)) as [dmax index].
  simpl in Hidx.
  destruct (ngt dmax epsilon) eqn:Hgt; [|eauto].
  destruct Hidx as [[-> ->]|Hidx].
  { unfold ngt in Hgt. congruence. }
  destruct (IH (slice points 0 (index + 1)) epsilon Heps) as [r1 ->].
  { rewrite slice_from_0, length_take. lia. }
  destruct (IH (slice points index (length points)) epsilon Heps) as [r2 ->].
  { rewrite slice_to_length, length_drop. lia. }
  eauto.
Qed.

(** A result obtained with some fuel is obtained with any fuel above the
    length of the input: the bound used by the pipeline loses nothing. *)
Lemma rdp_fuel_enough fuel : forall points epsilon r,
  rdp fuel points epsilon = Some r ->
  forall fuel', (length points < fuel')%nat -> rdp fuel' points epsilon = Some r.
Proof.
  induction fuel as [|fuel IH]; intros points epsilon r Hr fuel' Hfuel;
    [discriminate|].
  destruct fuel' as [|fuel']; [lia|].
  pose proof (rdp_stuck points epsilon) as Hstuck.
  simpl in Hr |- *.
  destruct (length points <? 3)%nat eqn:Elen; [exact Hr|].
  apply Nat.ltb_ge in Elen.
  pose proof (farthest_index points (length points - 1)) as Hidx.
  destruct (farthest sqrtQ points (length points - 1)) as [dmax index].
  simpl in Hidx, Hstuck.
  destruct (ngt dmax epsilon) eqn:Hgt; [|exact Hr].
  destruct (rdp fuel (slice points 0 (index + 1)) epsilon) as [r1|] eqn:E1;
    [|discriminate].
  destruct (rdp fuel (slice points index (length points)) epsilon) as [r2|] eqn:E2;
    [|discriminate].
  destruct Hidx as [[-> _]|Hidx].
  { rewrite slice_to_length in E2. change (drop 0 points) with points in E2.
    rewrite (Hstuck Elen eq_refl eq_refl fuel) in E2. discriminate. }
  rewrite (IH _ _ _ E1), (IH _ _ _ E2); [exact Hr| |].
  - rewrite slice_to_length, length_drop. lia.
  - rewrite slice_from_0, length_take. lia.
Qed.

End Simplification.

(** C1, as amended: for every list of points and every [epsilon] that is
    not negative, the simplification returns (within as many nested
    calls as the list has points) a subsequence of its input whose first
    and last elements are the first and last input points.  This holds
    for any square root function. *)
Theorem simplification_subsequence (sqrtQ : Q -> Q) (points : list Point)
    (epsilon : num) (fuel : nat) :
  (epsilon <? nZ 0)%num = false ->
  (length points < fuel)%nat ->
  exists r,
    ramerDouglasPeucker sqrtQ fuel points epsilon = Some r
    /\ r `sublist_of` points
    /\ head r = head points
    /\ last r = last points.
Proof.
  intros Heps Hfuel.
  destruct (rdp_returns sqrtQ fuel points epsilon Heps Hfuel) as [r Hr].
  exists r. split; [exact Hr|]. exact (rdp_sound sqrtQ fuel _ _ _ Hr).
Qed.

Lemma simplification_subsequence_witness :
  exists r,
    ramerDouglasPeucker sqrt_floor 6
      [(nZ 0, nZ 0); (nZ 1, nZ 5); (nZ 2, nZ 0); (nZ 3, nZ 7); (nZ 9, nZ 9)] (nZ 1)
    = Some r
    /\ r `sublist_of` [(nZ 0, nZ 0); (nZ 1, nZ 5); (nZ 2, nZ 0); (nZ 3, nZ 7); (nZ 9, nZ 9)]
    /\ head r = Some (nZ 0, nZ 0)
    /\ last r = Some (nZ 9, nZ 9).
Proof.
  apply (simplification_subsequence sqrt_floor
           [(nZ 0, nZ 0); (nZ 1, nZ 5); (nZ 2, nZ 0); (nZ 3, nZ 7); (nZ 9, nZ 9)]
           (nZ 1) 6).
  - reflexivity.
  - simpl. lia.
Defined.

(** C1 as stated fails for a negative [epsilon]: on three collinear
    points the loop leaves [index] at 0, the test [dmax > epsilon]
    passes, and the second recursive call receives the whole input
    again; no amount of fuel yields a result. *)
Lemma simplification_negative_epsilon_diverges :
  ~ exists fuel r,
      ramerDouglasPeucker sqrt_floor fuel
        [(nZ 0, nZ 0); (nZ 1, nZ 0); (nZ 2, nZ 0)] (nZ (-1)) = Some r
      /\ r `sublist_of` [(nZ 0, nZ 0); (nZ 1, nZ 0); (nZ 2, nZ 0)].
Proof.
  intros (fuel & r & Hr & _).
  rewrite rdp_stuck in Hr; [discriminate| | |].
  - simpl. lia.
  - vm_compute. reflexivity.
  - vm_compute. reflexivity.
Qed.

(** ** Filtering of close points *)

Lemma at_last_lookup (l : list Point) (p : Point) :
  last l = Some p -> at_ l (length l - 1) = p.
Proof.
  intros H. apply last_Some in H as [l' ->]. apply at_last.
Qed.

Lemma filterStep_spec (minDistance : num) (filtered : list Point) (c lastPoint : Point) :
  last filtered = Some lastPoint ->
  filterStep (minDistance * minDistance)%num filtered c =
    if fartherThan minDistance lastPoint c then filtered ++ [c] else filtered.
Proof.
  intros Hlast. unfold filterStep, fartherThan.
  rewrite (at_last_lookup _ _ Hlast). reflexivity.
Qed.

(** The loop keeps the first point first and only ever appends a point
    that is far enough from the last one kept. *)
Lemma filter_fold_spec (minDistance : num) (rest : list Point) :
  forall filtered first,
    head filtered = Some first ->
    (forall i p q, filtered !! i = Some p -> filtered !! S i = Some q ->
                   fartherThan minDistance p q = true) ->
    let out := fold_left (filterStep (minDistance * minDistance)%num) rest filtered in
    head out = Some first
    /\ (forall i p q, out !! i = Some p -> out !! S i = Some q ->
                      fartherThan minDistance p q = true).
Proof.
  induction rest as [|c rest IH]; intros filtered first Hhead Hpairs; simpl.
  - split; assumption.
  - destruct (last filtered) as [lastPoint|] eqn:Hlast.
    2:{ apply last_None in Hlast. subst. discriminate. }
    rewrite (filterStep_spec _ _ _ _ Hlast).
    destruct (fartherThan minDistance lastPoint c) eqn:Hfar.
    + apply IH.
      * rewrite head_snoc, Hhead. reflexivity.
      * intros i p q Hp Hq.
        destruct (decide (S i < length filtered)%nat) as [Hlt|Hge].
        -- rewrite lookup_app_l in Hp by lia. rewrite lookup_app_l in Hq by lia.
           eauto.
        -- assert (Hi : S i = length filtered).
           { apply lookup_lt_Some in Hq. rewrite length_app in Hq. simpl in Hq. lia. }
           rewrite lookup_app_l in Hp by lia.
           rewrite Hi, list_lookup_middle in Hq by reflexivity.
           rewrite last_lookup in Hlast.
           replace (Init.Nat.pred (length filtered)) with i in Hlast by lia.
           congruence.
    + apply IH; assumption.
Qed.


(** ** Booleans of the equality on rationals *)

Lemma Qeq_bool_false (x y : Q) : Qeq_bool x y = false <-> ~ x == y.
Proof.
  split.
  - intros H E. apply Qeq_bool_iff in E. congruence.
  - intros H. destruct (Qeq_bool x y) eqn:E; [|reflexivity].
    apply Qeq_bool_iff in E. contradiction.
Qed.

(** ** Path commands *)

Lemma closepath_cursor (st : PathState) :
  st_x (closepath st) = st_x st /\ st_y (closepath st) = st_y st
  /\ st_startX (closepath st) = st_startX st
  /\ st_startY (closepath st) = st_startY st.
Proof.
  unfold closepath. destruct (nonEmpty (st_currentPath st)); simpl; auto.
Qed.

(** C10: a close-path command appends the start point of the subpath and
    emits the subpath, and leaves the cursor where it was; the relative
    command that follows ([l], [m], [h] or [v], here with two arguments
    [a] and [b]) is resolved from that cursor, the position reached
    before the close, and not from the start point of the subpath. *)
Theorem closepath_keeps_cursor (st : PathState) (z : ascii) (zrest argText : text)
    (a b : num) :
  toUpperCase1 z = "Z"%char ->
  map parseFloat (runs isArgChar (trim argText)) = [a; b] ->
  let closed := execCommand st (z :: zrest) in
  closed = closepath st
  /\ (st_currentPath st <> [] ->
      st_paths closed
      = st_paths st ++ [st_currentPath st ++ [(st_startX st, st_startY st)]]
      /\ st_currentPath closed = [])
  /\ st_x closed = st_x st /\ st_y closed = st_y st
  /\ st_currentPath (execCommand closed ("l"%char :: argText))
     = st_currentPath closed ++ [((st_x st + a)%num, (st_y st + b)%num)]
  /\ st_currentPath (execCommand closed ("m"%char :: argText))
     = [((st_x st + a)%num, (st_y st + b)%num)]
  /\ st_currentPath (execCommand closed ("h"%char :: argText))
     = st_currentPath closed
       ++ [((st_x st + a)%num, st_y st); ((st_x st + a + b)%num, st_y st)]
  /\ st_currentPath (execCommand closed ("v"%char :: argText))
     = st_currentPath closed
       ++ [(st_x st, (st_y st + a)%num); (st_x st, (st_y st + a + b)%num)].
Proof.
  intros Hz Hargs closed.
  assert (Hclosed : closed = closepath st).
  { unfold closed, execCommand. rewrite Hz. reflexivity. }
  destruct (closepath_cursor st) as (Hx & Hy & _ & _).
  rewrite <- Hclosed in Hx, Hy.
  split; [exact Hclosed|]. split.
  { intros Hne. rewrite Hclosed. unfold closepath.
    destruct (st_currentPath st); [congruence|]. simpl. auto. }
  split; [exact Hx|]. split; [exact Hy|].
  unfold execCommand. rewrite Hargs. simpl.
  unfold lineto, moveto, horizontal, vertical, resolve, arg. simpl.
  rewrite Hx, Hy, <- !app_assoc. simpl. auto.
Qed.

Lemma closepath_keeps_cursor_witness :
  toUpperCase1 "z" = "Z"%char
  /\ map parseFloat (runs isArgChar (trim (txt " 5 5"))) = [nZ 5; nZ 5]
  /\ st_currentPath
       (execCommand
          (execCommand (runCommands (matchCommands (txt "M 0 0 L 10 0"))) (txt "z "))
          (txt "l 5 5"))
     = [((nZ 10 + nZ 5)%num, (nZ 0 + nZ 5)%num)].
Proof.
  split; [reflexivity|]. split; [vm_compute; reflexivity|].
  pose proof (closepath_keeps_cursor
                (runCommands (matchCommands (txt "M 0 0 L 10 0")))
                "z"%char (txt " ") (txt " 5 5") (nZ 5) (nZ 5)) as H.
  destruct H as (_ & _ & _ & _ & H & _).
  - reflexivity.
  - vm_compute. reflexivity.
  - exact H.
Defined.

(** The same on a whole path description: after [z] the relative line
    goes to (10 + 5, 0 + 5), not to (0 + 5, 0 + 5). *)
Example relative_after_close :
  parsePathData (txt "M 0 0 L 10 0 z l 5 5")
  = [[(nZ 0, nZ 0); (nZ 10, nZ 0); (nZ 0, nZ 0)];
     [((nZ 10 + nZ 5)%num, (nZ 0 + nZ 5)%num)]].
Proof. vm_compute. reflexivity. Qed.

(** ** The geometry transform *)

(** With the option off the points are the very same list. *)
Lemma transform_off (cv : Canvas) (pathPoints : list Point) :
  transformPoints false cv pathPoints = pathPoints.
Proof. reflexivity. Qed.

(** No usable width and height: the scale is 1 and the offsets are 0,
    whatever the option; the origin is whatever the view box said. *)
Lemma unresolved_canvas (svgEl : Element) (shouldResize : bool) :
  let cv := resolveCanvas svgEl shouldResize in
  ((svgWidth cv >? nZ 0)%num && (svgHeight cv >? nZ 0)%num) = false ->
  scale cv = nZ 1 /\ translateX cv = nZ 0 /\ translateY cv = nZ 0.
Proof.
  unfold resolveCanvas.
  destruct (if (length _ =? 4)%nat then _ else _) as [[[ox oy] w] h].
  destruct (if ((w =? nZ 0)%num || (h =? nZ 0)%num) then _ else _) as [w' h'].
  destruct shouldResize; cbn [andb].
  - destruct (ngt w' (nZ 0) && ngt h' (nZ 0)) eqn:E;
      cbn [svgWidth svgHeight scale translateX translateY].
    + rewrite E. intros H. discriminate H.
    + auto.
  - cbn [svgWidth svgHeight scale translateX translateY]. auto.
Qed.

(** With the option on, an unresolved canvas and a zero origin, the
    transform changes no value. *)
Lemma transform_unresolved_zero_origin (cv : Canvas) (pathPoints : list Point) :
  scale cv = nZ 1 -> translateX cv = nZ 0 -> translateY cv = nZ 0 ->
  originX cv = nZ 0 -> originY cv = nZ 0 ->
  Forall2 point_eq (transformPoints true cv pathPoints) pathPoints.
Proof.
  unfold transformPoints. intros -> -> -> -> ->.
  induction pathPoints as [|[x y] l IH]; simpl; constructor; [|exact IH].
  split; simpl; [destruct x | destruct y]; simpl; trivial; ring.
Qed.

(** C9 fails on the code: with the option on and the view box
    [10 20 0 0] (and no width or height attribute) no usable width and
    height are resolved, yet the origin of the view box is still
    subtracted, so the points (10,20) and (30,40) become (0,0) and
    (20,20); the pipeline writes the shifted points. *)
Theorem unresolved_canvas_still_shifts_by_origin :
  (svgWidth (resolveCanvas (element "svg" [attr "viewBox" "10 20 0 0"]) true) >? nZ 0)%num
  = false
  /\ Forall2 point_eq
       (transformPoints true
          (resolveCanvas (element "svg" [attr "viewBox" "10 20 0 0"]) true)
          [(nZ 10, nZ 20); (nZ 30, nZ 40)])
       [(nZ 0, nZ 0); (nZ 20, nZ 20)]
  /\ processSVG sqrt_floor (nZ 1) true (nZ 0)
       [element "svg" [attr "viewBox" "10 20 0 0"];
        element "path" [attr "d" "M 10 20 L 30 40"]]
     = Resolve (txt "[0,0]," ++ [LF] ++ txt "[20,20]")
  /\ processSVG sqrt_floor (nZ 1) false (nZ 0)
       [element "svg" [attr "viewBox" "10 20 0 0"];
        element "path" [attr "d" "M 10 20 L 30 40"]]
     = Resolve (txt "[10,20]," ++ [LF] ++ txt "[30,40]").
Proof.
  split; [reflexivity|]. split.
  - repeat constructor.
  - split; vm_compute; reflexivity.
Qed.

(** ** Decimal digits *)

Lemma takeWhile_app_stop {A : Type} (p : A -> bool) (a : list A) (c : A) (r : list A) :
  Forall (fun x => p x = true) a -> p c = false ->
  takeWhile p (a ++ c :: r) = a /\ dropWhile p (a ++ c :: r) = c :: r.
Proof.
  intros Ha Hc. induction Ha as [|x a Hx _ IH]; simpl.
  - rewrite Hc. auto.
  - rewrite Hx. destruct IH as [-> ->]. auto.
Qed.

Lemma takeWhile_all {A : Type} (p : A -> bool) (a : list A) :
  Forall (fun x => p x = true) a ->
  takeWhile p a = a /\ dropWhile p a = [].
Proof.
  intros Ha. induction Ha as [|x a Hx _ IH]; simpl.
  - auto.
  - rewrite Hx. destruct IH as [-> ->]. auto.
Qed.

Lemma takeWhile_dropWhile {A : Type} (p : A -> bool) (l : list A) :
  takeWhile p l ++ dropWhile p l = l.
Proof.
  induction l as [|x l IH]; simpl; [reflexivity|].
  destruct (p x); simpl; [rewrite IH|]; reflexivity.
Qed.

Lemma takeWhile_Forall {A : Type} (p : A -> bool) (l : list A) :
  Forall (fun x => p x = true) (takeWhile p l).
Proof.
  induction l as [|x l IH]; simpl; [constructor|].
  destruct (p x) eqn:E; constructor; assumption.
Qed.

Lemma digitsVal_snoc (ds : text) (c : ascii) :
  digitsVal (ds ++ [c]) = (10 * digitsVal ds + digitVal c)%Z.
Proof. unfold digitsVal. rewrite fold_left_app. reflexivity. Qed.

Lemma digitsVal_app (a b : text) :
  digitsVal (a ++ b) = (digitsVal a * pow10 (length b) + digitsVal b)%Z.
Proof.
  induction b as [|c b IH] using rev_ind.
  - rewrite app_nil_r. unfold pow10. simpl. unfold digitsVal at 3. simpl. lia.
  - rewrite app_assoc, !digitsVal_snoc, IH, length_app. simpl.
    unfold pow10. rewrite Nat2Z.inj_add, Z.pow_add_r by lia.
    change (10 ^ Z.of_nat 1)%Z with 10%Z. ring.
Qed.

Lemma digit_roundtrip (d : Z) :
  (0 <= d < 10)%Z -> digitVal (digitChar d) = d /\ isDigit (digitChar d) = true.
Proof.
  intros Hd.
  assert (H : (d = 0 \/ d = 1 \/ d = 2 \/ d = 3 \/ d = 4 \/ d = 5 \/ d = 6
               \/ d = 7 \/ d = 8 \/ d = 9)%Z) by lia.
  repeat (destruct H as [-> | H]; [split; reflexivity | ]). subst. split; reflexivity.
Qed.

Lemma digitsAux_acc (fuel : nat) : forall n acc,
  digitsAux fuel n acc = digitsAux fuel n [] ++ acc.
Proof.
  induction fuel as [|fuel IH]; intros n acc; simpl; [reflexivity|].
  destruct (n <? 10)%Z; [reflexivity|].
  rewrite (IH _ (_ :: acc)), (IH _ [_]), <- app_assoc. reflexivity.
Qed.

(** With enough fuel the digits are digits, they spell the number, the
    last one is the number modulo ten, and there is no leading zero. *)
Lemma digitsAux_spec (fuel : nat) : forall n,
  (0 <= n < 2 ^ Z.of_nat (S fuel))%Z ->
  digitsVal (digitsAux (S fuel) n []) = n
  /\ Forall (fun c => isDigit c = true) (digitsAux (S fuel) n [])
  /\ last (digitsAux (S fuel) n []) = Some (digitChar (n mod 10))
  /\ ((0 < n)%Z -> (pow10 (length (digitsAux (S fuel) n []) - 1) <= n)%Z).
Proof.
  induction fuel as [|fuel IH]; intros n Hn;
    change (digitsAux (S ?f) n []) with
      (if (n <? 10)%Z then [digitChar n]
       else digitsAux f (n / 10) [digitChar (n mod 10)]);
    destruct (n <? 10)%Z eqn:E.
  - apply Z.ltb_lt in E. destruct (digit_roundtrip n) as [Hv Hd]; [lia|].
    rewrite Z.mod_small by lia.
    split; [|split; [|split]].
    + unfold digitsVal. simpl. rewrite Hv. reflexivity.
    + constructor; [exact Hd|constructor].
    + reflexivity.
    + intros Hpos. change (pow10 (length [digitChar n] - 1)) with 1%Z. lia.
  - apply Z.ltb_ge in E. change (2 ^ Z.of_nat 1)%Z with 2%Z in Hn. lia.
  - apply Z.ltb_lt in E. destruct (digit_roundtrip n) as [Hv Hd]; [lia|].
    rewrite Z.mod_small by lia.
    split; [|split; [|split]].
    + unfold digitsVal. simpl. rewrite Hv. reflexivity.
    + constructor; [exact Hd|constructor].
    + reflexivity.
    + intros Hpos. change (pow10 (length [digitChar n] - 1)) with 1%Z. lia.
  - apply Z.ltb_ge in E. rewrite digitsAux_acc.
    assert (Hdiv : (0 <= n / 10 < 2 ^ Z.of_nat (S fuel))%Z).
    { split; [apply Z.div_pos; lia|].
      apply Z.div_lt_upper_bound; [lia|].
      rewrite (Nat2Z.inj_succ (S fuel)), Z.pow_succ_r in Hn by lia. lia. }
    destruct (IH _ Hdiv) as (Hv & Hd & Hl & Hlead).
    set (ds := digitsAux (S fuel) (n / 10) []) in *. clearbody ds.
    destruct (digit_roundtrip (n mod 10)) as [Hv1 Hd1].
    { apply Z.mod_pos_bound. lia. }
    split; [|split; [|split]].
    + rewrite digitsVal_snoc, Hv, Hv1.
      rewrite (Z.div_mod n 10) at 3 by lia. reflexivity.
    + apply Forall_app. split; [exact Hd|]. constructor; [exact Hd1|constructor].
    + apply last_snoc.
    + intros _. rewrite length_app. simpl.
      assert (Hq : (0 < n / 10)%Z) by (apply Z.div_str_pos; lia).
      specialize (Hlead Hq).
      assert (Hlen : (1 <= length ds)%nat).
      { destruct ds; [discriminate Hl|simpl; lia]. }
      replace (length ds + 1 - 1)%nat with (S (length ds - 1)) by lia.
      unfold pow10 in *. rewrite Nat2Z.inj_succ, Z.pow_succ_r by lia.
      pose proof (Z.mul_div_le n 10). lia.
Qed.

Lemma digitsOf_spec (n : Z) :
  (0 <= n)%Z ->
  digitsVal (digitsOf n) = n
  /\ Forall (fun c => isDigit c = true) (digitsOf n)
  /\ last (digitsOf n) = Some (digitChar (n mod 10))
  /\ ((0 < n)%Z -> (pow10 (length (digitsOf n) - 1) <= n)%Z).
Proof.
  intros Hn. apply digitsAux_spec. split; [exact Hn|].
  rewrite Nat2Z.inj_succ, Z2Nat.id by apply Z.log2_nonneg.
  destruct (Z.eq_dec n 0%Z) as [-> | Hne]; [reflexivity|].
  apply Z.log2_spec. lia.
Qed.

Lemma digitsOf_nonempty (n : Z) : (0 <= n)%Z -> digitsOf n <> [].
Proof.
  intros Hn E. destruct (digitsOf_spec n Hn) as (_ & _ & Hl & _).
  rewrite E in Hl. discriminate.
Qed.

Lemma zeros_digits (k : nat) : Forall (fun c => isDigit c = true) (zeros k).
Proof. induction k; simpl; constructor; auto. Qed.

Lemma digitsVal_zeros (k : nat) (ds : text) : digitsVal (zeros k ++ ds) = digitsVal ds.
Proof.
  induction k as [|k IH]; [reflexivity|].
  simpl. unfold digitsVal in *. simpl. exact IH.
Qed.

Lemma length_zeros (k : nat) : length (zeros k) = k.
Proof. apply repeat_length. Qed.

(** The number of digits grows with the number. *)
Lemma digitsVal_bound (ds : text) :
  Forall (fun c => isDigit c = true) ds ->
  (0 <= digitsVal ds < pow10 (length ds))%Z.
Proof.
  induction ds as [|c ds IH] using rev_ind; intros Hd.
  - unfold digitsVal, pow10. simpl. lia.
  - apply Forall_app in Hd as [Hd Hc]. inversion Hc as [|? ? Hc' _]; subst.
    specialize (IH Hd). rewrite digitsVal_snoc, length_app. simpl.
    unfold pow10 in *. rewrite Nat2Z.inj_add, Z.pow_add_r by lia.
    change (10 ^ Z.of_nat 1)%Z with 10%Z.
    assert (0 <= digitVal c < 10)%Z.
    { unfold isDigit in Hc'. unfold digitVal.
      apply andb_true_iff in Hc' as [H1 H2].
      apply N.leb_le in H1, H2. lia. }
    lia.
Qed.

(** ** Plain decimal texts: reading them *)

Lemma ascii_eqb_eq (a b : ascii) : ascii_eqb a b = true <-> a = b.
Proof.
  unfold ascii_eqb, code. rewrite N.eqb_eq. split; [|congruence].
  intros H. rewrite <- (ascii_N_embedding a), <- (ascii_N_embedding b), H.
  reflexivity.
Qed.

Lemma ascii_eqb_refl (a : ascii) : ascii_eqb a a = true.
Proof. apply ascii_eqb_eq. reflexivity. Qed.

Lemma ascii_eqb_neq (a b : ascii) : ascii_eqb a b = false <-> a <> b.
Proof.
  split.
  - intros H E. apply ascii_eqb_eq in E. congruence.
  - intros H. destruct (ascii_eqb a b) eqn:E; [|reflexivity].
    apply ascii_eqb_eq in E. contradiction.
Qed.

(** A digit is none of the other characters of the format. *)
Lemma digit_not_special (c : ascii) :
  isDigit c = true ->
  isSpace c = false /\ ascii_eqb c "-" = false /\ ascii_eqb c "+" = false
  /\ ascii_eqb c "." = false /\ ascii_eqb c "[" = false.
Proof.
  unfold isDigit, isSpace, ascii_eqb. intros H.
  apply andb_true_iff in H as [H1 H2]. apply N.leb_le in H1, H2.
  change (code "-") with 45%N. change (code "+") with 43%N.
  change (code ".") with 46%N. change (code "[") with 91%N.
  repeat split.
  - apply orb_false_iff. split; [apply orb_false_iff; split|].
    + apply andb_false_iff. right. apply N.leb_gt. lia.
    + apply N.eqb_neq. lia.
    + apply N.eqb_neq. lia.
  - apply N.eqb_neq. lia.
  - apply N.eqb_neq. lia.
  - apply N.eqb_neq. lia.
  - apply N.eqb_neq. lia.
Qed.

Lemma unsignedLiteral_decimal (ip fp : text) :
  allDigits ip -> ip <> [] -> allDigits fp ->
  unsignedLiteral (ip ++ fracText fp) = Some (scale10 (decValue ip fp) 0).
Proof.
  intros Hip Hne Hfp. unfold unsignedLiteral, decValue. rewrite digitsVal_app.
  destruct fp as [|f fp'].
  - simpl fracText. rewrite !app_nil_r.
    destruct (takeWhile_all isDigit ip Hip) as [-> ->].
    destruct ip as [|i ip']; [congruence|]. reflexivity.
  - cbn [fracText].
    destruct (takeWhile_app_stop isDigit ip "."%char (f :: fp') Hip eq_refl) as [-> ->].
    rewrite ascii_eqb_refl.
    destruct (takeWhile_all isDigit (f :: fp') Hfp) as [-> ->].
    destruct ip as [|i ip']; [congruence|]. reflexivity.
Qed.

Lemma parseFloat_numberText (neg : bool) (ip fp : text) :
  allDigits ip -> ip <> [] -> allDigits fp ->
  parseFloat (numberText neg ip fp)
  = Fin (if neg then - scale10 (decValue ip fp) 0 else scale10 (decValue ip fp) 0).
Proof.
  intros Hip Hne Hfp. unfold parseFloat, numberText.
  destruct neg.
  - simpl. rewrite (unsignedLiteral_decimal ip fp Hip Hne Hfp). reflexivity.
  - destruct ip as [|i ip']; [congruence|].
    inversion Hip as [|? ? Hi Hip']; subst.
    destruct (digit_not_special i Hi) as (Hs & Hm & Hp & _).
    cbn [app trimStart dropWhile]. rewrite Hs, Hm, Hp.
    change (i :: ip' ++ fracText fp) with ((i :: ip') ++ fracText fp).
    rewrite (unsignedLiteral_decimal (i :: ip') fp Hip Hne Hfp). reflexivity.
Qed.

Lemma matchNumber_unsigned (ip fp : text) (c : ascii) (rest : text) :
  allDigits ip -> ip <> [] -> allDigits fp ->
  isDigit c = false -> ascii_eqb c "." = false ->
  match takeWhile isDigit (ip ++ fracText fp ++ c :: rest) with
  | [] => None
  | _ :: _ =>
    match dropWhile isDigit (ip ++ fracText fp ++ c :: rest) with
    | c0 :: s3 =>
      if ascii_eqb c0 "." && nonEmpty (takeWhile isDigit s3)
      then Some (takeWhile isDigit (ip ++ fracText fp ++ c :: rest) ++ [c0]
                   ++ takeWhile isDigit s3, dropWhile isDigit s3)
      else Some (takeWhile isDigit (ip ++ fracText fp ++ c :: rest),
                 dropWhile isDigit (ip ++ fracText fp ++ c :: rest))
    | [] => Some (takeWhile isDigit (ip ++ fracText fp ++ c :: rest),
                  dropWhile isDigit (ip ++ fracText fp ++ c :: rest))
    end
  end = Some (ip ++ fracText fp, c :: rest).
Proof.
  intros Hip Hne Hfp Hc Hdot.
  destruct fp as [|f fp'].
  - cbn [fracText app].
    destruct (takeWhile_app_stop isDigit ip c rest Hip Hc) as [-> ->].
    destruct ip as [|i ip']; [congruence|].
    rewrite Hdot. cbn [andb]. rewrite app_nil_r. reflexivity.
  - cbn [fracText].
    change (("."%char :: f :: fp') ++ c :: rest)
      with ("."%char :: (f :: fp') ++ c :: rest).
    destruct (takeWhile_app_stop isDigit ip "."%char ((f :: fp') ++ c :: rest) Hip eq_refl)
      as [-> ->].
    destruct ip as [|i ip']; [congruence|].
    rewrite ascii_eqb_refl.
    destruct (takeWhile_app_stop isDigit (f :: fp') c rest Hfp Hc) as [-> ->].
    reflexivity.
Qed.

Lemma matchNumber_numberText (neg : bool) (ip fp : text) (c : ascii) (rest : text) :
  allDigits ip -> ip <> [] -> allDigits fp ->
  isDigit c = false -> ascii_eqb c "." = false ->
  matchNumber (numberText neg ip fp ++ c :: rest)
  = Some (numberText neg ip fp, c :: rest).
Proof.
  intros Hip Hne Hfp Hc Hdot.
  pose proof (matchNumber_unsigned ip fp c rest Hip Hne Hfp Hc Hdot) as H.
  unfold matchNumber, numberText. rewrite <- !app_assoc.
  destruct neg.
  - cbn [txt list_ascii_of_string app]. rewrite ascii_eqb_refl.
    destruct (takeWhile isDigit (ip ++ fracText fp ++ c :: rest)); [discriminate H|].
    destruct (dropWhile isDigit (ip ++ fracText fp ++ c :: rest)) as [|c0 s3].
    + inversion H.
    + destruct (ascii_eqb c0 "." && nonEmpty (takeWhile isDigit s3));
        inversion H; subst; reflexivity.
  - cbn [app].
    destruct ip as [|i ip']; [congruence|].
    inversion Hip as [|? ? Hi _]; subst.
    destruct (digit_not_special i Hi) as (_ & Hm & _).
    cbn [app]. rewrite Hm. cbn [app] in H.
    destruct (takeWhile isDigit (i :: ip' ++ fracText fp ++ c :: rest)); [discriminate H|].
    destruct (dropWhile isDigit (i :: ip' ++ fracText fp ++ c :: rest)) as [|c0 s3].
    + inversion H.
    + destruct (ascii_eqb c0 "." && nonEmpty (takeWhile isDigit s3));
        inversion H; subst; reflexivity.
Qed.

(** ** Plain decimal texts: writing them *)

Lemma isInteger_test (v : Q) :
  Qeq_bool (inject_Z (Qfloor v)) v = true <-> isInteger v.
Proof.
  rewrite Qeq_bool_iff. split.
  - intros H. exists (Qfloor v). symmetry. exact H.
  - intros [z Hz]. rewrite (Qfloor_comp _ _ Hz), Qfloor_Z. symmetry. exact Hz.
Qed.

Lemma pow10_S (e : nat) : pow10 (S e) = (10 * pow10 e)%Z.
Proof. unfold pow10. rewrite Nat2Z.inj_succ, Z.pow_succ_r by lia. reflexivity. Qed.

Lemma pow10_pos (e : nat) : (0 < pow10 e)%Z.
Proof. unfold pow10. apply Z.pow_pos_nonneg; lia. Qed.

Lemma pow10_add (a b : nat) : pow10 (a + b) = (pow10 a * pow10 b)%Z.
Proof. unfold pow10. rewrite Nat2Z.inj_add, Z.pow_add_r by lia. reflexivity. Qed.

Lemma inject_Z_pow10_S (e : nat) :
  inject_Z (pow10 (S e)) == 10 * inject_Z (pow10 e).
Proof. rewrite pow10_S, inject_Z_mult. reflexivity. Qed.

(** The search stops at the least exponent that makes the value whole. *)
Lemma scaleToInt_spec (fuel : nat) : forall (e0 : nat) (q : Q) (e1 : nat),
  (e1 <= fuel)%nat ->
  isInteger (q * inject_Z (pow10 (e0 + e1))) ->
  (e0 <= (scaleToInt fuel e0 q).2 <= e0 + e1)%nat
  /\ inject_Z (scaleToInt fuel e0 q).1 == q * inject_Z (pow10 (scaleToInt fuel e0 q).2)
  /\ ((e0 < (scaleToInt fuel e0 q).2)%nat ->
      ~ isInteger (q * inject_Z (pow10 ((scaleToInt fuel e0 q).2 - 1)))).
Proof.
  induction fuel as [|fuel IH]; intros e0 q e1 He1 Hint.
  - assert (e1 = 0%nat) by lia. subst e1. rewrite Nat.add_0_r in Hint.
    simpl. split; [lia|]. split; [|lia].
    apply isInteger_test in Hint. apply Qeq_bool_iff in Hint. exact Hint.
  - cbn [scaleToInt].
    destruct (Qeq_bool (inject_Z (Qfloor (q * inject_Z (pow10 e0))))
                       (q * inject_Z (pow10 e0))) eqn:Etest.
    + cbn [fst snd]. split; [lia|]. split; [|lia].
      apply Qeq_bool_iff in Etest. exact Etest.
    + assert (Hnot : ~ isInteger (q * inject_Z (pow10 e0))).
      { intros H. apply isInteger_test in H. congruence. }
      destruct e1 as [|e1'].
      { rewrite Nat.add_0_r in Hint. contradiction. }
      replace (e0 + S e1')%nat with (S e0 + e1')%nat in Hint by lia.
      destruct (IH (S e0) q e1' ltac:(lia) Hint) as (Hr & Hv & Hmin).
      split; [lia|]. split; [exact Hv|].
      intros _. destruct (Nat.eq_dec (scaleToInt fuel (S e0) q).2 (S e0)) as [E|E].
      * rewrite E. replace (S e0 - 1)%nat with e0 by lia. exact Hnot.
      * apply Hmin. lia.
Qed.

Lemma stripZeros_keep (ds : text) (c : ascii) :
  last ds = Some c -> isZeroChar c = false -> stripZeros ds = ds.
Proof.
  intros Hl Hc. apply last_Some in Hl as [ds' ->].
  unfold stripZeros. rewrite rev_app_distr. simpl. rewrite Hc.
  simpl. rewrite rev_involutive. reflexivity.
Qed.

Lemma zeros_snoc (k : nat) : zeros (S k) = zeros k ++ ["0"%char].
Proof. unfold zeros. simpl. apply repeat_cons. Qed.

Lemma dropWhile_length {A : Type} (p : A -> bool) (l : list A) :
  (length (dropWhile p l) <= length l)%nat.
Proof.
  induction l as [|x l IH]; simpl; [lia|]. destruct (p x); simpl; lia.
Qed.

Lemma dropZeros_restore (r : text) :
  rev (dropWhile isZeroChar r)
    ++ zeros (length r - length (dropWhile isZeroChar r)) = rev r.
Proof.
  induction r as [|c r IH]; [reflexivity|].
  cbn [dropWhile]. destruct (isZeroChar c) eqn:E.
  - apply ascii_eqb_eq in E. subst c.
    pose proof (dropWhile_length isZeroChar r) as Hle.
    replace (length ("0"%char :: r) - length (dropWhile isZeroChar r))%nat
      with (S (length r - length (dropWhile isZeroChar r))) by (simpl; lia).
    rewrite zeros_snoc, app_assoc, IH. reflexivity.
  - rewrite Nat.sub_diag. apply app_nil_r.
Qed.

Lemma stripZeros_restore (ds : text) :
  stripZeros ds ++ zeros (length ds - length (stripZeros ds)) = ds.
Proof.
  unfold stripZeros. rewrite length_rev, <- (length_rev ds).
  rewrite dropZeros_restore. apply rev_involutive.
Qed.

Lemma digitChar_nonzero (d : Z) :
  (0 < d < 10)%Z -> isZeroChar (digitChar d) = false.
Proof.
  intros Hd.
  assert (H : (d = 1 \/ d = 2 \/ d = 3 \/ d = 4 \/ d = 5 \/ d = 6
               \/ d = 7 \/ d = 8 \/ d = 9)%Z) by lia.
  repeat (destruct H as [-> | H]; [reflexivity | ]). subst. reflexivity.
Qed.

Lemma pow10_lt_inv (a b : nat) : (pow10 a < pow10 b)%Z -> (a < b)%nat.
Proof.
  unfold pow10. intros H.
  apply Z.pow_lt_mono_r_iff in H; lia.
Qed.

Lemma stripZeros_length (ds : text) : (length (stripZeros ds) <= length ds)%nat.
Proof.
  unfold stripZeros. rewrite length_rev, <- (length_rev ds).
  apply dropWhile_length.
Qed.

(** What [renderPositive] writes for a positive value [N / 10^e] in the
    plain range, [e] being least: the digits of the integer part and the
    [e] digits of the fraction. *)
Lemma renderPositive_spec (N : Z) (e : nat) :
  (0 < N)%Z -> (e <= 6)%nat ->
  ((0 < e)%nat -> (N mod 10 <> 0)%Z) ->
  (N < pow10 (21 + e))%Z ->
  exists ip fp,
    renderPositive N e = ip ++ fracText fp
    /\ allDigits ip /\ ip <> [] /\ allDigits fp
    /\ length fp = e /\ digitsVal (ip ++ fp) = N.
Proof.
  intros HN He Hmin Hbound.
  destruct (digitsOf_spec N ltac:(lia)) as (Hv & Hd & Hl & Hlead).
  specialize (Hlead HN).
  assert (HL1 : (1 <= length (digitsOf N))%nat).
  { destruct (digitsOf N); [discriminate Hl|simpl; lia]. }
  assert (HL2 : (length (digitsOf N) <= 21 + e)%nat).
  { assert (H : (pow10 (length (digitsOf N) - 1) < pow10 (21 + e))%Z) by lia.
    apply pow10_lt_inv in H. lia. }
  unfold renderPositive.
  set (D := digitsOf N) in *. clearbody D.
  destruct e as [|e'].
  - (* a whole number *)
    pose proof (stripZeros_length D) as Hk.
    replace ((Z.of_nat (length (stripZeros D)) <=? Z.of_nat (length D) - Z.of_nat 0)
             && (Z.of_nat (length D) - Z.of_nat 0 <=? 21))%Z with true.
    2:{ symmetry. apply andb_true_iff. split; apply Z.leb_le; lia. }
    replace (Z.to_nat (Z.of_nat (length D) - Z.of_nat 0
                       - Z.of_nat (length (stripZeros D))))
      with (length D - length (stripZeros D))%nat by lia.
    rewrite stripZeros_restore.
    exists D, []. cbn [fracText]. rewrite !app_nil_r.
    split; [reflexivity|]. split; [exact Hd|].
    split; [intros E; rewrite E in HL1; simpl in HL1; lia|].
    split; [constructor|]. split; [reflexivity|exact Hv].
  - (* a fraction: the last digit is not zero *)
    assert (Hs : stripZeros D = D).
    { apply (stripZeros_keep _ _ Hl). apply digitChar_nonzero.
      pose proof (Z.mod_pos_bound N 10 ltac:(lia)). specialize (Hmin ltac:(lia)). lia. }
    rewrite Hs.
    replace ((Z.of_nat (length D) <=? Z.of_nat (length D) - Z.of_nat (S e'))
             && (Z.of_nat (length D) - Z.of_nat (S e') <=? 21))%Z with false.
    2:{ symmetry. apply andb_false_iff. left. apply Z.leb_gt. lia. }
    destruct (Nat.ltb (S e') (length D)) eqn:Elt.
    + apply Nat.ltb_lt in Elt.
      replace ((0 <? Z.of_nat (length D) - Z.of_nat (S e'))
               && (Z.of_nat (length D) - Z.of_nat (S e') <=? 21))%Z with true.
      2:{ symmetry. apply andb_true_iff. split; [apply Z.ltb_lt|apply Z.leb_le]; lia. }
      replace (Z.to_nat (Z.of_nat (length D) - Z.of_nat (S e')))
        with (length D - S e')%nat by lia.
      exists (take (length D - S e') D), (drop (length D - S e') D).
      assert (Hlen : length (drop (length D - S e') D) = S e').
      { rewrite length_drop. lia. }
      split.
      { destruct (drop (length D - S e') D); [discriminate Hlen|reflexivity]. }
      rewrite take_drop.
      split; [apply Forall_take; exact Hd|].
      split.
      { intros E. apply (f_equal length) in E. rewrite length_take in E.
        simpl in E. lia. }
      split; [apply Forall_drop; exact Hd|].
      split; [exact Hlen|exact Hv].
    + apply Nat.ltb_ge in Elt.
      replace ((0 <? Z.of_nat (length D) - Z.of_nat (S e'))
               && (Z.of_nat (length D) - Z.of_nat (S e') <=? 21))%Z with false.
      2:{ symmetry. apply andb_false_iff. left. apply Z.ltb_ge. lia. }
      replace ((-6 <? Z.of_nat (length D) - Z.of_nat (S e'))
               && (Z.of_nat (length D) - Z.of_nat (S e') <=? 0))%Z with true.
      2:{ symmetry. apply andb_true_iff. split; [apply Z.ltb_lt|apply Z.leb_le]; lia. }
      replace (Z.to_nat (- (Z.of_nat (length D) - Z.of_nat (S e'))))
        with (S e' - length D)%nat by lia.
      exists ["0"%char], (zeros (S e' - length D) ++ D).
      assert (Hlen : length (zeros (S e' - length D) ++ D) = S e').
      { rewrite length_app, length_zeros. lia. }
      split.
      { destruct (zeros (S e' - length D) ++ D); [discriminate Hlen|reflexivity]. }
      split; [repeat constructor|].
      split; [discriminate|].
      split; [apply Forall_app; split; [apply zeros_digits|exact Hd]|].
      split; [exact Hlen|].
      change (["0"%char] ++ zeros (S e' - length D) ++ D)
        with (zeros 1 ++ zeros (S e' - length D) ++ D).
      rewrite !digitsVal_zeros. exact Hv.
Qed.

Lemma Qmake_pow10 (N : Z) (e : nat) :
  N # Z.to_pos (pow10 e) == inject_Z N / inject_Z (pow10 e).
Proof.
  rewrite Qmake_Qdiv. rewrite Z2Pos.id by apply pow10_pos. reflexivity.
Qed.

Lemma inject_Z_pow10_pos (e : nat) : 0 < inject_Z (pow10 e).
Proof.
  change 0 with (inject_Z 0). rewrite <- Zlt_Qlt. apply pow10_pos.
Qed.

Lemma Qabs_nonzero_pos (q : Q) : ~ q == 0 -> 0 < Qabs q.
Proof.
  intros Hq. destruct (Qlt_le_dec 0 q) as [H|H].
  - rewrite Qabs_pos; lra.
  - rewrite Qabs_neg by exact H.
    destruct (Qlt_le_dec q 0) as [H'|H']; [lra|].
    exfalso. apply Hq. lra.
Qed.

(** The text of a non-zero number with at most six decimals and a
    magnitude below 10^21 is a plain decimal text of the same value. *)
Lemma numToString_decimal (q : Q) (e1 : nat) :
  ~ q == 0 ->
  (e1 <= Pos.size_nat (Qden q))%nat -> (e1 <= 6)%nat ->
  isInteger (Qabs q * inject_Z (pow10 e1)) ->
  Qabs q < inject_Z (10 ^ 21) ->
  exists ip fp,
    numToString (Fin q) = numberText (Qlt_bool q 0) ip fp
    /\ allDigits ip /\ ip <> [] /\ allDigits fp
    /\ decValue ip fp == Qabs q.
Proof.
  intros Hq Hfuel He1 Hint Hbound.
  unfold numToString.
  apply Qeq_bool_false in Hq as Hq0. rewrite Hq0.
  destruct (scaleToInt_spec (Pos.size_nat (Qden q)) 0 (Qabs q) e1 Hfuel Hint)
    as (He & Hv & Hmin).
  destruct (scaleToInt (Pos.size_nat (Qden q)) 0 (Qabs q)) as [N e].
  cbn [fst snd] in He, Hv, Hmin.
  assert (Habs : 0 < Qabs q).
  { apply Qabs_nonzero_pos. exact Hq. }
  pose proof (inject_Z_pow10_pos e) as Hp.
  assert (HN : (0 < N)%Z).
  { rewrite Zlt_Qlt, Hv. change (inject_Z 0) with 0. nra. }
  assert (HNb : (N < pow10 (21 + e))%Z).
  { rewrite Zlt_Qlt, Hv, pow10_add, inject_Z_mult.
    change (inject_Z (pow10 21)) with (inject_Z (10 ^ 21)). nra. }
  assert (HNm : (0 < e)%nat -> (N mod 10 <> 0)%Z).
  { intros Hpos Hmod. apply (Hmin Hpos).
    exists (N / 10)%Z.
    assert (HN10 : N = (10 * (N / 10))%Z).
    { rewrite (Z.div_mod N 10) at 1 by lia. lia. }
    destruct e as [|e']; [lia|].
    replace (S e' - 1)%nat with e' by lia.
    rewrite inject_Z_pow10_S in Hv. rewrite HN10, inject_Z_mult in Hv.
    change (inject_Z 10) with 10 in Hv. lra. }
  destruct (renderPositive_spec N e HN ltac:(lia) HNm HNb)
    as (ip & fp & Hr & Hip & Hne & Hfp & Hlen & Hval).
  exists ip, fp. rewrite Hr. unfold numberText.
  split; [reflexivity|]. split; [exact Hip|]. split; [exact Hne|].
  split; [exact Hfp|].
  unfold decValue. rewrite Hval, Hlen, Qmake_pow10, Hv. field. lra.
Qed.

(** ** Coordinates as the serialisers write them *)

Lemma hundredths_nonneg (q : Q) : (0 <= hundredths q)%Z.
Proof.
  unfold hundredths. change 0%Z with (Qfloor 0).
  apply Qfloor_resp_le. pose proof (Qabs_nonneg q). lra.
Qed.

Lemma fixedText_spec (n : Z) :
  (0 <= n)%Z ->
  exists IP FP,
    fixedText n = IP ++ fracText FP
    /\ allDigits IP /\ IP <> [] /\ allDigits FP
    /\ length FP = 2%nat /\ digitsVal (IP ++ FP) = n.
Proof.
  intros Hn. destruct (digitsOf_spec n Hn) as (Hv & Hd & Hl & _).
  unfold fixedText.
  set (m := zeros (3 - length (digitsOf n)) ++ digitsOf n).
  assert (Hm : allDigits m).
  { apply Forall_app. split; [apply zeros_digits|exact Hd]. }
  assert (Hlen : (3 <= length m)%nat).
  { unfold m. rewrite length_app, length_zeros. lia. }
  assert (Hval : digitsVal m = n).
  { unfold m. rewrite digitsVal_zeros. exact Hv. }
  clearbody m.
  exists (take (length m - 2) m), (drop (length m - 2) m).
  assert (HFP : length (drop (length m - 2) m) = 2%nat).
  { rewrite length_drop. lia. }
  split.
  { destruct (drop (length m - 2) m); [discriminate HFP|reflexivity]. }
  rewrite take_drop.
  split; [apply Forall_take; exact Hm|].
  split.
  { intros E. apply (f_equal length) in E. rewrite length_take in E. simpl in E. lia. }
  split; [apply Forall_drop; exact Hm|]. split; [exact HFP|exact Hval].
Qed.

Lemma plain_below_limit (q : Q) :
  (hundredths q < 10 ^ 23)%Z -> Qle_bool (inject_Z (10 ^ 21)) (Qabs q) = false.
Proof.
  intros Hn. destruct (Qle_bool (inject_Z (10 ^ 21)) (Qabs q)) eqn:E; [|reflexivity].
  apply Qle_bool_iff in E. exfalso.
  assert (H : (Qfloor (inject_Z (10 ^ 23)) <= hundredths q)%Z).
  { apply Qfloor_resp_le.
    change (inject_Z (10 ^ 23)) with (inject_Z (10 ^ 21) * 100). lra. }
  rewrite Qfloor_Z in H. lia.
Qed.

Lemma toFixed2_plain (q : Q) :
  (hundredths q < 10 ^ 23)%Z ->
  toFixed2 (Fin q)
  = (if Qlt_bool q 0 then txt "-" else []) ++ fixedText (hundredths q).
Proof.
  intros Hn. unfold toFixed2. rewrite (plain_below_limit q Hn). reflexivity.
Qed.

(** Reading back what [toFixed(2)] wrote gives the hundredths over 100,
    with the sign of the number. *)
Lemma parseFloat_toFixed2 (q : Q) :
  (hundredths q < 10 ^ 23)%Z ->
  parseFloat (toFixed2 (Fin q))
  = Fin (if Qlt_bool q 0 then - scale10 (hundredths q # 100) 0
         else scale10 (hundredths q # 100) 0).
Proof.
  intros Hn. rewrite (toFixed2_plain q Hn).
  destruct (fixedText_spec (hundredths q) (hundredths_nonneg q))
    as (IP & FP & -> & HIP & Hne & HFP & Hlen & Hval).
  fold (numberText (Qlt_bool q 0) IP FP).
  rewrite (parseFloat_numberText _ IP FP HIP Hne HFP).
  unfold decValue. rewrite Hval, Hlen. reflexivity.
Qed.

Lemma scale10_zero (m : Q) : scale10 m 0 == m.
Proof.
  unfold scale10. change (0 <=? 0)%Z with true. cbv iota.
  change (inject_Z (10 ^ 0)) with 1. ring.
Qed.

Lemma hundredths_value_pos (n : Z) :
  (0 < n)%Z -> 0 < scale10 (n # 100) 0.
Proof.
  intros Hn. rewrite scale10_zero. unfold Qlt. simpl. lia.
Qed.

(** The text of a coordinate: a plain decimal text whose value is the
    hundredths over 100, with a minus sign only on a negative number
    that does not round to zero. *)
Lemma coordText_spec (q : Q) :
  (hundredths q < 10 ^ 23)%Z ->
  exists neg ip fp,
    coordText (Fin q) = numberText neg ip fp
    /\ allDigits ip /\ ip <> [] /\ allDigits fp
    /\ decValue ip fp == hundredths q # 100
    /\ neg = Qlt_bool q 0 && (0 <? hundredths q)%Z.
Proof.
  intros Hn. unfold coordText. rewrite (parseFloat_toFixed2 q Hn).
  pose proof (hundredths_nonneg q) as H0.
  destruct (Z.eq_dec (hundredths q) 0%Z) as [E|E].
  - rewrite E. exists false, ["0"%char], [].
    split; [destruct (Qlt_bool q 0); reflexivity|].
    split; [repeat constructor|]. split; [discriminate|].
    split; [constructor|]. split; [reflexivity|].
    rewrite andb_false_r. reflexivity.
  - assert (Hpos : (0 < hundredths q)%Z) by lia.
    pose proof (hundredths_value_pos _ Hpos) as HX.
    pose proof (scale10_zero (hundredths q # 100)) as HXv.
    assert (Hlt : hundredths q # 100 < inject_Z (10 ^ 21)).
    { unfold Qlt. simpl. lia. }
    set (X := scale10 (hundredths q # 100) 0) in *.
    assert (Hden : Qden X = 100%positive) by reflexivity.
    assert (Hint : isInteger (X * inject_Z (pow10 2))).
    { exists (hundredths q). rewrite HXv.
      change (inject_Z (pow10 2)) with 100.
      rewrite (Qmake_Qdiv (hundredths q) 100). change (inject_Z (Zpos 100)) with 100.
      field. }
    replace (0 <? hundredths q)%Z with true by (symmetry; apply Z.ltb_lt; exact Hpos).
    rewrite andb_true_r.
    destruct (Qlt_bool q 0).
    + destruct (numToString_decimal (- X) 2) as (ip & fp & Hs & Hip & Hne & Hfp & Hval).
      * lra.
      * change (Qden (- X)) with (Qden X). rewrite Hden. simpl. lia.
      * lia.
      * destruct Hint as [z Hz]. exists z.
        rewrite Qabs_opp, Qabs_pos by lra. exact Hz.
      * rewrite Qabs_opp, Qabs_pos by lra. lra.
      * exists true, ip, fp.
        assert (Hneg : Qlt_bool (- X) 0 = true) by (apply Qlt_bool_iff; lra).
        rewrite Hneg in Hs.
        repeat split; try assumption.
        rewrite Hval, Qabs_opp, Qabs_pos by lra. exact HXv.
    + destruct (numToString_decimal X 2) as (ip & fp & Hs & Hip & Hne & Hfp & Hval).
      * lra.
      * rewrite Hden. simpl. lia.
      * lia.
      * destruct Hint as [z Hz]. exists z.
        rewrite Qabs_pos by lra. exact Hz.
      * rewrite Qabs_pos by lra. lra.
      * exists false, ip, fp.
        assert (Hneg : Qlt_bool X 0 = false) by (apply Qlt_bool_false; lra).
        rewrite Hneg in Hs.
        repeat split; try assumption.
        rewrite Hval, Qabs_pos by lra. exact HXv.
Qed.

Lemma Qfloor_unique (x : Q) (n : Z) :
  inject_Z n <= x -> x < inject_Z (n + 1) -> Qfloor x = n.
Proof.
  intros Hle Hlt.
  assert (H1 : (n <= Qfloor x)%Z).
  { rewrite <- (Qfloor_Z n). apply Qfloor_resp_le. exact Hle. }
  assert (H2 : (Qfloor x < n + 1)%Z).
  { rewrite Zlt_Qlt. apply Qle_lt_trans with x; [apply Qfloor_le|exact Hlt]. }
  lia.
Qed.

Lemma hundredths_of_value (v : Q) (n : Z) :
  Qabs v == n # 100 -> hundredths v = n.
Proof.
  intros Hv. unfold hundredths. apply Qfloor_unique.
  - rewrite Hv, (Qmake_Qdiv n 100). change (inject_Z (Zpos 100)) with 100.
    field_simplify. lra.
  - rewrite Hv, (Qmake_Qdiv n 100). change (inject_Z (Zpos 100)) with 100.
    rewrite inject_Z_plus. change (inject_Z 1) with 1. field_simplify. lra.
Qed.

(** The text depends only on the hundredths and on the sign of a number
    that does not round to zero. *)
Lemma coordText_determined (q1 q2 : Q) :
  (hundredths q1 < 10 ^ 23)%Z ->
  hundredths q2 = hundredths q1 ->
  Qlt_bool q2 0 && (0 <? hundredths q1)%Z = Qlt_bool q1 0 && (0 <? hundredths q1)%Z ->
  coordText (Fin q2) = coordText (Fin q1).
Proof.
  intros Hn Heq Hsign. unfold coordText.
  rewrite (parseFloat_toFixed2 q1 Hn), (parseFloat_toFixed2 q2) by (rewrite Heq; exact Hn).
  rewrite Heq.
  destruct (0 <? hundredths q1)%Z eqn:E.
  - rewrite !andb_true_r in Hsign. rewrite Hsign. reflexivity.
  - apply Z.ltb_ge in E. pose proof (hundredths_nonneg q1).
    assert (E0 : hundredths q1 = 0%Z) by lia. rewrite E0.
    destruct (Qlt_bool q1 0), (Qlt_bool q2 0); reflexivity.
Qed.

(** Reading a coordinate text gives a number with the same hundredths
    and the same sign. *)
Lemma coordText_reparse (q : Q) :
  (hundredths q < 10 ^ 23)%Z ->
  exists v,
    parseFloat (coordText (Fin q)) = Fin v
    /\ hundredths v = hundredths q
    /\ Qlt_bool v 0 = Qlt_bool q 0 && (0 <? hundredths q)%Z.
Proof.
  intros Hn.
  destruct (coordText_spec q Hn) as (neg & ip & fp & -> & Hip & Hne & Hfp & Hval & Hneg).
  rewrite (parseFloat_numberText neg ip fp Hip Hne Hfp).
  pose proof (scale10_zero (decValue ip fp)) as Hs.
  pose proof (hundredths_nonneg q) as H0.
  assert (Hq : 0 <= hundredths q # 100) by (unfold Qle; simpl; lia).
  set (s := scale10 (decValue ip fp) 0) in *.
  rewrite <- Hneg.
  destruct neg.
  - exists (- s). split; [reflexivity|].
    symmetry in Hneg. apply andb_true_iff in Hneg as [_ Hpos].
    apply Z.ltb_lt in Hpos.
    assert (Hq' : 0 < hundredths q # 100) by (unfold Qlt; simpl; lia).
    split.
    + apply hundredths_of_value. rewrite Qabs_opp, Qabs_pos; lra.
    + apply Qlt_bool_iff. lra.
  - exists s. split; [reflexivity|]. split.
    + apply hundredths_of_value. rewrite Qabs_pos; lra.
    + apply Qlt_bool_false. lra.
Qed.

(** Writing, reading and writing again gives the same text. *)
Lemma coordText_idempotent (c : num) :
  plainCoord c -> coordText (parseFloat (coordText c)) = coordText c.
Proof.
  destruct c as [q|]; [|contradiction]. simpl. intros Hn.
  destruct (coordText_reparse q Hn) as (v & -> & Hv & Hsign).
  apply coordText_determined; [exact Hn|exact Hv|].
  rewrite Hsign, <- andb_assoc, andb_diag. reflexivity.
Qed.

(** A coordinate text in front of a comma or a bracket is matched whole
    by the number pattern. *)
Lemma matchNumber_coordText (c : num) (stop : ascii) (rest : text) :
  plainCoord c ->
  isDigit stop = false -> ascii_eqb stop "." = false ->
  matchNumber (coordText c ++ stop :: rest) = Some (coordText c, stop :: rest).
Proof.
  destruct c as [q|]; [|contradiction]. simpl. intros Hn Hd Hdot.
  destruct (coordText_spec q Hn) as (neg & ip & fp & -> & Hip & Hne & Hfp & _).
  apply matchNumber_numberText; assumption.
Qed.

(** A coordinate text starts with a character that is not white space,
    and holds neither white space nor a bracket. *)
Lemma coordText_chars (c : num) :
  plainCoord c ->
  Forall (fun a => isDigit a = true \/ a = "-"%char \/ a = "."%char) (coordText c)
  /\ coordText c <> [].
Proof.
  destruct c as [q|]; [|contradiction]. simpl. intros Hn.
  destruct (coordText_spec q Hn) as (neg & ip & fp & -> & Hip & Hne & Hfp & _).
  unfold numberText. split.
  - apply Forall_app. split.
    { destruct neg; [|constructor].
      constructor; [right; left; reflexivity|constructor]. }
    apply Forall_app. split.
    { eapply Forall_impl; [exact Hip|]. intros a Ha. left. exact Ha. }
    destruct fp as [|f fp']; [constructor|]. cbn [fracText].
    constructor; [right; right; reflexivity|].
    eapply Forall_impl; [exact Hfp|]. intros a Ha. left. exact Ha.
  - destruct neg; [discriminate|]. destruct ip; [congruence|discriminate].
Qed.

(** ** The round trip through the coordinate text *)

Lemma coordText_solid (c : num) : plainCoord c -> solid (coordText c).
Proof.
  intros Hc. destruct (coordText_chars c Hc) as [H _].
  eapply Forall_impl; [exact H|]. intros a [Ha|[-> | ->]]; [|reflexivity|reflexivity].
  apply digit_not_special in Ha. tauto.
Qed.

Lemma dropWhile_solid_head (c : ascii) (s : text) :
  isSpace c = false -> dropWhile isSpace (c :: s) = c :: s.
Proof. intros H. simpl. rewrite H. reflexivity. Qed.

Lemma dropWhile_coordText (c : num) (r : text) :
  plainCoord c -> dropWhile isSpace (coordText c ++ r) = coordText c ++ r.
Proof.
  intros Hc. pose proof (coordText_solid c Hc) as Hs.
  destruct (coordText_chars c Hc) as [_ Hne].
  destruct (coordText c) as [|a t]; [congruence|].
  inversion Hs; subst. apply dropWhile_solid_head. assumption.
Qed.

(** The pattern matches the text of a point, whatever follows. *)
Lemma matchCoord_pointText (len : nat) (closed : bool) (i : nat) (p : Point)
    (rest : text) :
  plainPoint p ->
  matchCoord (pointText len closed i p ++ rest)
  = Some (coordText p.1, coordText p.2, (i =? len - 1)%nat && closed, rest).
Proof.
  intros [Hx Hy]. unfold pointText.
  destruct ((i =? len - 1)%nat && closed).
  - rewrite <- !app_assoc.
    change (txt "[" ++ coordText p.1 ++ txt "," ++ coordText p.2 ++ txt ",-1]" ++ rest)
      with ("["%char :: coordText p.1 ++ ","%char :: coordText p.2
              ++ ","%char :: "-"%char :: "1"%char :: "]"%char :: rest).
    cbn [matchCoord]. rewrite ascii_eqb_refl. cbn [negb].
    rewrite (dropWhile_coordText _ _ Hx).
    rewrite (matchNumber_coordText _ ","%char _ Hx eq_refl eq_refl).
    rewrite dropWhile_solid_head by reflexivity.
    rewrite ascii_eqb_refl. cbn [negb].
    rewrite (dropWhile_coordText _ _ Hy).
    rewrite (matchNumber_coordText _ ","%char _ Hy eq_refl eq_refl).
    rewrite dropWhile_solid_head by reflexivity.
    reflexivity.
  - rewrite <- !app_assoc.
    change (txt "[" ++ coordText p.1 ++ txt "," ++ coordText p.2 ++ txt "]" ++ rest)
      with ("["%char :: coordText p.1 ++ ","%char :: coordText p.2
              ++ "]"%char :: rest).
    cbn [matchCoord]. rewrite ascii_eqb_refl. cbn [negb].
    rewrite (dropWhile_coordText _ _ Hx).
    rewrite (matchNumber_coordText _ ","%char _ Hx eq_refl eq_refl).
    rewrite dropWhile_solid_head by reflexivity.
    rewrite ascii_eqb_refl. cbn [negb].
    rewrite (dropWhile_coordText _ _ Hy).
    rewrite (matchNumber_coordText _ "]"%char _ Hy eq_refl eq_refl).
    rewrite dropWhile_solid_head by reflexivity.
    reflexivity.
Qed.

Lemma scanBlock_skip (a rest : text) (cur : list Point) :
  scanBlock (length a) (a ++ rest) cur = scanBlock 0 rest cur.
Proof.
  induction a as [|c a IH]; [reflexivity|]. simpl. exact IH.
Qed.

Lemma scanBlock_nomatch (c : ascii) (s : text) (cur : list Point) :
  matchCoord (c :: s) = None ->
  scanBlock 0 (c :: s) cur = scanBlock 0 s cur.
Proof. intros H. cbn [scanBlock]. rewrite H. reflexivity. Qed.

Lemma scanBlock_match (tok rest : text) (n1 n2 : text) (sep : bool)
    (cur : list Point) :
  tok <> [] ->
  matchCoord (tok ++ rest) = Some (n1, n2, sep, rest) ->
  scanBlock 0 (tok ++ rest) cur
  = if sep
    then mkShape (cur ++ [(parseFloat n1, parseFloat n2)]) true :: scanBlock 0 rest []
    else scanBlock 0 rest (cur ++ [(parseFloat n1, parseFloat n2)]).
Proof.
  intros Hne Hm. destruct tok as [|t tok']; [congruence|].
  change ((t :: tok') ++ rest) with (t :: tok' ++ rest) in *.
  cbn [scanBlock]. rewrite Hm.
  replace (length (tok' ++ rest) - length rest)%nat with (length tok')
    by (rewrite length_app; lia).
  rewrite !scanBlock_skip. reflexivity.
Qed.

Lemma pointText_head (len : nat) (closed : bool) (i : nat) (p : Point) :
  exists r, pointText len closed i p = "["%char :: r.
Proof.
  unfold pointText. destruct ((i =? len - 1)%nat && closed); eexists; reflexivity.
Qed.

Lemma pointText_nonempty (len : nat) (closed : bool) (i : nat) (p : Point) :
  pointText len closed i p <> [].
Proof.
  destruct (pointText_head len closed i p) as [r ->]. discriminate.
Qed.

Lemma join_cons_more (sep a : text) (l : list text) :
  l <> [] -> join sep (a :: l) = a ++ sep ++ join sep l.
Proof. destruct l; [congruence|reflexivity]. Qed.

Lemma comma_line (r : text) : (txt "," ++ [LF]) ++ r = ","%char :: LF :: r.
Proof. reflexivity. Qed.

Lemma imap_nonempty {A B : Type} (f : nat -> A -> B) (l : list A) :
  l <> [] -> imap f l <> [].
Proof. destruct l; [congruence|discriminate]. Qed.

(** Scanning the lines of a shape from the point of index [k] on: the
    points read are appended to the current shape, which is pushed at
    the closing mark or at the end of the block. *)
Lemma scanBlock_points (len : nat) (closed : bool) (ps : list Point) :
  forall (k : nat) (cur : list Point),
    len = (k + length ps)%nat -> ps <> [] -> Forall plainPoint ps ->
    scanBlock 0
      (join (txt "," ++ [LF]) (imap (fun i => pointText len closed (k + i)) ps)
         ++ [LF; "]"%char])
      cur
    = [mkShape (cur ++ map roundPoint ps) closed].
Proof.
  induction ps as [|p ps IH]; intros k cur Hlen Hne Hplain; [congruence|].
  inversion Hplain as [|? ? Hp Hps]; subst.
  destruct ps as [|p2 ps'].
  - cbn [imap join].
    rewrite (scanBlock_match _ _ _ _ _ _ (pointText_nonempty _ _ _ _)
               (matchCoord_pointText _ closed _ p _ Hp)).
    replace (k + 0 =? k + length [p] - 1)%nat with true
      by (symmetry; apply Nat.eqb_eq; simpl; lia).
    cbn [andb]. destruct closed.
    + reflexivity.
    + rewrite scanBlock_nomatch by reflexivity.
      rewrite scanBlock_nomatch by reflexivity.
      cbn [scanBlock]. rewrite length_app. cbn [length].
      replace (0 <? length cur + 1)%nat with true
        by (symmetry; apply Nat.ltb_lt; lia).
      reflexivity.
  - rewrite imap_cons, join_cons_more by (apply imap_nonempty; discriminate).
    change (imap ((fun i => pointText (k + length (p :: p2 :: ps')) closed (k + i)) ∘ S)
                 (p2 :: ps'))
      with (imap (fun i => pointText (k + length (p :: p2 :: ps')) closed (k + S i))
                 (p2 :: ps')).
    rewrite (imap_ext _ (fun i => pointText (k + length (p :: p2 :: ps')) closed (S k + i)))
      by (intros i x _; f_equal; lia).
    rewrite <- app_assoc, <- (app_assoc (txt "," ++ [LF])), comma_line.
    rewrite (scanBlock_match _ _ _ _ _ _ (pointText_nonempty _ _ _ _)
               (matchCoord_pointText _ closed _ p _ Hp)).
    replace (k + 0 =? k + length (p :: p2 :: ps') - 1)%nat with false
      by (symmetry; apply Nat.eqb_neq; simpl; lia).
    cbn [andb].
    rewrite scanBlock_nomatch by reflexivity.
    rewrite scanBlock_nomatch by reflexivity.
    change (map roundPoint (p :: p2 :: ps'))
      with ([roundPoint p] ++ map roundPoint (p2 :: ps')).
    rewrite app_assoc.
    apply (IH (S k) (cur ++ [roundPoint p])); [simpl; lia | discriminate | exact Hps].
Qed.

Lemma pointsText_head (pts : list Point) (closed : bool) :
  pts <> [] -> exists r, pointsText pts closed = "["%char :: r.
Proof.
  intros Hne. unfold pointsText. destruct pts as [|p pts]; [congruence|].
  rewrite imap_cons.
  destruct (pointText_head (length (p :: pts)) closed 0 p) as [r Hr].
  destruct (imap _ pts) as [|l ls].
  - exists r. exact Hr.
  - rewrite join_cons_more by discriminate. rewrite Hr. eexists. reflexivity.
Qed.

Lemma shapeText_form (shape : Shape) :
  points shape <> [] ->
  shapeText shape
  = "["%char :: LF :: pointsText (points shape) (isClosed shape) ++ [LF; "]"%char].
Proof.
  intros Hne. unfold shapeText.
  destruct (points shape) as [|p pts] eqn:E; [congruence|].
  cbn [length Nat.eqb].
  destruct (pointsText_head (p :: pts) (isClosed shape)) as [r Hr]; [discriminate|].
  rewrite Hr. reflexivity.
Qed.

Lemma shapeText_empty (shape : Shape) : points shape = [] -> shapeText shape = [].
Proof. intros E. unfold shapeText. rewrite E. reflexivity. Qed.

(** The block of a shape is scanned back into the shape, with its
    coordinates as they were written. *)
Lemma scanBlock_shapeText (shape : Shape) :
  points shape <> [] -> Forall plainPoint (points shape) ->
  scanBlock 0 (shapeText shape) [] = [roundShape shape].
Proof.
  intros Hne Hplain. rewrite (shapeText_form shape Hne).
  destruct (pointsText_head (points shape) (isClosed shape) Hne) as [r Hr].
  rewrite scanBlock_nomatch by (rewrite Hr; reflexivity).
  rewrite scanBlock_nomatch by reflexivity.
  unfold pointsText.
  apply (scanBlock_points (length (points shape)) (isClosed shape) (points shape) 0 []);
    [reflexivity | exact Hne | exact Hplain].
Qed.

(** *** The characters of a block *)

Lemma solid_app (a b : text) : solid a -> solid b -> solid (a ++ b).
Proof. intros Ha Hb. apply Forall_app. split; assumption. Qed.

Lemma pointText_solid (len : nat) (closed : bool) (i : nat) (p : Point) :
  plainPoint p -> solid (pointText len closed i p).
Proof.
  intros [Hx Hy]. unfold pointText.
  destruct ((i =? len - 1)%nat && closed);
    repeat apply solid_app;
    try (apply coordText_solid; assumption);
    repeat constructor.
Qed.

Lemma noBlankLine_solid_app (a b : text) :
  solid a -> noBlankLine b -> noBlankLine (a ++ b).
Proof.
  intros Ha Hb. induction Ha as [|c a Hc _ IH]; [exact Hb|].
  cbn [app noBlankLine]. split; [|exact IH].
  intros ->. discriminate Hc.
Qed.

Lemma noCR_solid_app (a b : text) :
  solid a -> Forall (fun c => c <> CR) b -> Forall (fun c => c <> CR) (a ++ b).
Proof.
  intros Ha Hb. apply Forall_app. split; [|exact Hb].
  eapply Forall_impl; [exact Ha|]. intros c Hc ->. discriminate Hc.
Qed.

(** The lines of a shape followed by the closing line: no blank line, no
    carriage return, and a first character that is not white space. *)
Lemma lines_chars (lines : list text) :
  lines <> [] -> Forall (fun l => solid l /\ l <> []) lines ->
  noBlankLine (join (txt "," ++ [LF]) lines ++ [LF; "]"%char])
  /\ Forall (fun c => c <> CR) (join (txt "," ++ [LF]) lines ++ [LF; "]"%char])
  /\ exists c r, join (txt "," ++ [LF]) lines ++ [LF; "]"%char] = c :: r
                 /\ isSpace c = false.
Proof.
  induction lines as [|l lines IH]; intros Hne Hall; [congruence|].
  inversion Hall as [|? ? [Hl Hlne] Hrest]; subst.
  destruct lines as [|l2 lines'].
  - cbn [join]. split; [|split].
    + apply noBlankLine_solid_app; [exact Hl|]. cbn. repeat split; discriminate.
    + apply noCR_solid_app; [exact Hl|]. repeat constructor; discriminate.
    + destruct l as [|c r]; [congruence|]. inversion Hl; subst.
      exists c, (r ++ [LF; "]"%char]). split; [reflexivity|assumption].
  - rewrite join_cons_more by discriminate.
    rewrite <- app_assoc, <- (app_assoc (txt "," ++ [LF])), comma_line.
    destruct (IH ltac:(discriminate) Hrest) as (Hnb & Hcr & c & r & Hcr' & Hc).
    split; [|split].
    + apply noBlankLine_solid_app; [exact Hl|].
      cbn [noBlankLine]. split; [discriminate|]. split; [|exact Hnb].
      intros _. rewrite Hcr'. exact Hc.
    + apply noCR_solid_app; [exact Hl|].
      constructor; [discriminate|]. constructor; [discriminate|]. exact Hcr.
    + destruct l as [|c0 r0]; [congruence|]. inversion Hl; subst.
      eexists c0, _. split; [reflexivity|assumption].
Qed.

Lemma last_two_more {A : Type} (a b c d : A) (x : list A) :
  last (a :: b :: x ++ [c; d]) = Some d.
Proof.
  replace (a :: b :: x ++ [c; d]) with ((a :: b :: x ++ [c]) ++ [d])
    by (simpl; rewrite <- app_assoc; reflexivity).
  apply last_snoc.
Qed.

Lemma shapeText_chars (shape : Shape) :
  points shape <> [] -> Forall plainPoint (points shape) ->
  noBlankLine (shapeText shape)
  /\ Forall (fun c => c <> CR) (shapeText shape)
  /\ (exists r, shapeText shape = "["%char :: r)
  /\ last (shapeText shape) = Some "]"%char.
Proof.
  intros Hne Hplain. rewrite (shapeText_form shape Hne). unfold pointsText.
  destruct (lines_chars (imap (pointText (length (points shape)) (isClosed shape))
                              (points shape)))
    as (Hnb & Hcr & c & r & Hc & Hsp).
  - apply imap_nonempty. exact Hne.
  - apply Forall_forall. intros l Hl.
    apply elem_of_lookup_imap in Hl as (i & p & -> & Hp).
    split; [|apply pointText_nonempty].
    apply pointText_solid.
    eapply Forall_forall; [exact Hplain|]. eapply list_elem_of_lookup_2. exact Hp.
  - split; [|split; [|split]].
    + cbn [noBlankLine]. split; [discriminate|]. split; [|exact Hnb].
      intros _. rewrite Hc. exact Hsp.
    + constructor; [discriminate|]. constructor; [discriminate|]. exact Hcr.
    + eexists. reflexivity.
    + apply last_two_more.
Qed.

(** *** Line endings, trimming and blocks *)

Lemma normalizeLineEndings_noCR (s : text) :
  Forall (fun c => c <> CR) s -> normalizeLineEndings s = s.
Proof.
  induction s as [|c s IH]; intros H; [reflexivity|].
  inversion H as [|? ? Hc Hs]; subst.
  cbn [normalizeLineEndings]. destruct s as [|c' s']; [reflexivity|].
  apply ascii_eqb_neq in Hc. rewrite Hc. cbn [andb].
  rewrite (IH Hs). reflexivity.
Qed.

Lemma trim_solid_ends (c d : ascii) (r : text) :
  isSpace c = false -> last (c :: r) = Some d -> isSpace d = false ->
  trim (c :: r) = c :: r.
Proof.
  intros Hc Hl Hd. unfold trim, trimStart, trimEnd.
  rewrite dropWhile_solid_head by exact Hc.
  apply last_Some in Hl as [l' Hl']. rewrite Hl', rev_app_distr.
  cbn [rev app]. rewrite dropWhile_solid_head by exact Hd.
  change (d :: rev l') with (rev [d] ++ rev l').
  rewrite <- rev_app_distr, rev_involutive. reflexivity.
Qed.

(** A text without blank line stays in the block it starts. *)
Lemma splitBlocks_prefix (b : text) :
  noBlankLine b ->
  forall X hd tl,
    splitBlocksFrom 0 X = hd :: tl ->
    splitBlocksFrom 0 (b ++ X) = (b ++ hd) :: tl.
Proof.
  induction b as [|c b IH]; intros Hb X hd tl HX; [exact HX|].
  destruct Hb as [Hc Hb]. cbn [app splitBlocksFrom].
  assert (Htest : ascii_eqb c LF
                  && (0 <? throughLastLF (takeWhile isSpace (b ++ X)))%nat = false).
  { destruct (ascii_eqb c LF) eqn:E; [|reflexivity].
    apply ascii_eqb_eq in E. specialize (Hc E).
    destruct b as [|c' b']; [contradiction|].
    cbn [app takeWhile]. rewrite Hc. reflexivity. }
  rewrite Htest, (IH Hb X hd tl HX). reflexivity.
Qed.

Lemma splitBlocks_separator (c : ascii) (r : text) :
  isSpace c = false ->
  splitBlocksFrom 0 (LF :: LF :: c :: r) = [] :: splitBlocksFrom 0 (c :: r).
Proof.
  intros Hc. cbn [splitBlocksFrom]. rewrite ascii_eqb_refl.
  change (takeWhile isSpace (LF :: c :: r)) with (LF :: takeWhile isSpace (c :: r)).
  cbn [takeWhile]. rewrite Hc. reflexivity.
Qed.

(** Blocks without blank lines, joined by one blank line, are split back
    into themselves. *)
Lemma splitBlocks_join (blocks : list text) :
  blocks <> [] ->
  Forall (fun b => noBlankLine b /\ exists c r, b = c :: r /\ isSpace c = false) blocks ->
  splitBlocks (join [LF; LF] blocks) = blocks.
Proof.
  unfold splitBlocks.
  induction blocks as [|b blocks IH]; intros Hne Hall; [congruence|].
  pose proof (Forall_inv Hall) as [Hb _].
  pose proof (Forall_inv_tail Hall) as Hrest.
  destruct blocks as [|b2 blocks'].
  - cbn [join]. rewrite <- (app_nil_r b) at 1.
    rewrite (splitBlocks_prefix b Hb [] [] []) by reflexivity.
    rewrite app_nil_r. reflexivity.
  - rewrite join_cons_more by discriminate.
    specialize (IH ltac:(discriminate) Hrest).
    assert (Hj : exists c r', join [LF; LF] (b2 :: blocks') = c :: r'
                              /\ isSpace c = false).
    { apply Forall_inv in Hrest. destruct Hrest as [_ (c & r & Hb2 & Hc)].
      exists c. destruct blocks' as [|b3 blocks''].
      - exists r. split; [exact Hb2|exact Hc].
      - rewrite join_cons_more by discriminate. rewrite Hb2.
        eexists. split; [reflexivity|exact Hc]. }
    destruct Hj as (c & r' & Hr' & Hc).
    rewrite (splitBlocks_prefix b Hb _ []
               (splitBlocksFrom 0 (join [LF; LF] (b2 :: blocks')))).
    + f_equal; [apply app_nil_r | exact IH].
    + rewrite Hr'. apply splitBlocks_separator. exact Hc.
Qed.

Lemma join_head (sep : text) (b : text) (blocks : list text) (c : ascii) (r : text) :
  b = c :: r -> exists r', join sep (b :: blocks) = c :: r'.
Proof.
  intros ->. destruct blocks; [eexists; reflexivity|].
  rewrite join_cons_more by discriminate. eexists. reflexivity.
Qed.

Lemma join_last (sep : text) (blocks : list text) (d : ascii) :
  blocks <> [] -> Forall (fun b => last b = Some d) blocks ->
  last (join sep blocks) = Some d.
Proof.
  induction blocks as [|b blocks IH]; intros Hne Hall; [congruence|].
  pose proof (Forall_inv Hall) as Hb. pose proof (Forall_inv_tail Hall) as Hrest.
  destruct blocks as [|b2 blocks']; [exact Hb|].
  rewrite join_cons_more by discriminate.
  rewrite app_assoc, last_app, (IH ltac:(discriminate) Hrest). reflexivity.
Qed.

Lemma join_noCR (blocks : list text) :
  Forall (fun b => Forall (fun c => c <> CR) b) blocks ->
  Forall (fun c => c <> CR) (join [LF; LF] blocks).
Proof.
  induction blocks as [|b blocks IH]; intros Hall; [constructor|].
  pose proof (Forall_inv Hall) as Hb. pose proof (Forall_inv_tail Hall) as Hrest.
  destruct blocks as [|b2 blocks']; [exact Hb|].
  rewrite join_cons_more by discriminate.
  apply Forall_app. split; [exact Hb|].
  constructor; [discriminate|]. constructor; [discriminate|]. exact (IH Hrest).
Qed.

(** What the loop over the blocks collects from the blocks of shapes. *)
Lemma scan_shape_blocks (shapes : list Shape) :
  Forall (fun shape => points shape <> [] /\ Forall plainPoint (points shape)) shapes ->
  concat (map (fun block => match trim block with
                            | [] => []
                            | _ => scanBlock 0 block []
                            end)
              (map shapeText shapes))
  = map roundShape shapes.
Proof.
  induction 1 as [|shape shapes [Hne Hplain] _ IH]; [reflexivity|].
  cbn [map concat]. rewrite IH.
  destruct (shapeText_chars shape Hne Hplain) as (_ & _ & [r Hr] & Hl).
  rewrite Hr in Hl |- *.
  rewrite (trim_solid_ends "["%char "]"%char r eq_refl Hl eq_refl).
  rewrite <- Hr, (scanBlock_shapeText shape Hne Hplain). reflexivity.
Qed.

(** The deserialiser reads the text of shapes that have points back
    into those shapes, coordinates rounded as written. *)
Lemma deserialize_shape_blocks (shapes : list Shape) :
  Forall (fun shape => points shape <> [] /\ Forall plainPoint (points shape)) shapes ->
  deserialize (join [LF; LF] (map shapeText shapes)) = map roundShape shapes.
Proof.
  intros Hall. destruct shapes as [|shape shapes]; [reflexivity|].
  assert (Hchars : Forall (fun b =>
            noBlankLine b /\ Forall (fun c => c <> CR) b
            /\ (exists r, b = "["%char :: r) /\ last b = Some "]"%char)
            (map shapeText (shape :: shapes))).
  { apply Forall_fmap. eapply Forall_impl; [exact Hall|].
    intros sh [Hne Hplain]. apply shapeText_chars; assumption. }
  set (blocks := map shapeText (shape :: shapes)) in *.
  assert (Hbne : blocks <> []) by discriminate.
  assert (Hhead : exists r, join [LF; LF] blocks = "["%char :: r).
  { unfold blocks. cbn [map].
    pose proof (Forall_inv Hchars) as (_ & _ & [r Hr] & _).
    cbn [map] in Hr. eapply join_head. exact Hr. }
  assert (Hlast : last (join [LF; LF] blocks) = Some "]"%char).
  { apply join_last; [exact Hbne|].
    eapply Forall_impl; [exact Hchars|]. intros b (_ & _ & _ & H). exact H. }
  assert (Hcr : Forall (fun c => c <> CR) (join [LF; LF] blocks)).
  { apply join_noCR. eapply Forall_impl; [exact Hchars|].
    intros b (_ & H & _). exact H. }
  assert (Hsplit : splitBlocks (join [LF; LF] blocks) = blocks).
  { apply splitBlocks_join; [exact Hbne|].
    eapply Forall_impl; [exact Hchars|].
    intros b (Hnb & _ & [r Hr] & _). split; [exact Hnb|].
    exists "["%char, r. split; [exact Hr|reflexivity]. }
  unfold deserialize.
  rewrite (normalizeLineEndings_noCR _ Hcr).
  destruct Hhead as [r Hr]. rewrite Hr in Hlast.
  assert (Htrim : trim (join [LF; LF] blocks) = join [LF; LF] blocks).
  { rewrite Hr. apply (trim_solid_ends "["%char "]"%char r eq_refl Hlast eq_refl). }
  rewrite Htrim, Hsplit. rewrite Hr at 1.
  apply scan_shape_blocks. exact Hall.
Qed.

Lemma shapeText_nonEmpty (shape : Shape) :
  nonEmpty (shapeText shape) = nonEmpty (points shape).
Proof.
  destruct (points shape) as [|p pts] eqn:E.
  - rewrite (shapeText_empty shape E). reflexivity.
  - rewrite shapeText_form by congruence. reflexivity.
Qed.

(** The blocks that [shapesToString] joins are the texts of the shapes
    that have points. *)
Lemma shapesToString_blocks (shapes : list Shape) :
  shapesToString shapes
  = join [LF; LF]
      (map shapeText (filter (fun shape => nonEmpty (points shape) = true) shapes)).
Proof.
  unfold shapesToString. f_equal.
  induction shapes as [|shape shapes IH]; [reflexivity|].
  cbn [map]. rewrite !filter_cons, shapeText_nonEmpty.
  destruct (decide (nonEmpty (points shape) = true)); cbn [map];
    [f_equal|]; exact IH.
Qed.

Lemma plain_shapes_with_points (shapes : list Shape) :
  plainDocument shapes ->
  Forall (fun shape => points shape <> [] /\ Forall plainPoint (points shape))
         (filter (fun shape => nonEmpty (points shape) = true) shapes).
Proof.
  intros Hplain. apply Forall_forall. intros shape Hin.
  apply list_elem_of_filter in Hin as [Hne Hin]. split.
  - intros E. rewrite E in Hne. discriminate.
  - eapply Forall_forall in Hplain; [exact Hplain|exact Hin].
Qed.

(** The text of a shape does not change when its coordinates are
    replaced by what the deserialiser reads from it. *)
Lemma shapeText_roundShape (shape : Shape) :
  Forall plainPoint (points shape) ->
  shapeText (roundShape shape) = shapeText shape.
Proof.
  intros Hplain. unfold shapeText, roundShape, pointsText. cbn [points isClosed].
  rewrite length_map, imap_fmap.
  rewrite (imap_ext _ (pointText (length (points shape)) (isClosed shape)));
    [reflexivity|].
  intros i p Hp. unfold compose, pointText, roundPoint. cbn [fst snd].
  assert (Hpl : plainPoint p).
  { eapply Forall_forall; [exact Hplain|]. eapply list_elem_of_lookup_2. exact Hp. }
  destruct Hpl as [Hx Hy].
  rewrite (coordText_idempotent _ Hx), (coordText_idempotent _ Hy). reflexivity.
Qed.

(** What the deserialiser makes of a serialised document: the shapes
    that have points, with coordinates rounded as written. *)
Lemma deserialize_shapesToString (shapes : list Shape) :
  plainDocument shapes ->
  deserialize (shapesToString shapes)
  = map roundShape (filter (fun shape => nonEmpty (points shape) = true) shapes).
Proof.
  intros Hplain. rewrite shapesToString_blocks.
  apply deserialize_shape_blocks. apply plain_shapes_with_points. exact Hplain.
Qed.

(** C5, as amended: for every document whose coordinates are numbers
    that round, to two decimals, to a magnitude below 10^21, the text
    that [shapesToString] produces is reproduced byte for byte by
    deserialising it and serialising the result with [shapesToString]. *)
Theorem serializer_round_trip (shapes : list Shape) :
  plainDocument shapes ->
  shapesToString (deserialize (shapesToString shapes)) = shapesToString shapes.
Proof.
  intros Hplain. rewrite (deserialize_shapesToString shapes Hplain).
  rewrite (shapesToString_blocks shapes), shapesToString_blocks.
  f_equal.
  pose proof (plain_shapes_with_points shapes Hplain) as Hall.
  induction Hall as [|shape rest [Hne Hpl] _ IH]; [reflexivity|].
  cbn [map]. rewrite filter_cons.
  destruct (decide (nonEmpty (points (roundShape shape)) = true)) as [_|Hn].
  - cbn [map]. rewrite IH, (shapeText_roundShape shape Hpl). reflexivity.
  - exfalso. apply Hn. unfold roundShape. cbn [points].
    destruct (points shape); [congruence|reflexivity].
Qed.

Lemma serializer_round_trip_witness :
  shapesToString
    (deserialize
       (shapesToString
          [mkShape [(nZ 10, nZ 10); (Fin (181 # 2), Fin (1 # 3)); (nZ 90, nZ (-1))] true;
           mkShape [] false;
           mkShape [(Fin (- (1 # 1000)), nZ 0)] false]))
  = shapesToString
      [mkShape [(nZ 10, nZ 10); (Fin (181 # 2), Fin (1 # 3)); (nZ 90, nZ (-1))] true;
       mkShape [] false;
       mkShape [(Fin (- (1 # 1000)), nZ 0)] false].
Proof.
  apply (serializer_round_trip
           [mkShape [(nZ 10, nZ 10); (Fin (181 # 2), Fin (1 # 3)); (nZ 90, nZ (-1))] true;
            mkShape [] false;
            mkShape [(Fin (- (1 # 1000)), nZ 0)] false]).
  unfold plainDocument, plainPoint, plainCoord.
  repeat constructor; vm_compute; reflexivity.
Defined.

(** C5 as stated fails in two ways.  The text that the pipeline itself
    writes has no enclosing brackets, and [shapesToString] adds them
    when the deserialised document is written again.  And a coordinate
    of 10^21 is written in exponent notation, [1e+21], which the
    pattern of the deserialiser does not match, so the point is lost. *)
Lemma round_trip_changes_text :
  processSVG sqrt_floor (nZ 10) false (Fin (1 # 2))
    [element "svg" [attr "width" "100"; attr "height" "100"];
     element "line" [attr "x1" "10"; attr "y1" "10"; attr "x2" "90"; attr "y2" "10"]]
  = Resolve (txt "[10,10]," ++ [LF] ++ txt "[90,10]")
  /\ shapesToString (deserialize (txt "[10,10]," ++ [LF] ++ txt "[90,10]"))
     = txt "[" ++ [LF] ++ (txt "[10,10]," ++ [LF] ++ txt "[90,10]") ++ [LF] ++ txt "]"
  /\ shapesToString [mkShape [(Fin (inject_Z (10 ^ 21)), nZ 0)] false]
     = txt "[" ++ [LF] ++ txt "[1e+21,0]" ++ [LF] ++ txt "]"
  /\ shapesToString
       (deserialize (shapesToString [mkShape [(Fin (inject_Z (10 ^ 21)), nZ 0)] false]))
     = [].
Proof. repeat split; vm_compute; reflexivity. Qed.

(** ** The deserialiser on arbitrary text *)

(** *** What the matcher accepts is a token *)

(** Equal concatenations, up to bracketing and empty pieces. *)
Ltac app_normal :=
  repeat (rewrite <- ?app_assoc, ?app_nil_r; cbn [app txt list_ascii_of_string]);
  reflexivity.

Lemma matchNumber_sound (s n rest : text) :
  matchNumber s = Some (n, rest) -> s = n ++ rest /\ numberLang n.
Proof.
  unfold matchNumber.
  assert (Hgen : forall (sign s1 : text),
    opt (lit "-") sign ->
    match takeWhile isDigit s1 with
    | [] => None
    | _ :: _ =>
      match dropWhile isDigit s1 with
      | c :: s3 =>
        if ascii_eqb c "." && nonEmpty (takeWhile isDigit s3)
        then Some (sign ++ takeWhile isDigit s1 ++ [c] ++ takeWhile isDigit s3,
                   dropWhile isDigit s3)
        else Some (sign ++ takeWhile isDigit s1, dropWhile isDigit s1)
      | [] => Some (sign ++ takeWhile isDigit s1, dropWhile isDigit s1)
      end
    end = Some (n, rest) ->
    sign ++ s1 = n ++ rest /\ numberLang n).
  { intros sign s1 Hsign H.
    pose proof (takeWhile_dropWhile isDigit s1) as Hsplit.
    pose proof (takeWhile_Forall isDigit s1) as Hdig.
    destruct (takeWhile isDigit s1) as [|d ds] eqn:Eip; [discriminate|].
    assert (Hplus : plus isDigit (d :: ds)) by (split; [discriminate|exact Hdig]).
    destruct (dropWhile isDigit s1) as [|c s3] eqn:Es2.
    - injection H as <- <-. split.
      + rewrite <- Hsplit. app_normal.
      + exists sign, (d :: ds). split; [reflexivity|]. split; [exact Hsign|].
        exists (d :: ds), []. split; [rewrite app_nil_r; reflexivity|].
        split; [exact Hplus|left; reflexivity].
    - destruct (ascii_eqb c "." && nonEmpty (takeWhile isDigit s3)) eqn:Edot.
      + apply andb_true_iff in Edot as [Ec Hfp]. apply ascii_eqb_eq in Ec. subst c.
        injection H as <- <-. split.
        * rewrite <- Hsplit, <- (takeWhile_dropWhile isDigit s3) at 1.
          app_normal.
        * exists sign, ((d :: ds) ++ ["."%char] ++ takeWhile isDigit s3).
          split; [reflexivity|]. split; [exact Hsign|].
          exists (d :: ds), (["."%char] ++ takeWhile isDigit s3).
          split; [reflexivity|]. split; [exact Hplus|]. right.
          exists ["."%char], (takeWhile isDigit s3).
          split; [reflexivity|]. split; [reflexivity|]. split.
          -- intros E. rewrite E in Hfp. discriminate.
          -- apply takeWhile_Forall.
      + injection H as <- <-. split.
        * rewrite <- Hsplit. app_normal.
        * exists sign, (d :: ds). split; [reflexivity|]. split; [exact Hsign|].
          exists (d :: ds), []. split; [rewrite app_nil_r; reflexivity|].
          split; [exact Hplus|left; reflexivity]. }
  destruct s as [|c s'].
  - intros H. apply (Hgen [] []); [left; reflexivity|exact H].
  - destruct (ascii_eqb c "-") eqn:Ec.
    + apply ascii_eqb_eq in Ec. subst c.
      intros H. apply (Hgen ["-"%char] s'); [right; reflexivity|exact H].
    + intros H. apply (Hgen [] (c :: s')); [left; reflexivity|exact H].
Qed.

Lemma dropWhile_space_split (s : text) :
  exists ws, s = ws ++ dropWhile isSpace s /\ star isSpace ws.
Proof.
  exists (takeWhile isSpace s). split.
  - symmetry. apply takeWhile_dropWhile.
  - apply takeWhile_Forall.
Qed.

Lemma cat_intro (P Q : lang) (a b : text) : P a -> Q b -> cat P Q (a ++ b).
Proof. intros Ha Hb. exists a, b. auto. Qed.

(** A successful match consumes a token. *)
Lemma matchCoord_sound (s n1 n2 : text) (sep : bool) (rest : text) :
  matchCoord s = Some (n1, n2, sep, rest) ->
  exists tok, s = tok ++ rest /\ coordToken tok.
Proof.
  unfold matchCoord. destruct s as [|c0 s1]; [discriminate|].
  destruct (ascii_eqb c0 "[") eqn:E0; [|discriminate]. cbn [negb].
  apply ascii_eqb_eq in E0. subst c0.
  destruct (dropWhile_space_split s1) as (ws1 & Hs1 & Hws1).
  destruct (matchNumber (dropWhile isSpace s1)) as [[m1 s2]|] eqn:Em1; [|discriminate].
  apply matchNumber_sound in Em1 as [Hs1' Hm1].
  destruct (dropWhile_space_split s2) as (ws2 & Hs2 & Hws2).
  destruct (dropWhile isSpace s2) as [|c1 s3] eqn:Ed2; [discriminate|].
  destruct (ascii_eqb c1 ",") eqn:E1; [|discriminate]. cbn [negb].
  apply ascii_eqb_eq in E1. subst c1.
  destruct (dropWhile_space_split s3) as (ws3 & Hs3 & Hws3).
  destruct (matchNumber (dropWhile isSpace s3)) as [[m2 s4]|] eqn:Em2; [|discriminate].
  apply matchNumber_sound in Em2 as [Hs3' Hm2].
  destruct (dropWhile_space_split s4) as (ws4 & Hs4 & Hws4).
  destruct (dropWhile isSpace s4) as [|c2 s5] eqn:Ed4; [discriminate|].
  assert (Hprefix : forall closing r,
            s5 = closing ++ r ->
            "["%char :: s1
            = (txt "[" ++ ws1 ++ m1 ++ ws2 ++ txt "," ++ ws3 ++ m2 ++ ws4
                 ++ [c2] ++ closing) ++ r).
  { intros closing r Hr. rewrite Hs1, Hs1', Hs2, Hs3, Hs3', Hs4, Hr.
    app_normal. }
  destruct (ascii_eqb c2 "]") eqn:E2.
  - apply ascii_eqb_eq in E2. subst c2. intros H. injection H as _ _ _ <-.
    eexists. split; [apply (Hprefix [] s5); reflexivity|].
    rewrite app_nil_r, <- ?app_assoc.
    do 8 (apply cat_intro; [assumption || reflexivity|]).
    change ["]"%char] with ([] ++ txt "]").
    apply cat_intro; [left; reflexivity|reflexivity].
  - destruct (ascii_eqb c2 ",") eqn:E3; [|discriminate].
    apply ascii_eqb_eq in E3. subst c2.
    destruct (dropWhile_space_split s5) as (ws5 & Hs5 & Hws5).
    destruct (dropWhile isSpace s5) as [|c3 [|c4 s6]] eqn:Ed5; try discriminate.
    destruct (ascii_eqb c3 "-" && ascii_eqb c4 "1") eqn:E4; [|discriminate].
    apply andb_true_iff in E4 as [E4 E5].
    apply ascii_eqb_eq in E4, E5. subst c3 c4.
    destruct (dropWhile_space_split s6) as (ws6 & Hs6 & Hws6).
    destruct (dropWhile isSpace s6) as [|c5 s7] eqn:Ed6; [discriminate|].
    destruct (ascii_eqb c5 "]") eqn:E6; [|discriminate].
    apply ascii_eqb_eq in E6. subst c5. intros H. injection H as _ _ _ <-.
    eexists. split.
    + apply (Hprefix (ws5 ++ txt "-1" ++ ws6 ++ txt "]") s7).
      rewrite Hs5, Hs6. app_normal.
    + rewrite <- ?app_assoc.
      do 8 (apply cat_intro; [assumption || reflexivity|]).
      replace ([","%char] ++ ws5 ++ txt "-1" ++ ws6 ++ txt "]")
        with ((txt "," ++ ws5 ++ txt "-1" ++ ws6) ++ txt "]") by app_normal.
      apply cat_intro; [|reflexivity]. right.
      do 3 (apply cat_intro; [assumption || reflexivity|]).
      exact Hws6.
Qed.

(** *** Tokens and line endings *)

Lemma normalizeLineEndings_expands (s : text) :
  expands (normalizeLineEndings s) s
  /\ forall c, expands (normalizeLineEndings (c :: s)) (c :: s).
Proof.
  induction s as [|c' s IH].
  - split; [constructor|]. intros c. cbn. repeat constructor.
  - destruct IH as [IH0 IH1]. split; [apply IH1|].
    intros c. cbn [normalizeLineEndings].
    destruct (ascii_eqb c CR && ascii_eqb c' LF) eqn:E.
    + apply andb_true_iff in E as [Ec Ec'].
      apply ascii_eqb_eq in Ec, Ec'. subst. constructor. exact IH0.
    + constructor. apply IH1.
Qed.

Lemma expands_app (a : text) : forall b s,
  expands (a ++ b) s ->
  exists sa sb, s = sa ++ sb /\ expands a sa /\ expands b sb.
Proof.
  induction a as [|c a IH]; intros b s H.
  - exists [], s. split; [reflexivity|]. split; [constructor|exact H].
  - cbn [app] in H. inversion H as [|? ? s' H'|? s' H']; subst.
    + destruct (IH _ _ H') as (sa & sb & -> & Ha & Hb).
      exists (c :: sa), sb. split; [reflexivity|]. split; [constructor|]; assumption.
    + destruct (IH _ _ H') as (sa & sb & -> & Ha & Hb).
      exists (CR :: LF :: sa), sb. split; [reflexivity|].
      split; [constructor|]; assumption.
Qed.

Lemma expands_noLF (n s : text) :
  expands n s -> Forall (fun c => c <> LF) n -> s = n.
Proof.
  induction 1 as [|c n s _ IH|n s _ IH]; intros Hn.
  - reflexivity.
  - inversion Hn; subst. rewrite IH by assumption. reflexivity.
  - inversion Hn; subst. congruence.
Qed.

(** A language that line-ending expansion does not leave. *)
Local Abbreviation stable P := (forall t t' : text, P t -> expands t t' -> P t').

Lemma stable_lit (s : string) :
  Forall (fun c => c <> LF) (txt s) -> stable (lit s).
Proof.
  intros Hs t t' Ht He. unfold lit in *. subst t.
  apply (expands_noLF _ _ He Hs).
Qed.

Lemma stable_star_space : stable (star isSpace).
Proof.
  intros t t' Ht He. unfold star in *.
  induction He as [|c n s _ IH|n s _ IH].
  - constructor.
  - inversion Ht; subst. constructor; [assumption|apply IH; assumption].
  - inversion Ht; subst.
    constructor; [reflexivity|]. constructor; [reflexivity|]. apply IH. assumption.
Qed.

Lemma stable_plus_digit : stable (plus isDigit).
Proof.
  intros t t' [Hne Ht] He.
  assert (E : t' = t).
  { apply (expands_noLF _ _ He).
    eapply Forall_impl; [exact Ht|]. intros c Hc ->. discriminate Hc. }
  subst t'. split; assumption.
Qed.

Lemma stable_cat (P Q : lang) : stable P -> stable Q -> stable (cat P Q).
Proof.
  intros HP HQ t t' (a & b & -> & Ha & Hb) He.
  destruct (expands_app _ _ _ He) as (sa & sb & -> & Hea & Heb).
  exists sa, sb. split; [reflexivity|]. split; [eapply HP|eapply HQ]; eassumption.
Qed.

Lemma stable_opt (P : lang) : stable P -> stable (opt P).
Proof.
  intros HP t t' [-> | Ht] He.
  - inversion He. left. reflexivity.
  - right. eapply HP; eassumption.
Qed.

Lemma stable_number : stable numberLang.
Proof.
  unfold numberLang.
  apply stable_cat; [apply stable_opt, stable_lit; repeat constructor; discriminate|].
  apply stable_cat; [apply stable_plus_digit|].
  apply stable_opt, stable_cat; [|apply stable_plus_digit].
  apply stable_lit. repeat constructor; discriminate.
Qed.

Lemma stable_lit_char (s : string) :
  Forall (fun c => c <> LF) (txt s) -> forall Q : lang,
  stable Q -> stable (cat (lit s) Q).
Proof. intros Hs Q HQ. apply stable_cat; [apply stable_lit; exact Hs|exact HQ]. Qed.

Lemma stable_closingMark : stable closingMark.
Proof.
  unfold closingMark.
  apply stable_lit_char; [repeat constructor; discriminate|].
  apply (stable_cat (star isSpace)); [apply stable_star_space|].
  apply stable_lit_char; [repeat constructor; discriminate|].
  apply stable_star_space.
Qed.

Lemma stable_coordToken : stable coordToken.
Proof.
  unfold coordToken.
  apply stable_lit_char; [repeat constructor; discriminate|].
  apply (stable_cat (star isSpace)); [apply stable_star_space|].
  apply (stable_cat numberLang); [apply stable_number|].
  apply (stable_cat (star isSpace)); [apply stable_star_space|].
  apply stable_lit_char; [repeat constructor; discriminate|].
  apply (stable_cat (star isSpace)); [apply stable_star_space|].
  apply (stable_cat numberLang); [apply stable_number|].
  apply (stable_cat (star isSpace)); [apply stable_star_space|].
  apply (stable_cat (opt closingMark)).
  - apply stable_opt, stable_closingMark.
  - apply stable_lit. repeat constructor; discriminate.
Qed.

(** A token in the normalised text comes from a token in the text. *)
Lemma containsToken_normalized (s : text) :
  containsToken (normalizeLineEndings s) -> containsToken s.
Proof.
  intros (pre & tok & suf & Hs & Htok).
  pose proof (proj1 (normalizeLineEndings_expands s)) as He. rewrite Hs in He.
  destruct (expands_app _ _ _ He) as (spre & s1 & -> & _ & He1).
  destruct (expands_app _ _ _ He1) as (stok & ssuf & -> & Het & _).
  exists spre, stok, ssuf. split; [reflexivity|].
  exact (stable_coordToken _ _ Htok Het).
Qed.

(** *** Substrings *)

Lemma containsToken_inside (pre b suf : text) :
  containsToken b -> containsToken (pre ++ b ++ suf).
Proof.
  intros (p & tok & q & -> & Htok).
  exists (pre ++ p), tok, (q ++ suf). split; [|exact Htok].
  rewrite <- !app_assoc. reflexivity.
Qed.

Lemma trim_inside (s : text) : exists pre suf, s = pre ++ trim s ++ suf.
Proof.
  unfold trim, trimEnd, trimStart.
  exists (takeWhile isSpace s),
         (rev (takeWhile isSpace (rev (dropWhile isSpace s)))).
  rewrite <- rev_app_distr, takeWhile_dropWhile, rev_involutive.
  symmetry. apply takeWhile_dropWhile.
Qed.

(** Every block is a piece of the text, and the first block starts it. *)
Lemma splitBlocks_inside (s : text) : forall skip,
  (skip = 0%nat ->
   exists hd tl suf, splitBlocksFrom 0 s = hd :: tl /\ s = hd ++ suf)
  /\ Forall (fun b => exists pre suf, s = pre ++ b ++ suf) (splitBlocksFrom skip s).
Proof.
  induction s as [|c s IH]; intros skip.
  - split.
    + intros _. exists [], [], []. split; reflexivity.
    + destruct skip; repeat constructor; exists [], []; reflexivity.
  - assert (Hshift : forall l : list text,
              Forall (fun b => exists pre suf, s = pre ++ b ++ suf) l ->
              Forall (fun b => exists pre suf, c :: s = pre ++ b ++ suf) l).
    { intros l Hl. eapply Forall_impl; [exact Hl|].
      intros b (pre & suf & ->). exists (c :: pre), suf. reflexivity. }
    assert (H0 : (exists hd tl suf, splitBlocksFrom 0 (c :: s) = hd :: tl
                                    /\ c :: s = hd ++ suf)
                 /\ Forall (fun b => exists pre suf, c :: s = pre ++ b ++ suf)
                           (splitBlocksFrom 0 (c :: s))).
    { cbn [splitBlocksFrom].
      destruct (ascii_eqb c LF
                && (0 <? throughLastLF (takeWhile isSpace s))%nat).
      - split.
        + exists [], (splitBlocksFrom (throughLastLF (takeWhile isSpace s)) s), (c :: s).
          split; reflexivity.
        + constructor; [exists [], (c :: s); reflexivity|].
          apply Hshift. apply (IH _).
      - destruct (proj1 (IH 0%nat) eq_refl) as (hd & tl & suf & Hsplit & Hs).
        pose proof (proj2 (IH 0%nat)) as Hall. rewrite Hsplit in Hall |- *.
        split.
        + exists (c :: hd), tl, suf. split; [reflexivity|]. rewrite Hs at 1. reflexivity.
        + constructor.
          * exists [], suf. rewrite Hs at 1. reflexivity.
          * apply Hshift. exact (Forall_inv_tail Hall). }
    split; [intros _; exact (proj1 H0)|].
    destruct skip as [|k]; [exact (proj2 H0)|].
    cbn [splitBlocksFrom]. apply Hshift. apply (IH k).
Qed.

(** *** Scanning a block that holds no token *)

Lemma scanBlock_no_match (block : text) :
  (forall pre suf, block = pre ++ suf -> matchCoord suf = None) ->
  forall skip cur,
    scanBlock skip block cur
    = if (0 <? length cur)%nat then [mkShape cur false] else [].
Proof.
  induction block as [|c block IH]; intros Hno skip cur; [reflexivity|].
  assert (Hno' : forall pre suf, block = pre ++ suf -> matchCoord suf = None).
  { intros pre suf ->. apply (Hno (c :: pre)). reflexivity. }
  cbn [scanBlock]. destruct skip as [|k]; [|apply IH; exact Hno'].
  rewrite (Hno [] (c :: block) eq_refl). apply IH. exact Hno'.
Qed.

Lemma scanBlock_without_token (block : text) :
  ~ containsToken block -> scanBlock 0 block [] = [].
Proof.
  intros Hno. rewrite scanBlock_no_match; [reflexivity|].
  intros pre suf -> .
  destruct (matchCoord suf) as [[[[n1 n2] sep] rest]|] eqn:E; [|reflexivity].
  exfalso. apply Hno.
  apply matchCoord_sound in E as (tok & -> & Htok).
  exists pre, tok, rest. split; [reflexivity|exact Htok].
Qed.

(** Every shape that the scan pushes has a point. *)
Lemma scanBlock_points_nonempty (block : text) : forall skip cur,
  Forall (fun shape => points shape <> []) (scanBlock skip block cur).
Proof.
  induction block as [|c block IH]; intros skip cur.
  - cbn [scanBlock]. destruct (0 <? length cur)%nat eqn:E; [|constructor].
    constructor; [|constructor]. cbn [points]. intros ->. discriminate E.
  - cbn [scanBlock]. destruct skip as [|k]; [|apply IH].
    destruct (matchCoord (c :: block)) as [[[[n1 n2] sep] rest]|]; [|apply IH].
    destruct sep; [|apply IH].
    constructor; [|apply IH]. cbn [points].
    intros E. apply app_eq_nil in E as [_ E]. discriminate E.
Qed.

Lemma concat_all_nil {A B : Type} (f : A -> list B) (l : list A) :
  Forall (fun x => f x = []) l -> concat (map f l) = [].
Proof.
  induction 1 as [|x l Hx _ IH]; [reflexivity|].
  cbn [map concat]. rewrite Hx, IH. reflexivity.
Qed.

(** C7: on every text the deserialiser returns a document, each shape of
    which has at least one point; and on a text that contains no
    coordinate-like token it returns the empty document. *)
Theorem deserialize_never_fails (coordinates : text) :
  Forall (fun shape => points shape <> []) (deserialize coordinates)
  /\ (~ containsToken coordinates -> deserialize coordinates = []).
Proof.
  unfold deserialize. split.
  - destruct (trim coordinates); [constructor|].
    apply Forall_concat, Forall_fmap, Forall_forall. intros block _.
    unfold compose.
    destruct (trim block); [constructor|apply scanBlock_points_nonempty].
  - intros Hno. destruct (trim coordinates); [reflexivity|].
    apply concat_all_nil.
    pose proof (proj2 (splitBlocks_inside
                         (trim (normalizeLineEndings coordinates)) 0)) as Hblocks.
    eapply Forall_impl; [exact Hblocks|].
    intros block (pre & suf & Hblock). cbv beta.
    destruct (trim block); [reflexivity|].
    apply scanBlock_without_token. intros Htok.
    apply Hno, containsToken_normalized.
    destruct (trim_inside (normalizeLineEndings coordinates)) as (p & q & ->).
    apply containsToken_inside. rewrite Hblock.
    apply containsToken_inside. exact Htok.
Qed.

Lemma cat_has_char (P Q : lang) (c : ascii) :
  (forall b, Q b -> In c b) -> forall t, cat P Q t -> In c t.
Proof.
  intros HQ t (a & b & -> & _ & Hb). apply in_or_app. right. apply HQ. exact Hb.
Qed.

(** Every token ends with a closing bracket. *)
Lemma coordToken_has_bracket (tok : text) : coordToken tok -> In "]"%char tok.
Proof.
  unfold coordToken. do 9 apply cat_has_char.
  intros b ->. left. reflexivity.
Qed.

Lemma deserialize_never_fails_witness :
  ~ containsToken (txt "M 10 20 [1,2 and so on")
  /\ deserialize (txt "M 10 20 [1,2 and so on") = [].
Proof.
  assert (H : ~ containsToken (txt "M 10 20 [1,2 and so on")).
  { intros (pre & tok & suf & Hs & Htok).
    apply coordToken_has_bracket in Htok.
    assert (Hin : In "]"%char (txt "M 10 20 [1,2 and so on")).
    { rewrite Hs. apply in_or_app. right. apply in_or_app. left. exact Htok. }
    cbn in Hin. repeat (destruct Hin as [Hin|Hin]; [discriminate Hin|]).
    exact Hin. }
  split; [exact H|].
  exact (proj2 (deserialize_never_fails (txt "M 10 20 [1,2 and so on")) H).
Defined.

(** ** What the simplification keeps and what it drops *)

Lemma adjacent_app (R : nat -> nat -> Prop) (l1 : list nat) (x : nat) (l2 : list nat) :
  adjacent R (l1 ++ [x]) -> adjacent R (x :: l2) -> adjacent R (l1 ++ x :: l2).
Proof.
  induction l1 as [|a l1 IH]; intros H1 H2; [exact H2|].
  destruct l1 as [|b l1]; simpl in *.
  - inversion H1; subst. constructor; assumption.
  - inversion H1; subst. constructor; [assumption|]. apply IH; assumption.
Qed.

Lemma adjacent_map (P : nat -> Prop) (R R' : nat -> nat -> Prop) (f : nat -> nat)
    (l : list nat) :
  (forall a b, P a -> P b -> R a b -> R' (f a) (f b)) ->
  Forall P l -> adjacent R l -> adjacent R' (map f l).
Proof.
  intros Hf HP. induction 1 as [|a|a b l Hab Hrest IH]; simpl; constructor.
  - inversion HP as [|? ? Pa HP']; subst. inversion HP'; subst. auto.
  - apply IH. inversion HP; assumption.
Qed.

Lemma ngt_trans_false (d : num) (m : Q) (epsilon : num) :
  (d >? Fin m)%num = false -> (Fin m >? epsilon)%num = false ->
  (d >? epsilon)%num = false.
Proof.
  destruct d as [d|], epsilon as [e|]; try reflexivity.
  intros H1 H2. apply Qlt_bool_false in H1, H2. apply Qlt_bool_false.
  eapply Qle_trans; eassumption.
Qed.

Section Approximation.

Variable sqrtQ : Q -> Q.

Local Abbreviation rdp := (ramerDouglasPeucker sqrtQ).
Local Abbreviation dist := (getPerpendicularDistance sqrtQ).

(** The loop ends with [dmax] a number that no distance it met
    exceeds. *)
Lemma farthest_fold_max points end_ (l : list nat) : forall (acc : num * nat) (m : Q),
  acc.1 = Fin m ->
  exists m',
    (fold_left (farthestStep sqrtQ points end_) l acc).1 = Fin m'
    /\ m <= m'
    /\ Forall (fun i => (dist (at_ points i) (at_ points 0) (at_ points end_)
                         >? Fin m')%num = false) l.
Proof.
  induction l as [|i l IH]; intros acc m Hacc; simpl.
  - exists m. split; [exact Hacc|]. split; [apply Qle_refl|constructor].
  - unfold farthestStep at 2. rewrite Hacc.
    destruct (dist (at_ points i) (at_ points 0) (at_ points end_)) as [d|] eqn:Ed.
    + destruct (ngt (Fin d) (Fin m)) eqn:Hgt.
      * apply ngt_Fin in Hgt.
        destruct (IH (Fin d, i) d eq_refl) as (m' & Hm' & Hle & Hall).
        exists m'. split; [exact Hm'|]. split; [lra|].
        constructor; [|exact Hall]. rewrite Ed. apply Qlt_bool_false. exact Hle.
      * apply Qlt_bool_false in Hgt.
        destruct (IH acc m Hacc) as (m' & Hm' & Hle & Hall).
        exists m'. split; [exact Hm'|]. split; [exact Hle|].
        constructor; [|exact Hall]. rewrite Ed. apply Qlt_bool_false. lra.
    + cbn [ngt nlt].
      destruct (IH acc m Hacc) as (m' & Hm' & Hle & Hall).
      exists m'. split; [exact Hm'|]. split; [exact Hle|].
      constructor; [rewrite Ed; reflexivity|exact Hall].
Qed.

Lemma farthest_max points end_ :
  exists m,
    (farthest sqrtQ points end_).1 = Fin m
    /\ forall i, (1 <= i < end_)%nat ->
         (dist (at_ points i) (at_ points 0) (at_ points end_) >? Fin m)%num = false.
Proof.
  destruct (farthest_fold_max points end_ (seq 1 (end_ - 1)) (nZ 0, 0%nat) _ eq_refl)
    as (m & Hm & _ & Hall).
  exists m. split; [exact Hm|].
  intros i Hi. rewrite Forall_forall in Hall. apply Hall.
  apply list_elem_of_In, in_seq. lia.
Qed.

Lemma at_take (points : list Point) (n i : nat) :
  (i < n)%nat -> at_ (take n points) i = at_ points i.
Proof.
  intros Hi. unfold at_. rewrite !nth_lookup, lookup_take_lt by exact Hi. reflexivity.
Qed.

Lemma at_drop (points : list Point) (n i : nat) :
  at_ (drop n points) i = at_ points (n + i).
Proof. unfold at_. rewrite !nth_lookup, lookup_drop. reflexivity. Qed.

(** Whenever the recursion returns, its result is the input read at
    increasing positions, from the first to the last, and between two
    neighbouring positions no input point is farther than [epsilon]
    from the segment kept. *)
Lemma rdp_covers fuel : forall points epsilon r,
  rdp fuel points epsilon = Some r ->
  points <> [] ->
  exists idx,
    r = map (at_ points) idx
    /\ Forall (fun a => (a < length points)%nat) idx
    /\ head idx = Some 0%nat
    /\ last idx = Some (length points - 1)%nat
    /\ adjacent (withinEpsilon sqrtQ epsilon points) idx.
Proof.
  induction fuel as [|fuel IH]; intros points epsilon r Hr Hne; simpl in Hr;
    [discriminate|].
  destruct (length points <? 3)%nat eqn:Elen.
  - inversion Hr; subst r; clear Hr. apply Nat.ltb_lt in Elen.
    destruct points as [|p0 [|p1 [|p2 tl]]]; [congruence| | |simpl in Elen; lia].
    + exists [0%nat]. repeat split; try reflexivity.
      * repeat constructor.
      * constructor.
    + exists [0%nat; 1%nat]. repeat split; try reflexivity.
      * repeat constructor.
      * constructor; [|constructor]. split; [lia|]. intros i Hi. lia.
  - apply Nat.ltb_ge in Elen.
    pose proof (farthest_index sqrtQ points (length points - 1)) as Hidx.
    destruct (farthest_max points (length points - 1)) as (m & Hm & Hmax).
    destruct (farthest sqrtQ points (length points - 1)) as [dmax index].
    simpl in Hidx, Hm. subst dmax.
    destruct (ngt (Fin m) epsilon) eqn:Hgt.
    + destruct (rdp fuel (slice points 0 (index + 1)) epsilon) as [r1|] eqn:E1;
        [|discriminate].
      destruct (rdp fuel (slice points index (length points)) epsilon) as [r2|] eqn:E2;
        [|discriminate].
      inversion Hr; subst r; clear Hr.
      rewrite slice_from_0 in E1. rewrite slice_to_length in E2.
      assert (Hi : (index < length points)%nat) by lia.
      apply IH in E1 as (idx1 & -> & B1 & H1 & L1 & A1).
      2:{ intros E. apply (f_equal length) in E. rewrite length_take in E.
          simpl in E. lia. }
      apply IH in E2 as (idx2 & -> & B2 & H2 & L2 & A2).
      2:{ intros E. apply (f_equal length) in E. rewrite length_drop in E.
          simpl in E. lia. }
      rewrite length_take in L1, B1. rewrite length_drop in L2, B2.
      replace (Init.Nat.min (index + 1) (length points) - 1)%nat with index in L1 by lia.
      apply last_Some in L1 as [init1 ->].
      destruct idx2 as [|z tail2]; [discriminate|]. injection H2 as ->.
      exists (init1 ++ map (Nat.add index) (0%nat :: tail2)).
      rewrite length_map, length_app. simpl length.
      replace (length init1 + 1 - 1)%nat with (length init1) by lia.
      rewrite slice_from_0, firstn_map, take_app_length.
      pose proof B1 as B1'. apply Forall_app in B1 as [B1 _].
      split; [|split; [|split; [|split]]].
      * rewrite map_app, map_map. f_equal.
        -- apply map_ext_in. intros a Ha.
           apply at_take. rewrite Forall_forall in B1.
           specialize (B1 a (proj2 (list_elem_of_In _ _) Ha)). lia.
        -- apply map_ext. intros a. apply at_drop.
      * apply Forall_app. split.
        -- eapply Forall_impl; [exact B1|]. intros a Ha. simpl in Ha. lia.
        -- apply Forall_map. eapply Forall_impl; [exact B2|].
           intros a Ha. simpl in Ha. simpl. lia.
      * destruct init1; simpl in H1 |- *; [|exact H1].
        injection H1 as ->. reflexivity.
      * rewrite last_app.
        change (map (Nat.add index) (0%nat :: tail2))
          with (Nat.add index <$> (0%nat :: tail2)).
        rewrite fmap_last, L2. simpl. f_equal. lia.
      * simpl map. rewrite Nat.add_0_r. apply adjacent_app.
        -- rewrite <- (map_id (init1 ++ [index])).
           eapply (adjacent_map (fun a => (a < index + 1)%nat)); [| |exact A1].
           ++ intros a b Ha Hb [Hab Hin]. split; [exact Hab|].
              intros i Hb'. specialize (Hin i Hb').
              rewrite !at_take in Hin by lia. exact Hin.
           ++ eapply Forall_impl; [exact B1'|]. intros a Ha. simpl in Ha. lia.
        -- replace index with (index + 0)%nat at 1 by lia.
           change ((index + 0)%nat :: map (Nat.add index) tail2)
             with (map (Nat.add index) (0%nat :: tail2)).
           eapply (adjacent_map (fun _ => True)); [| |exact A2].
           ++ intros a b _ _ [Hab Hin]. split; [lia|].
              intros i Hb'. specialize (Hin (i - index)%nat).
              rewrite !at_drop in Hin.
              replace (index + (i - index))%nat with i in Hin by lia.
              apply Hin. lia.
           ++ apply Forall_forall. intros. exact I.
    + inversion Hr; subst r; clear Hr.
      exists [0%nat; (length points - 1)%nat].
      split; [reflexivity|]. split; [repeat constructor; lia|].
      split; [reflexivity|]. split; [reflexivity|].
      constructor; [|constructor]. split; [lia|].
      intros i Hi. eapply ngt_trans_false; [|exact Hgt]. apply Hmax. lia.
Qed.

End Approximation.

(** X2: for an [epsilon] that is not negative the simplification returns
    the input read at increasing positions, from the first to the last,
    and no input point lying between two neighbouring kept positions is
    farther than [epsilon] from the segment that joins the two kept
    points.  This holds for any square root function. *)
Theorem simplification_within_epsilon (sqrtQ : Q -> Q) (points : list Point)
    (epsilon : num) (fuel : nat) :
  (epsilon <? nZ 0)%num = false ->
  (length points < fuel)%nat ->
  points <> [] ->
  exists r idx,
    ramerDouglasPeucker sqrtQ fuel points epsilon = Some r
    /\ r = map (at_ points) idx
    /\ head idx = Some 0%nat
    /\ last idx = Some (length points - 1)%nat
    /\ adjacent (withinEpsilon sqrtQ epsilon points) idx.
Proof.
  intros Heps Hfuel Hne.
  destruct (rdp_returns sqrtQ fuel points epsilon Heps Hfuel) as [r Hr].
  destruct (rdp_covers sqrtQ fuel _ _ _ Hr Hne) as (idx & E & _ & H & L & A).
  exists r, idx. auto.
Qed.

Lemma simplification_within_epsilon_witness :
  exists r idx,
    ramerDouglasPeucker sqrt_floor 6
      [(nZ 0, nZ 0); (nZ 1, nZ 5); (nZ 2, nZ 0); (nZ 3, nZ 7); (nZ 9, nZ 9)] (nZ 6)
    = Some r
    /\ r = map (at_ [(nZ 0, nZ 0); (nZ 1, nZ 5); (nZ 2, nZ 0); (nZ 3, nZ 7); (nZ 9, nZ 9)])
             idx
    /\ head idx = Some 0%nat
    /\ last idx = Some (5 - 1)%nat
    /\ adjacent
         (withinEpsilon sqrt_floor (nZ 6)
            [(nZ 0, nZ 0); (nZ 1, nZ 5); (nZ 2, nZ 0); (nZ 3, nZ 7); (nZ 9, nZ 9)])
         idx.
Proof.
  apply (simplification_within_epsilon sqrt_floor
           [(nZ 0, nZ 0); (nZ 1, nZ 5); (nZ 2, nZ 0); (nZ 3, nZ 7); (nZ 9, nZ 9)]
           (nZ 6) 6).
  - reflexivity.
  - simpl. lia.
  - discriminate.
Defined.

(** Whenever the recursion returns on two points or more, it returns two
    points or more, and never more than it was given. *)
Lemma rdp_length (sqrtQ : Q -> Q) (fuel : nat) (points : list Point) (epsilon : num)
    (r : list Point) :
  ramerDouglasPeucker sqrtQ fuel points epsilon = Some r ->
  (2 <= length points)%nat ->
  (2 <= length r <= length points)%nat.
Proof.
  intros Hr Hlen. split.
  - destruct (rdp_covers sqrtQ fuel _ _ _ Hr) as (idx & -> & _ & H & L & _).
    { intros ->. simpl in Hlen. lia. }
    rewrite length_map.
    destruct idx as [|a [|b idx]]; simpl in *; [discriminate| |lia].
    injection H as ->. injection L as L. lia.
  - apply sublist_length. apply (rdp_sound sqrtQ fuel _ _ _ Hr).
Qed.

(** ** The filter of close points, again *)

Lemma filter_fold_sublist (minDistanceSq : num) (rest : list Point) :
  forall filtered,
    exists kept,
      fold_left (filterStep minDistanceSq) rest filtered = filtered ++ kept
      /\ kept `sublist_of` rest.
Proof.
  induction rest as [|c rest IH]; intros filtered; simpl.
  - exists []. split; [rewrite app_nil_r; reflexivity|reflexivity].
  - unfold filterStep at 2.
    destruct (ngt _ _).
    + destruct (IH (filtered ++ [c])) as (kept & -> & Hs).
      exists (c :: kept). split; [rewrite <- app_assoc; reflexivity|].
      apply sublist_skip. exact Hs.
    + destruct (IH filtered) as (kept & -> & Hs).
      exists kept. split; [reflexivity|]. apply sublist_cons. exact Hs.
Qed.

(** A list whose neighbours are all far enough apart passes the loop
    unchanged. *)
Lemma filter_fold_spaced (minDistance : num) (more : list Point) :
  forall filtered,
    filtered <> [] ->
    (forall i p q, (filtered ++ more) !! i = Some p ->
                   (filtered ++ more) !! S i = Some q ->
                   fartherThan minDistance p q = true) ->
    fold_left (filterStep (minDistance * minDistance)%num) more filtered
    = filtered ++ more.
Proof.
  induction more as [|c more IH]; intros filtered Hne Hpairs; simpl.
  - rewrite app_nil_r. reflexivity.
  - destruct (last filtered) as [lastPoint|] eqn:Hlast.
    2:{ apply last_None in Hlast. contradiction. }
    rewrite (filterStep_spec _ _ _ _ Hlast).
    assert (Hfar : fartherThan minDistance lastPoint c = true).
    { apply (Hpairs (length filtered - 1)%nat).
      - rewrite lookup_app_l.
        + rewrite last_lookup in Hlast.
          replace (length filtered - 1)%nat with (Init.Nat.pred (length filtered)) by lia.
          exact Hlast.
        + destruct filtered; [contradiction|simpl; lia].
      - replace (S (length filtered - 1)) with (length filtered).
        + apply list_lookup_middle. reflexivity.
        + destruct filtered; [contradiction|simpl; lia]. }
    rewrite Hfar, IH.
    + rewrite <- app_assoc. reflexivity.
    + intros E. apply app_eq_nil in E as [_ E]. discriminate E.
    + rewrite <- app_assoc. exact Hpairs.
Qed.

(** X4: the filter returns a subsequence of the simplified points, and
    filtering its result again with the same [minDistance] changes
    nothing. *)
Theorem filter_is_stable_subsequence (minDistance : num) (simplified : list Point) :
  filterPoints minDistance simplified `sublist_of` simplified
  /\ filterPoints minDistance (filterPoints minDistance simplified)
     = filterPoints minDistance simplified.
Proof.
  destruct (ngt minDistance (nZ 0)) eqn:Hpos.
  2:{ assert (Hoff : forall l, filterPoints minDistance l = l).
      { intros l. unfold filterPoints. rewrite Hpos. reflexivity. }
      rewrite !Hoff. split; reflexivity. }
  assert (Hon : forall first rest,
             filterPoints minDistance (first :: rest)
             = fold_left (filterStep (minDistance * minDistance)%num) rest [first]).
  { intros first rest. unfold filterPoints. rewrite Hpos. reflexivity. }
  destruct simplified as [|first rest].
  { assert (E : filterPoints minDistance [] = []).
    { unfold filterPoints. rewrite Hpos. reflexivity. }
    rewrite !E. split; reflexivity. }
  rewrite Hon. split.
  - destruct (filter_fold_sublist (minDistance * minDistance)%num rest [first])
      as (kept & -> & Hs).
    apply sublist_skip. exact Hs.
  - destruct (filter_fold_spec minDistance rest [first] first eq_refl) as [Hhead Hpairs].
    { intros i p q Hp Hq. destruct i; discriminate. }
    cbv zeta in Hhead, Hpairs.
    destruct (fold_left (filterStep (minDistance * minDistance)%num) rest [first])
      as [|first' more] eqn:E; [discriminate|].
    injection Hhead as ->.
    rewrite Hon.
    apply (filter_fold_spaced minDistance more [first]); [discriminate|exact Hpairs].
Qed.

(** ** Path data, again *)

Lemma fold_left_invariant {A B : Type} (P : A -> Prop) (f : A -> B -> A) (l : list B) :
  (forall a b, P a -> P (f a b)) -> forall a, P a -> P (fold_left f l a).
Proof.
  intros Hf. induction l as [|b l IH]; intros a Ha; simpl; [exact Ha|].
  apply IH, Hf, Ha.
Qed.

Lemma nonEmpty_true {A : Type} (l : list A) : nonEmpty l = true -> l <> [].
Proof. destruct l; [discriminate|discriminate]. Qed.

(** Every command leaves the finished subpaths non-empty. *)
Lemma execCommand_paths (st : PathState) (commandStr : text) :
  Forall (fun path => path <> []) (st_paths st) ->
  Forall (fun path => path <> []) (st_paths (execCommand st commandStr)).
Proof.
  intros Hst. unfold execCommand.
  destruct commandStr as [|command rest]; [exact Hst|].
  repeat match goal with
         | |- context [if ?b then _ else _] => destruct b
         end;
    try (apply (fold_left_invariant
                  (fun st => Forall (fun path => path <> []) (st_paths st)));
         [|exact Hst]; clear; intros st i Hst).
  - unfold moveto. destruct (i =? 0)%nat; cbn [st_paths]; [|exact Hst].
    destruct (nonEmpty (st_currentPath st)) eqn:E; [|exact Hst].
    apply Forall_app. split; [exact Hst|].
    constructor; [apply nonEmpty_true; exact E|constructor].
  - exact Hst.
  - exact Hst.
  - exact Hst.
  - exact Hst.
  - unfold closepath. destruct (nonEmpty (st_currentPath st)); [|exact Hst].
    cbn [st_paths]. apply Forall_app. split; [exact Hst|].
    constructor; [|constructor].
    intros E. apply app_eq_nil in E as [_ E]. discriminate E.
  - exact Hst.
Qed.

(** X6: no subpath that [parsePathData] returns is empty, whatever the
    path description. *)
Theorem parsePathData_no_empty_subpath (d : text) :
  Forall (fun path => path <> []) (parsePathData d).
Proof.
  unfold parsePathData. destruct d as [|c d]; [constructor|].
  assert (H : Forall (fun path => path <> [])
                     (st_paths (runCommands (matchCommands (c :: d))))).
  { unfold runCommands.
    apply (fold_left_invariant
             (fun st => Forall (fun path => path <> []) (st_paths st))).
    - intros st commandStr. apply execCommand_paths.
    - constructor. }
  unfold finishPaths.
  destruct (nonEmpty _) eqn:E; [|exact H].
  apply Forall_app. split; [exact H|].
  constructor; [apply nonEmpty_true; exact E|constructor].
Qed.



(** ** Numbers written into a path description and read back *)

Lemma isInteger_divide (n : Z) (d : positive) (p : Z) :
  isInteger ((n # d) * inject_Z p) <-> (Zpos d | n * p)%Z.
Proof.
  unfold isInteger, Qeq, Z.divide. cbn.
  split; intros [z Hz]; exists z; lia.
Qed.

(** A denominator below 32 shares with 10^6 a factor that divides the
    power of ten of its own binary size. *)
Lemma small_denominator (d : positive) :
  (6 <= Pos.size_nat d)%nat
  \/ (Z.gcd (Zpos d) (10 ^ 6) | pow10 (Pos.size_nat d))%Z.
Proof.
  do 5 (try destruct d as [d|d|]);
    try (left; cbn [Pos.size_nat]; destruct d; cbn [Pos.size_nat]; lia);
    right; apply Z.mod_divide; vm_compute; congruence.
Qed.

(** The counter of [scaleToInt] is enough for every number with at most
    six decimals. *)
Lemma decimal_fuel (q : Q) :
  isInteger (Qabs q * inject_Z (pow10 6)) ->
  exists e1 : nat,
    (e1 <= 6)%nat /\ (e1 <= Pos.size_nat (Qden q))%nat
    /\ isInteger (Qabs q * inject_Z (pow10 e1)).
Proof.
  destruct q as [n d]. cbn [Qabs Qden]. intros Hint.
  destruct (small_denominator d) as [Hbig|Hsmall].
  - exists 6%nat. split; [lia|]. split; [exact Hbig|exact Hint].
  - destruct (le_lt_dec 6 (Pos.size_nat d)) as [Hbig|Hlt].
    { exists 6%nat. split; [lia|]. split; [exact Hbig|exact Hint]. }
    exists (Pos.size_nat d). split; [lia|]. split; [lia|].
    apply isInteger_divide in Hint. apply isInteger_divide.
    change (pow10 6) with (10 ^ 6)%Z in Hint.
    set (M := (10 ^ 6)%Z) in *. set (g := Z.gcd (Zpos d) M) in *.
    assert (Hg : (0 < g)%Z).
    { pose proof (Z.gcd_nonneg (Zpos d) M).
      destruct (Z.eq_dec g 0%Z) as [E|E]; [|lia].
      apply Z.gcd_eq_0_l in E. lia. }
    destruct (Z.gcd_divide_l (Zpos d) M) as [d' Hd'].
    destruct (Z.gcd_divide_r (Zpos d) M) as [m Hm].
    fold g in Hd', Hm.
    assert (Hrel : Z.gcd d' m = 1%Z).
    { pose proof (Z.gcd_div_gcd (Zpos d) M g ltac:(lia) eq_refl) as Hr.
      rewrite Hd' in Hr at 1. rewrite Hm in Hr at 1.
      rewrite !Z.div_mul in Hr by lia. exact Hr. }
    assert (Hd'n : (d' | Z.abs n)%Z).
    { apply (Z.gauss d' m (Z.abs n)); [|exact Hrel].
      apply (Z.mul_divide_cancel_l _ _ g); [lia|].
      replace (g * d')%Z with (Zpos d) by lia.
      replace (g * (m * Z.abs n))%Z with (Z.abs n * M)%Z by (rewrite Hm; ring).
      exact Hint. }
    destruct Hsmall as [a Ha]. destruct Hd'n as [b Hb].
    exists (a * b)%Z. rewrite Hd', Hb, Ha. ring.
Qed.

Lemma Qeq_bool_true_zero (q : Q) : Qeq_bool q 0 = true -> q == 0.
Proof. apply Qeq_bool_iff. Qed.

(** The text of such a number is a plain decimal text that reads back
    as the number. *)
Lemma print_parse (x : num) :
  decimalNumber x ->
  exists neg ip fp,
    numToString x = numberText neg ip fp
    /\ allDigits ip /\ ip <> [] /\ allDigits fp
    /\ num_eq (parseFloat (numberText neg ip fp)) x.
Proof.
  destruct x as [q|]; [|intros []]. intros [Hint Hbound].
  destruct (Qeq_bool q 0) eqn:Hz.
  - exists false, (txt "0"), [].
    unfold numToString. rewrite Hz.
    split; [reflexivity|]. split; [repeat constructor|].
    split; [discriminate|]. split; [constructor|].
    apply Qeq_bool_iff in Hz.
    set (v := parseFloat (numberText false (txt "0") [])).
    vm_compute in v. subst v. cbn [num_eq]. rewrite Hz. reflexivity.
  - assert (Hq : ~ q == 0).
    { intros E. apply Qeq_bool_iff in E. congruence. }
    destruct (decimal_fuel q Hint) as (e1 & He1 & Hfuel & Hint1).
    destruct (numToString_decimal q e1 Hq Hfuel He1 Hint1 Hbound)
      as (ip & fp & Hs & Hip & Hne & Hfp & Hval).
    exists (Qlt_bool q 0), ip, fp.
    split; [exact Hs|]. split; [exact Hip|]. split; [exact Hne|].
    split; [exact Hfp|].
    rewrite (parseFloat_numberText _ _ _ Hip Hne Hfp). cbn [num_eq].
    destruct (Qlt_bool q 0) eqn:Hneg; rewrite scale10_zero, Hval.
    + apply Qlt_bool_iff in Hneg. rewrite Qabs_neg by lra. ring.
    + apply Qlt_bool_false in Hneg. rewrite Qabs_pos by lra. reflexivity.
Qed.

Lemma isArgChar_digit (c : ascii) : isDigit c = true -> isArgChar c = true.
Proof. intros H. unfold isArgChar. rewrite H. reflexivity. Qed.

Lemma numberText_chars (neg : bool) (ip fp : text) :
  allDigits ip -> ip <> [] -> allDigits fp ->
  Forall (fun c => isArgChar c = true) (numberText neg ip fp)
  /\ numberText neg ip fp <> [].
Proof.
  intros Hip Hne Hfp. unfold numberText, fracText. split.
  - apply Forall_app. split; [destruct neg; repeat constructor|].
    apply Forall_app. split.
    + eapply Forall_impl; [exact Hip|]. apply isArgChar_digit.
    + destruct fp; [constructor|]. constructor; [reflexivity|].
      eapply Forall_impl; [exact Hfp|]. apply isArgChar_digit.
  - intros E. apply app_eq_nil in E as [_ E]. apply app_eq_nil in E as [E _].
    contradiction.
Qed.

(** X8: a number with at most six decimals and a magnitude below 10^21
    is written by a template literal with digits, minus and point only,
    and [parseFloat] reads the same value back from that text. *)
Theorem number_text_reads_back (x : num) :
  decimalNumber x ->
  num_eq (parseFloat (numToString x)) x
  /\ Forall (fun c => isArgChar c = true) (numToString x)
  /\ numToString x <> [].
Proof.
  intros Hx.
  destruct (print_parse x Hx) as (neg & ip & fp & -> & Hip & Hne & Hfp & Hval).
  split; [exact Hval|]. apply numberText_chars; assumption.
Qed.

Lemma number_text_reads_back_witness :
  num_eq (parseFloat (numToString (Fin (- 21 # 8)))) (Fin (- 21 # 8))
  /\ Forall (fun c => isArgChar c = true) (numToString (Fin (- 21 # 8)))
  /\ numToString (Fin (- 21 # 8)) <> [].
Proof.
  apply (number_text_reads_back (Fin (- 21 # 8))).
  split.
  - exists 2625000%Z. reflexivity.
  - reflexivity.
Defined.

(** ** From an element to its points *)

Lemma text_eqb_eq (a b : text) : text_eqb a b = true <-> a = b.
Proof.
  revert b. induction a as [|x a IH]; intros [|y b]; simpl; split; intros H;
    try reflexivity; try discriminate.
  - apply andb_true_iff in H as [H1 H2]. apply ascii_eqb_eq in H1.
    apply IH in H2. congruence.
  - injection H as -> ->. apply andb_true_iff. split.
    + apply ascii_eqb_refl.
    + apply IH. reflexivity.
Qed.

(** An element has one lower-case tag name. *)
Lemma tagIs_unique (el : Element) (a b : string) :
  tagIs el a = true -> txt a <> txt b -> tagIs el b = false.
Proof.
  unfold tagIs. intros Ha Hab.
  apply text_eqb_eq in Ha.
  destruct (text_eqb (toLowerCase (tagName el)) (txt b)) eqn:E; [|reflexivity].
  apply text_eqb_eq in E. congruence.
Qed.

Lemma argChar_not_command (c : ascii) :
  isArgChar c = true -> isCommandLetter c = false.
Proof.
  destruct c as [[] [] [] [] [] [] [] []]; vm_compute; congruence.
Qed.

Lemma argChar_not_space (c : ascii) : isArgChar c = true -> isSpace c = false.
Proof.
  destruct c as [[] [] [] [] [] [] [] []]; vm_compute; congruence.
Qed.

Lemma space_not_argChar (c : ascii) : isSpace c = true -> isArgChar c = false.
Proof.
  destruct c as [[] [] [] [] [] [] [] []]; vm_compute; congruence.
Qed.

(** *** The tokens of an argument list *)

Lemma runsAux_none (p : ascii -> bool) (b : text) :
  Forall (fun c => p c = false) b -> runsAux p b = ([], []).
Proof.
  induction 1 as [|c b Hc _ IH]; [reflexivity|].
  simpl. rewrite IH, Hc. reflexivity.
Qed.

Lemma runsAux_app_none (p : ascii -> bool) (a b : text) :
  Forall (fun c => p c = false) b -> runsAux p (a ++ b) = runsAux p a.
Proof.
  intros Hb. induction a as [|c a IH]; simpl.
  - apply runsAux_none. exact Hb.
  - rewrite IH. reflexivity.
Qed.

Lemma runsAux_app_all (p : ascii -> bool) (tok s : text) :
  Forall (fun c => p c = true) tok ->
  runsAux p (tok ++ s) = (tok ++ (runsAux p s).1, (runsAux p s).2).
Proof.
  induction 1 as [|c tok Hc _ IH]; simpl.
  - destruct (runsAux p s); reflexivity.
  - rewrite IH, Hc. reflexivity.
Qed.

Lemma runs_sep (p : ascii -> bool) (c : ascii) (s : text) :
  p c = false -> runs p (c :: s) = runs p s.
Proof.
  intros Hc. unfold runs. simpl. destruct (runsAux p s) as [run later].
  rewrite Hc. reflexivity.
Qed.

Lemma runs_token (p : ascii -> bool) (tok : text) (c : ascii) (s : text) :
  tok <> [] -> Forall (fun c => p c = true) tok -> p c = false ->
  runs p (tok ++ c :: s) = tok :: runs p s.
Proof.
  intros Hne Htok Hc. unfold runs at 1.
  rewrite (runsAux_app_all p tok (c :: s) Htok).
  change ((runsAux p (c :: s)).1) with (fst (runsAux p (c :: s))).
  assert (E : runsAux p (c :: s) = ([], runs p s)).
  { unfold runs. simpl. destruct (runsAux p s) as [run later]. rewrite Hc. reflexivity. }
  rewrite E. cbn [fst snd]. rewrite app_nil_r.
  destruct tok; [contradiction|reflexivity].
Qed.

Lemma runs_token_end (p : ascii -> bool) (tok : text) :
  tok <> [] -> Forall (fun c => p c = true) tok -> runs p tok = [tok].
Proof.
  intros Hne Htok. unfold runs.
  rewrite <- (app_nil_r tok) at 1. rewrite (runsAux_app_all p tok [] Htok).
  cbn [runsAux fst snd]. rewrite app_nil_r.
  destruct tok; [contradiction|reflexivity].
Qed.

Lemma runs_dropWhile (p q : ascii -> bool) (s : text) :
  (forall c, q c = true -> p c = false) ->
  runs p (dropWhile q s) = runs p s.
Proof.
  intros Hq. induction s as [|c s IH]; [reflexivity|].
  simpl. destruct (q c) eqn:E; [|reflexivity].
  rewrite IH, (runs_sep p c s (Hq c E)). reflexivity.
Qed.

Lemma dropWhile_rev_suffix (q : ascii -> bool) (s : text) :
  exists suffix,
    s = rev (dropWhile q (rev s)) ++ suffix /\ Forall (fun c => q c = true) suffix.
Proof.
  exists (rev (takeWhile q (rev s))). split.
  - rewrite <- rev_app_distr, takeWhile_dropWhile, rev_involutive. reflexivity.
  - apply Forall_rev. apply takeWhile_Forall.
Qed.

(** White space at the ends of an argument list holds no token. *)
Lemma runs_trim (s : text) : runs isArgChar (trim s) = runs isArgChar s.
Proof.
  unfold trim, trimEnd, trimStart.
  rewrite <- (runs_dropWhile isArgChar isSpace s space_not_argChar).
  destruct (dropWhile_rev_suffix isSpace (dropWhile isSpace s)) as (suffix & E & Hs).
  rewrite E at 2. unfold runs. rewrite runsAux_app_none; [reflexivity|].
  eapply Forall_impl; [exact Hs|]. apply space_not_argChar.
Qed.

(** *** The commands of a path description *)

Lemma matchCommandsAux_chunk (tok rest chunk : text) (commands : list text) :
  Forall (fun c => isCommandLetter c = false) tok ->
  matchCommandsAux rest = (chunk, commands) ->
  matchCommandsAux (tok ++ rest) = (tok ++ chunk, commands).
Proof.
  intros Htok Hrest. induction Htok as [|c tok Hc _ IH]; simpl.
  - exact Hrest.
  - rewrite IH, Hc. reflexivity.
Qed.

Lemma matchCommandsAux_letter (c : ascii) (rest chunk : text) (commands : list text) :
  isCommandLetter c = true ->
  matchCommandsAux rest = (chunk, commands) ->
  matchCommandsAux (c :: rest) = ([], (c :: chunk) :: commands).
Proof.
  intros Hc Hrest. simpl. rewrite Hrest, Hc. reflexivity.
Qed.

Lemma token_chunk (t : text) :
  Forall (fun c => isArgChar c = true) t ->
  Forall (fun c => isCommandLetter c = false) t.
Proof. intros H. eapply Forall_impl; [exact H|]. apply argChar_not_command. Qed.

(** The argument lists of one, two and seven numbers. *)
Lemma args_one (a tail : text) :
  argToken a -> Forall (fun c => isSpace c = true) tail ->
  map parseFloat (runs isArgChar (trim (" "%char :: a ++ tail))) = [parseFloat a].
Proof.
  intros [Hne Ha] Htail. rewrite runs_trim, runs_sep by reflexivity.
  unfold runs. rewrite runsAux_app_none.
  - fold (runs isArgChar a). rewrite runs_token_end by assumption. reflexivity.
  - eapply Forall_impl; [exact Htail|]. apply space_not_argChar.
Qed.

Lemma args_two (a b tail : text) :
  argToken a -> argToken b -> Forall (fun c => isSpace c = true) tail ->
  map parseFloat (runs isArgChar (trim (" "%char :: a ++ " "%char :: b ++ tail)))
  = [parseFloat a; parseFloat b].
Proof.
  intros [Hna Ha] [Hnb Hb] Htail. rewrite runs_trim, runs_sep by reflexivity.
  rewrite runs_token by (assumption || reflexivity).
  unfold runs. rewrite runsAux_app_none.
  - fold (runs isArgChar b). rewrite runs_token_end by assumption. reflexivity.
  - eapply Forall_impl; [exact Htail|]. apply space_not_argChar.
Qed.

Lemma matchCommandsAux_char (c : ascii) (rest chunk : text) (commands : list text) :
  isCommandLetter c = false ->
  matchCommandsAux rest = (chunk, commands) ->
  matchCommandsAux (c :: rest) = (c :: chunk, commands).
Proof.
  intros Hc Hrest. simpl. rewrite Hrest, Hc. reflexivity.
Qed.

Lemma matchCommandsAux_chunk_end (tok : text) :
  Forall (fun c => isCommandLetter c = false) tok ->
  matchCommandsAux tok = (tok, []).
Proof.
  intros H. rewrite <- (app_nil_r tok) at 1.
  rewrite (matchCommandsAux_chunk tok [] [] [] H eq_refl).
  rewrite app_nil_r. reflexivity.
Qed.

(** The commands one by one. *)
Lemma exec_M (st : PathState) (rest : text) :
  execCommand st ("M"%char :: rest)
  = fold_left (moveto false (map parseFloat (runs isArgChar (trim rest))))
      (loopIndices (length (map parseFloat (runs isArgChar (trim rest)))) 2) st.
Proof. reflexivity. Qed.

Lemma exec_L (st : PathState) (rest : text) :
  execCommand st ("L"%char :: rest)
  = fold_left (lineto false (map parseFloat (runs isArgChar (trim rest))))
      (loopIndices (length (map parseFloat (runs isArgChar (trim rest)))) 2) st.
Proof. reflexivity. Qed.

Lemma exec_H (st : PathState) (rest : text) :
  execCommand st ("H"%char :: rest)
  = fold_left (horizontal false (map parseFloat (runs isArgChar (trim rest))))
      (loopIndices (length (map parseFloat (runs isArgChar (trim rest)))) 1) st.
Proof. reflexivity. Qed.

Lemma exec_V (st : PathState) (rest : text) :
  execCommand st ("V"%char :: rest)
  = fold_left (vertical false (map parseFloat (runs isArgChar (trim rest))))
      (loopIndices (length (map parseFloat (runs isArgChar (trim rest)))) 1) st.
Proof. reflexivity. Qed.

Lemma exec_Z (st : PathState) (rest : text) :
  execCommand st ("Z"%char :: rest) = closepath st.
Proof. reflexivity. Qed.

(** An arc is not among the commands carried out. *)
Lemma exec_A (st : PathState) (rest : text) :
  execCommand st ("A"%char :: rest) = st.
Proof. reflexivity. Qed.

Lemma args_two_end (a b : text) :
  argToken a -> argToken b ->
  map parseFloat (runs isArgChar (trim (" "%char :: a ++ " "%char :: b)))
  = [parseFloat a; parseFloat b].
Proof.
  intros Ha Hb. rewrite <- (args_two a b [] Ha Hb); [|constructor].
  rewrite app_nil_r. reflexivity.
Qed.

Lemma matchCommandsAux_nil : matchCommandsAux [] = ([], []).
Proof. reflexivity. Qed.

(** The commands of a description written as letters, spaces and number
    tokens, found letter by letter from its end. *)
Ltac split_commands :=
  unfold matchCommands;
  match goal with
  | |- context [matchCommandsAux ?d] =>
    let H := fresh "Hcommands" in
    eassert (H : matchCommandsAux d = _);
    [ repeat first
        [ apply matchCommandsAux_nil
        | eapply matchCommandsAux_letter; [reflexivity|]
        | eapply matchCommandsAux_char; [reflexivity|]
        | eapply matchCommandsAux_chunk; [apply token_chunk; assumption|]
        | eapply matchCommandsAux_chunk_end; apply token_chunk; assumption ]
    | rewrite H; clear H; cbn [fst snd] ]
  end.

Lemma decimal_token (x : num) :
  decimalNumber x ->
  argToken (numToString x) /\ num_eq (parseFloat (numToString x)) x.
Proof.
  intros Hx.
  destruct (print_parse x Hx) as (neg & ip & fp & -> & Hip & Hne & Hfp & Hval).
  split; [|exact Hval].
  destruct (numberText_chars neg ip fp Hip Hne Hfp) as [Hc Hn].
  split; assumption.
Qed.

Ltac decimal_check :=
  match goal with
  | |- decimalNumber ?x =>
    let v := eval vm_compute in x in
    change (decimalNumber v);
    split; [apply isInteger_test; vm_compute; reflexivity | vm_compute; reflexivity]
  end.

(** The path description of a line. *)
Lemma line_path (sx1 sy1 sx2 sy2 : text) :
  argToken sx1 -> argToken sy1 -> argToken sx2 -> argToken sy2 ->
  parsePathData (txt "M " ++ sx1 ++ txt " " ++ sy1 ++ txt " L " ++ sx2 ++ txt " " ++ sy2)
  = [[(parseFloat sx1, parseFloat sy1); (parseFloat sx2, parseFloat sy2)]].
Proof.
  intros [N1 H1] [N2 H2] [N3 H3] [N4 H4].
  cbn [txt list_ascii_of_string app]. unfold parsePathData.
  split_commands.
  unfold runCommands. cbn [fold_left].
  rewrite exec_L, exec_M.
  rewrite args_two by (try split; try assumption; repeat constructor).
  rewrite args_two_end by (split; assumption).
  generalize (parseFloat sx1) (parseFloat sy1) (parseFloat sx2) (parseFloat sy2).
  intros X1 Y1 X2 Y2. reflexivity.
Qed.



(** ** The text of the pipeline, read by the preview *)

(** The scan of the lines of points of one shape, followed by a text
    [tail] in which the pattern finds nothing. *)
Lemma scanBlock_points_tail (tail : text) (len : nat) (closed : bool) (ps : list Point) :
  (forall cur, scanBlock 0 tail cur = scanBlock 0 [] cur) ->
  forall (k : nat) (cur : list Point),
    len = (k + length ps)%nat -> ps <> [] -> Forall plainPoint ps ->
    scanBlock 0
      (join (txt "," ++ [LF]) (imap (fun i => pointText len closed (k + i)) ps) ++ tail)
      cur
    = [mkShape (cur ++ map roundPoint ps) closed].
Proof.
  intros Htail.
  induction ps as [|p ps IH]; intros k cur Hlen Hne Hplain; [congruence|].
  inversion Hplain as [|? ? Hp Hps]; subst.
  destruct ps as [|p2 ps'].
  - cbn [imap join].
    rewrite (scanBlock_match _ _ _ _ _ _ (pointText_nonempty _ _ _ _)
               (matchCoord_pointText _ closed _ p _ Hp)).
    replace (k + 0 =? k + length [p] - 1)%nat with true
      by (symmetry; apply Nat.eqb_eq; simpl; lia).
    cbn [andb]. rewrite !Htail. destruct closed.
    + reflexivity.
    + cbn [scanBlock]. rewrite length_app. cbn [length].
      replace (0 <? length cur + 1)%nat with true
        by (symmetry; apply Nat.ltb_lt; lia).
      reflexivity.
  - rewrite imap_cons, join_cons_more by (apply imap_nonempty; discriminate).
    change (imap ((fun i => pointText (k + length (p :: p2 :: ps')) closed (k + i)) ∘ S)
                 (p2 :: ps'))
      with (imap (fun i => pointText (k + length (p :: p2 :: ps')) closed (k + S i))
                 (p2 :: ps')).
    rewrite (imap_ext _ (fun i => pointText (k + length (p :: p2 :: ps')) closed (S k + i)))
      by (intros i x _; f_equal; lia).
    rewrite <- app_assoc, <- (app_assoc (txt "," ++ [LF])), comma_line.
    rewrite (scanBlock_match _ _ _ _ _ _ (pointText_nonempty _ _ _ _)
               (matchCoord_pointText _ closed _ p _ Hp)).
    replace (k + 0 =? k + length (p :: p2 :: ps') - 1)%nat with false
      by (symmetry; apply Nat.eqb_neq; simpl; lia).
    cbn [andb].
    rewrite scanBlock_nomatch by reflexivity.
    rewrite scanBlock_nomatch by reflexivity.
    change (map roundPoint (p :: p2 :: ps'))
      with ([roundPoint p] ++ map roundPoint (p2 :: ps')).
    rewrite app_assoc.
    apply (IH (S k) (cur ++ [roundPoint p])); [simpl; lia | discriminate | exact Hps].
Qed.

Lemma scanBlock_pointsText (pts : list Point) (closed : bool) :
  pts <> [] -> Forall plainPoint pts ->
  scanBlock 0 (pointsText pts closed) [] = [mkShape (map roundPoint pts) closed].
Proof.
  intros Hne Hplain. unfold pointsText.
  rewrite <- (app_nil_r (join _ _)).
  apply (scanBlock_points_tail [] (length pts) closed pts (fun _ => eq_refl) 0 []);
    [reflexivity|exact Hne|exact Hplain].
Qed.

Lemma pointText_last (len : nat) (closed : bool) (i : nat) (p : Point) :
  last (pointText len closed i p) = Some "]"%char.
Proof.
  unfold pointText.
  destruct ((i =? len - 1)%nat && closed); rewrite !app_assoc.
  - change (txt ",-1]") with (txt ",-1" ++ ["]"%char]).
    rewrite app_assoc. apply last_snoc.
  - apply last_snoc.
Qed.

(** The lines of a shape without the enclosing brackets. *)
Lemma bare_lines_chars (lines : list text) :
  lines <> [] ->
  Forall (fun l => solid l /\ l <> [] /\ last l = Some "]"%char) lines ->
  noBlankLine (join (txt "," ++ [LF]) lines)
  /\ Forall (fun c => c <> CR) (join (txt "," ++ [LF]) lines)
  /\ (exists c r, join (txt "," ++ [LF]) lines = c :: r /\ isSpace c = false)
  /\ last (join (txt "," ++ [LF]) lines) = Some "]"%char.
Proof.
  induction lines as [|l lines IH]; intros Hne Hall; [congruence|].
  inversion Hall as [|? ? (Hl & Hlne & Hlast) Hrest]; subst.
  destruct lines as [|l2 lines'].
  - cbn [join]. split; [|split; [|split]].
    + rewrite <- (app_nil_r l). apply noBlankLine_solid_app; [exact Hl|exact I].
    + rewrite <- (app_nil_r l). apply noCR_solid_app; [exact Hl|constructor].
    + destruct l as [|c r]; [congruence|]. inversion Hl; subst.
      exists c, r. split; [reflexivity|assumption].
    + exact Hlast.
  - rewrite join_cons_more by discriminate.
    rewrite comma_line.
    destruct (IH ltac:(discriminate) Hrest) as (Hnb & Hcr & (c & r & Hcr' & Hc) & Hla).
    split; [|split; [|split]].
    + apply noBlankLine_solid_app; [exact Hl|].
      cbn [noBlankLine]. split; [discriminate|]. split; [|exact Hnb].
      intros _. rewrite Hcr'. exact Hc.
    + apply noCR_solid_app; [exact Hl|].
      constructor; [discriminate|]. constructor; [discriminate|]. exact Hcr.
    + destruct l as [|c0 r0]; [congruence|]. inversion Hl; subst.
      eexists c0, _. split; [reflexivity|assumption].
    + rewrite last_app. rewrite Hcr'. rewrite Hcr' in Hla.
      change (last (","%char :: LF :: c :: r)) with (last (c :: r)).
      rewrite Hla. reflexivity.
Qed.

Lemma pointsText_chars (pts : list Point) (closed : bool) :
  pts <> [] -> Forall plainPoint pts ->
  noBlankLine (pointsText pts closed)
  /\ Forall (fun c => c <> CR) (pointsText pts closed)
  /\ (exists r, pointsText pts closed = "["%char :: r)
  /\ last (pointsText pts closed) = Some "]"%char.
Proof.
  intros Hne Hplain.
  destruct (bare_lines_chars (imap (pointText (length pts) closed) pts))
    as (Hnb & Hcr & _ & Hla).
  - apply imap_nonempty. exact Hne.
  - apply Forall_forall. intros l Hl.
    apply elem_of_lookup_imap in Hl as (i & p & -> & Hp).
    split; [|split; [apply pointText_nonempty|apply pointText_last]].
    apply pointText_solid.
    eapply Forall_forall; [exact Hplain|]. eapply list_elem_of_lookup_2. exact Hp.
  - split; [exact Hnb|]. split; [exact Hcr|]. split; [|exact Hla].
    apply pointsText_head. exact Hne.
Qed.

(** Blocks that are each read as the shapes [result] says, joined by
    blank lines, are read as all those shapes in order. *)
Lemma deserialize_blocks (blocks : list text) (result : list (list Shape)) :
  Forall2 (fun b res =>
             noBlankLine b /\ Forall (fun c => c <> CR) b
             /\ (exists r, b = "["%char :: r) /\ last b = Some "]"%char
             /\ scanBlock 0 b [] = res)
          blocks result ->
  deserialize (join [LF; LF] blocks) = concat result.
Proof.
  intros Hall. destruct Hall as [|b res blocks' result' Hb Hrest]; [reflexivity|].
  assert (Hall : Forall2 (fun b res =>
             noBlankLine b /\ Forall (fun c => c <> CR) b
             /\ (exists r, b = "["%char :: r) /\ last b = Some "]"%char
             /\ scanBlock 0 b [] = res) (b :: blocks') (res :: result')).
  { constructor; assumption. }
  clear Hb Hrest. set (blocks := b :: blocks') in *. set (result := res :: result') in *.
  assert (Hchars : Forall (fun b =>
            noBlankLine b /\ Forall (fun c => c <> CR) b
            /\ (exists r, b = "["%char :: r) /\ last b = Some "]"%char) blocks).
  { clearbody blocks result. induction Hall as [|? ? ? ? (H1 & H2 & H3 & H4 & _) _ IH];
      constructor; auto. }
  assert (Hbne : blocks <> []) by discriminate.
  assert (Hhead : exists r, join [LF; LF] blocks = "["%char :: r).
  { pose proof (Forall_inv Hchars) as (_ & _ & [r Hr] & _).
    eapply join_head. exact Hr. }
  assert (Hlast : last (join [LF; LF] blocks) = Some "]"%char).
  { apply join_last; [exact Hbne|].
    eapply Forall_impl; [exact Hchars|]. intros x (_ & _ & _ & H). exact H. }
  assert (Hcr : Forall (fun c => c <> CR) (join [LF; LF] blocks)).
  { apply join_noCR. eapply Forall_impl; [exact Hchars|].
    intros x (_ & H & _). exact H. }
  assert (Hsplit : splitBlocks (join [LF; LF] blocks) = blocks).
  { apply splitBlocks_join; [exact Hbne|].
    eapply Forall_impl; [exact Hchars|].
    intros x (Hnb & _ & [r Hr] & _). split; [exact Hnb|].
    exists "["%char, r. split; [exact Hr|reflexivity]. }
  unfold deserialize.
  rewrite (normalizeLineEndings_noCR _ Hcr).
  destruct Hhead as [r Hr]. rewrite Hr in Hlast.
  assert (Htrim : trim (join [LF; LF] blocks) = join [LF; LF] blocks).
  { rewrite Hr. apply (trim_solid_ends "["%char "]"%char r eq_refl Hlast eq_refl). }
  rewrite Htrim, Hsplit. rewrite Hr at 1.
  clearbody blocks result. clear -Hall.
  induction Hall as [|x y xs ys (_ & _ & [r Hr] & Hl & Hscan) _ IH]; [reflexivity|].
  cbn [map concat]. rewrite IH. f_equal.
  rewrite Hr in Hl |- *.
  rewrite (trim_solid_ends "["%char "]"%char r eq_refl Hl eq_refl).
  rewrite <- Hr. exact Hscan.
Qed.

Lemma subPathsCoords_shapes (sqrtQ : Q -> Q) (epsilon : num) (shouldResize : bool)
    (minDistance : num) (cv : Canvas) (isClosed : bool) (subPaths : list (list Point)) :
  forall coords,
    subPathsCoords sqrtQ epsilon shouldResize minDistance cv isClosed subPaths
    = Some coords ->
    exists shapes,
      coords = map shapeLines shapes
      /\ Forall (fun shape => (2 <= length (points shape))%nat) shapes.
Proof.
  induction subPaths as [|pathPoints rest IH]; intros coords H; cbn [subPathsCoords] in H.
  - injection H as <-. exists []. split; [reflexivity|constructor].
  - destruct (processSubPath sqrtQ epsilon shouldResize minDistance cv isClosed pathPoints)
      as [| |finalPoints closed] eqn:E; [discriminate|apply IH; exact H|].
    destruct (subPathsCoords _ _ _ _ _ _ rest) as [more|]; [|discriminate].
    injection H as <-.
    destruct (IH more eq_refl) as (shapes & -> & Hall).
    exists (mkShape finalPoints closed :: shapes).
    split; [reflexivity|]. constructor; [|exact Hall].
    cbn [points]. unfold processSubPath in E.
    destruct (length pathPoints <? 2)%nat; [discriminate|].
    destruct (ramerDouglasPeucker _ _ _ _) as [simplified|]; [|discriminate].
    destruct (length simplified <? 2)%nat; [discriminate|].
    destruct (length (filterPoints minDistance simplified) <? 2)%nat eqn:El;
      [discriminate|].
    injection E as <- _. apply Nat.ltb_ge in El. exact El.
Qed.

Lemma elementsCoords_shapes (sqrtQ : Q -> Q) (epsilon : num) (shouldResize : bool)
    (minDistance : num) (cv : Canvas) (elements : list Element) :
  forall coords,
    elementsCoords sqrtQ epsilon shouldResize minDistance cv elements = Some coords ->
    exists shapes,
      coords = map shapeLines shapes
      /\ Forall (fun shape => (2 <= length (points shape))%nat) shapes.
Proof.
  induction elements as [|el rest IH]; intros coords H; cbn [elementsCoords] in H.
  - injection H as <-. exists []. split; [reflexivity|constructor].
  - destruct (elementCoords sqrtQ epsilon shouldResize minDistance cv el)
      as [first|] eqn:E; [|discriminate].
    destruct (elementsCoords _ _ _ _ _ rest) as [more|]; [|discriminate].
    injection H as <-.
    destruct (IH more eq_refl) as (shapes2 & -> & Hall2).
    assert (H1 : exists shapes1,
               first = map shapeLines shapes1
               /\ Forall (fun shape => (2 <= length (points shape))%nat) shapes1).
    { unfold elementCoords in E.
      destruct (isBackgroundRect cv el).
      - injection E as <-. exists []. split; [reflexivity|constructor].
      - destruct (shapeToPath el) as [d closed].
        eapply subPathsCoords_shapes. exact E. }
    destruct H1 as (shapes1 & -> & Hall1).
    exists (shapes1 ++ shapes2). split; [rewrite map_app; reflexivity|].
    apply Forall_app. split; assumption.
Qed.

(** The preview reads the lines of shapes written without brackets. *)
Lemma deserialize_shapeLines (shapes : list Shape) :
  Forall (fun shape => points shape <> [] /\ Forall plainPoint (points shape)) shapes ->
  deserialize (join [LF; LF] (map shapeLines shapes)) = map roundShape shapes.
Proof.
  intros Hall.
  rewrite (deserialize_blocks (map shapeLines shapes)
             (map (fun shape => [roundShape shape]) shapes)).
  - induction shapes as [|shape shapes IH]; [reflexivity|].
    cbn [map concat app]. f_equal. apply IH. eapply Forall_inv_tail. exact Hall.
  - induction Hall as [|shape shapes [Hne Hplain] _ IH]; [constructor|].
    cbn [map]. constructor; [|exact IH].
    destruct (pointsText_chars (points shape) (isClosed shape) Hne Hplain)
      as (H1 & H2 & H3 & H4).
    unfold shapeLines. repeat split; try assumption.
    apply scanBlock_pointsText; assumption.
Qed.



(** X15: reading back what [shapesToString] wrote gives the document
    again, without its empty shapes and with each coordinate as rounded
    to two decimals, when the coordinates are written in plain decimal
    notation. *)
Theorem document_survives_serialisation (shapes : list Shape) :
  plainDocument shapes ->
  deserialize (shapesToString shapes)
  = map roundShape (filter (fun shape => nonEmpty (points shape) = true) shapes).
Proof.
  intros Hplain. rewrite shapesToString_blocks.
  apply deserialize_shape_blocks. apply plain_shapes_with_points. exact Hplain.
Qed.

Lemma document_survives_serialisation_witness :
  deserialize
    (shapesToString
       [mkShape [(nZ 10, nZ 10); (Fin (181 # 2), Fin (1 # 3))] true;
        mkShape [] false;
        mkShape [(Fin (- (1 # 1000)), nZ 0)] false])
  = map roundShape
      (filter (fun shape => nonEmpty (points shape) = true)
         [mkShape [(nZ 10, nZ 10); (Fin (181 # 2), Fin (1 # 3))] true;
          mkShape [] false;
          mkShape [(Fin (- (1 # 1000)), nZ 0)] false]).
Proof.
  apply (document_survives_serialisation
           [mkShape [(nZ 10, nZ 10); (Fin (181 # 2), Fin (1 # 3))] true;
            mkShape [] false;
            mkShape [(Fin (- (1 # 1000)), nZ 0)] false]).
  repeat constructor; vm_compute; congruence.
Defined.

(** *** What the preview reads is always a number *)

Lemma numberLang_finite (n : text) : numberLang n -> isFinite (parseFloat n) = true.
Proof.
  intros (sign & body & -> & Hsign & ip & frac & -> & [Hne Hip] & Hfrac).
  assert (E : exists neg fp, sign ++ ip ++ frac = numberText neg ip fp /\ allDigits fp).
  { destruct Hfrac as [->|(dot & fp & -> & -> & [Hfne Hfp])].
    - destruct Hsign as [->| ->].
      + exists false, []. split; [reflexivity|constructor].
      + exists true, []. split; [reflexivity|constructor].
    - destruct fp as [|f fp]; [contradiction|].
      destruct Hsign as [->| ->].
      + exists false, (f :: fp). split; [reflexivity|exact Hfp].
      + exists true, (f :: fp). split; [reflexivity|exact Hfp]. }
  destruct E as (neg & fp & -> & Hfp).
  rewrite (parseFloat_numberText neg ip fp Hip Hne Hfp). reflexivity.
Qed.

Lemma matchCoord_numbers (s n1 n2 : text) (sep : bool) (rest : text) :
  matchCoord s = Some (n1, n2, sep, rest) -> numberLang n1 /\ numberLang n2.
Proof.
  unfold matchCoord. destruct s as [|c0 s1]; [discriminate|].
  destruct (negb (ascii_eqb c0 "[")); [discriminate|].
  destruct (matchNumber (dropWhile isSpace s1)) as [[m1 s2]|] eqn:Em1; [|discriminate].
  apply matchNumber_sound in Em1 as [_ Hm1].
  destruct (dropWhile isSpace s2) as [|c1 s3]; [discriminate|].
  destruct (negb (ascii_eqb c1 ",")); [discriminate|].
  destruct (matchNumber (dropWhile isSpace s3)) as [[m2 s4]|] eqn:Em2; [|discriminate].
  apply matchNumber_sound in Em2 as [_ Hm2].
  destruct (dropWhile isSpace s4) as [|c2 s5]; [discriminate|].
  destruct (ascii_eqb c2 "]").
  - intros H. injection H as <- <- _ _. split; assumption.
  - destruct (ascii_eqb c2 ","); [|discriminate].
    destruct (dropWhile isSpace s5) as [|c3 [|c4 s6]]; try discriminate.
    destruct (ascii_eqb c3 "-" && ascii_eqb c4 "1"); [|discriminate].
    destruct (dropWhile isSpace s6) as [|c5 s7]; [discriminate|].
    destruct (ascii_eqb c5 "]"); [|discriminate].
    intros H. injection H as <- <- _ _. split; assumption.
Qed.

Lemma scanBlock_finite (block : text) : forall skip cur,
  Forall finitePoint cur ->
  Forall (fun shape => Forall finitePoint (points shape)) (scanBlock skip block cur).
Proof.
  induction block as [|c block IH]; intros skip cur Hcur.
  - cbn [scanBlock]. destruct (0 <? length cur)%nat; [|constructor].
    constructor; [exact Hcur|constructor].
  - cbn [scanBlock]. destruct skip as [|k]; [|apply IH; exact Hcur].
    destruct (matchCoord (c :: block)) as [[[[n1 n2] sep] rest]|] eqn:Em;
      [|apply IH; exact Hcur].
    apply matchCoord_numbers in Em as [H1 H2].
    assert (Hpts : Forall finitePoint (cur ++ [(parseFloat n1, parseFloat n2)])).
    { apply Forall_app. split; [exact Hcur|].
      constructor; [|constructor].
      split; apply numberLang_finite; assumption. }
    destruct sep; [|apply IH; exact Hpts].
    constructor; [exact Hpts|]. apply IH. constructor.
Qed.

(** X16: every coordinate that the preview reads from a text is a
    number (never NaN), whatever the text. *)
Theorem deserialized_coordinates_are_numbers (coordinates : text) :
  Forall (fun shape => Forall finitePoint (points shape)) (deserialize coordinates).
Proof.
  unfold deserialize. destruct (trim coordinates); [constructor|].
  apply Forall_concat, Forall_fmap, Forall_forall. intros block _.
  unfold compose.
  destruct (trim block); [constructor|]. apply scanBlock_finite. constructor.
Qed.

(** ** Undo and redo *)

Lemma text_eqb_false (a b : text) : text_eqb a b = false -> a <> b.
Proof.
  intros H E. apply text_eqb_eq in E. congruence.
Qed.

Lemma coordinatesOf_lookup (h : History) :
  (historyIndex h < length (history h))%nat ->
  history h !! historyIndex h = Some (coordinatesOf h).
Proof.
  intros Hidx. unfold coordinatesOf.
  destruct (lookup_lt_is_Some_2 _ _ Hidx) as [t Ht].
  rewrite Ht. f_equal. symmetry. apply nth_lookup_Some. exact Ht.
Qed.

Lemma historyStep_ok (sqrtQ : Q -> Q) (h : History) (e : HistoryEvent) :
  historyOk h -> historyOk (historyStep sqrtQ h e).
Proof.
  unfold historyOk. intros [Hidx Hadj].
  destruct e as [newCoords| | |fileChosen|eps resize minD svg]; cbn [historyStep].
  - unfold handleCoordinatesUpdate.
    destruct (text_eqb newCoords (coordinatesOf h)) eqn:E; [split; assumption|].
    apply text_eqb_false in E. cbn [history historyIndex].
    rewrite slice_from_0, length_app, length_take. cbn [length]. split; [lia|].
    intros i a b Ha Hb.
    assert (Hi : (S i < historyIndex h + 1 + 1)%nat).
    { apply lookup_lt_Some in Hb. rewrite length_app, length_take in Hb.
      cbn [length] in Hb. lia. }
    rewrite lookup_app_l in Ha by (rewrite length_take; lia).
    rewrite lookup_take_lt in Ha by lia.
    destruct (decide (S i < historyIndex h + 1)%nat) as [Hlt|Hge].
    + rewrite lookup_app_l in Hb by (rewrite length_take; lia).
      rewrite lookup_take_lt in Hb by lia. eauto.
    + assert (Ei : i = historyIndex h) by lia. subst i.
      rewrite lookup_app_r in Hb by (rewrite length_take; lia).
      rewrite length_take in Hb.
      replace (S (historyIndex h) - Init.Nat.min (historyIndex h + 1) (length (history h)))%nat
        with 0%nat in Hb by lia.
      injection Hb as <-.
      rewrite (coordinatesOf_lookup h Hidx) in Ha. injection Ha as <-.
      intros E'. apply E. symmetry. exact E'.
  - unfold handleUndo. destruct (0 <? historyIndex h)%nat; [|split; assumption].
    cbn [history historyIndex]. split; [lia|exact Hadj].
  - unfold handleRedo.
    destruct (historyIndex h <? length (history h) - 1)%nat eqn:E; [|split; assumption].
    apply Nat.ltb_lt in E. cbn [history historyIndex]. split; [lia|exact Hadj].
  - unfold handleFileChange. destruct fileChosen; [|split; assumption].
    cbn [history historyIndex length]. split; [lia|].
    intros i a b Ha Hb. destruct i; discriminate.
  - unfold handleProcess. destruct svg as [nodes|]; [|split; assumption].
    destruct (processSVG sqrtQ eps resize minD nodes);
      cbn [history historyIndex length]; (split; [lia|]);
      intros i a b Ha Hb; destruct i; discriminate.
Qed.

(** X17: after any sequence of edits, undos, redos, file selections and
    runs of the pipeline, the index points at an entry of the history,
    so that the text shown is that entry, and no two neighbouring
    entries of the history are the same text: every step of undo or redo
    that moves shows another text. *)
Theorem history_stays_well_formed (sqrtQ : Q -> Q) (events : list HistoryEvent) :
  (historyIndex (historyAfter sqrtQ events)
   < length (history (historyAfter sqrtQ events)))%nat
  /\ history (historyAfter sqrtQ events) !! historyIndex (historyAfter sqrtQ events)
     = Some (coordinatesOf (historyAfter sqrtQ events))
  /\ forall i a b,
       history (historyAfter sqrtQ events) !! i = Some a ->
       history (historyAfter sqrtQ events) !! S i = Some b ->
       a <> b.
Proof.
  assert (H : historyOk (historyAfter sqrtQ events)).
  { unfold historyAfter.
    apply (fold_left_invariant (fun h => historyOk h)).
    - intros h e. apply historyStep_ok.
    - unfold historyOk. cbn [initialHistory history historyIndex length].
      split; [lia|].
      intros i a b Ha Hb. destruct i; discriminate. }
  destruct H as [Hidx Hadj].
  split; [exact Hidx|]. split; [apply coordinatesOf_lookup; exact Hidx|exact Hadj].
Qed.

(** X18: an edit that changes the text can be taken back and brought
    again: after it the new text is shown, undo shows the text that was
    there before, and redo the new text once more. *)
Theorem edit_undo_redo (h : History) (newCoords : text) :
  (historyIndex h < length (history h))%nat ->
  newCoords <> coordinatesOf h ->
  coordinatesOf (handleCoordinatesUpdate h newCoords) = newCoords
  /\ coordinatesOf (handleUndo (handleCoordinatesUpdate h newCoords)) = coordinatesOf h
  /\ handleRedo (handleUndo (handleCoordinatesUpdate h newCoords))
     = handleCoordinatesUpdate h newCoords.
Proof.
  intros Hidx Hnew. unfold handleCoordinatesUpdate.
  destruct (text_eqb newCoords (coordinatesOf h)) eqn:E.
  { apply text_eqb_eq in E. contradiction. }
  rewrite slice_from_0.
  assert (Hlen : length (take (historyIndex h + 1) (history h) ++ [newCoords])
                 = (historyIndex h + 2)%nat).
  { rewrite length_app, length_take. cbn [length]. lia. }
  rewrite Hlen.
  replace (historyIndex h + 2 - 1)%nat with (S (historyIndex h)) by lia.
  assert (Hnth : forall i, (i <= historyIndex h)%nat ->
             nth i (take (historyIndex h + 1) (history h) ++ [newCoords]) []
             = nth i (history h) []).
  { intros i Hi. rewrite !nth_lookup, lookup_app_l by (rewrite length_take; lia).
    rewrite lookup_take_lt by lia. reflexivity. }
  split; [|split].
  - unfold coordinatesOf. cbn [history historyIndex].
    rewrite nth_lookup, lookup_app_r by (rewrite length_take; lia).
    rewrite length_take.
    replace (S (historyIndex h) - Init.Nat.min (historyIndex h + 1) (length (history h)))%nat
      with 0%nat by lia.
    reflexivity.
  - unfold handleUndo. cbn [history historyIndex Nat.ltb Nat.leb].
    unfold coordinatesOf at 1. cbn [history historyIndex].
    replace (S (historyIndex h) - 1)%nat with (historyIndex h) by lia.
    apply Hnth. lia.
  - unfold handleUndo. cbn [history historyIndex Nat.ltb Nat.leb].
    unfold handleRedo. cbn [history historyIndex]. rewrite Hlen.
    replace (S (historyIndex h) - 1)%nat with (historyIndex h) by lia.
    assert (E2 : (historyIndex h <? historyIndex h + 2 - 1)%nat = true)
      by (apply Nat.ltb_lt; lia).
    rewrite E2. f_equal. lia.
Qed.

Lemma edit_undo_redo_witness :
  coordinatesOf (handleCoordinatesUpdate (mkHistory [txt "[1,2]"; txt "[3,4]"] 0)
                   (txt "[5,6]"))
  = txt "[5,6]"
  /\ coordinatesOf
       (handleUndo (handleCoordinatesUpdate (mkHistory [txt "[1,2]"; txt "[3,4]"] 0)
                      (txt "[5,6]")))
     = coordinatesOf (mkHistory [txt "[1,2]"; txt "[3,4]"] 0)
  /\ handleRedo
       (handleUndo (handleCoordinatesUpdate (mkHistory [txt "[1,2]"; txt "[3,4]"] 0)
                      (txt "[5,6]")))
     = handleCoordinatesUpdate (mkHistory [txt "[1,2]"; txt "[3,4]"] 0) (txt "[5,6]").
Proof.
  apply (edit_undo_redo (mkHistory [txt "[1,2]"; txt "[3,4]"] 0) (txt "[5,6]")).
  - simpl. lia.
  - discriminate.
Defined.

(** X19: an edit made after undoing drops what could have been redone:
    the history is cut after the text that was shown and the new text
    is appended, so that redo no longer does anything. *)
Theorem edit_discards_redo (h : History) (newCoords : text) :
  (historyIndex h < length (history h))%nat ->
  newCoords <> coordinatesOf h ->
  history (handleCoordinatesUpdate h newCoords)
  = take (historyIndex h + 1) (history h) ++ [newCoords]
  /\ historyIndex (handleCoordinatesUpdate h newCoords) = (historyIndex h + 1)%nat
  /\ handleRedo (handleCoordinatesUpdate h newCoords) = handleCoordinatesUpdate h newCoords.
Proof.
  intros Hidx Hnew. unfold handleCoordinatesUpdate.
  destruct (text_eqb newCoords (coordinatesOf h)) eqn:E.
  { apply text_eqb_eq in E. contradiction. }
  rewrite slice_from_0. cbn [history historyIndex].
  assert (Hlen : length (take (historyIndex h + 1) (history h) ++ [newCoords])
                 = (historyIndex h + 2)%nat).
  { rewrite length_app, length_take. cbn [length]. lia. }
  rewrite Hlen.
  split; [reflexivity|]. split; [lia|].
  unfold handleRedo. cbn [history historyIndex]. rewrite Hlen.
  assert (E2 : (historyIndex h + 2 - 1 <? historyIndex h + 2 - 1)%nat = false)
    by (apply Nat.ltb_ge; lia).
  rewrite E2. reflexivity.
Qed.

Lemma edit_discards_redo_witness :
  history (handleCoordinatesUpdate (mkHistory [txt "a"; txt "b"; txt "c"] 0) (txt "d"))
  = take (0 + 1) [txt "a"; txt "b"; txt "c"] ++ [txt "d"]
  /\ historyIndex (handleCoordinatesUpdate (mkHistory [txt "a"; txt "b"; txt "c"] 0)
                     (txt "d"))
     = (0 + 1)%nat
  /\ handleRedo (handleCoordinatesUpdate (mkHistory [txt "a"; txt "b"; txt "c"] 0) (txt "d"))
     = handleCoordinatesUpdate (mkHistory [txt "a"; txt "b"; txt "c"] 0) (txt "d").
Proof.
  apply (edit_discards_redo (mkHistory [txt "a"; txt "b"; txt "c"] 0) (txt "d")).
  - simpl. lia.
  - discriminate.
Defined.

(** X20: undo and redo undo each other: wherever there is something to
    undo, redo after undo gives the state back, and wherever there is
    something to redo, undo after redo does. *)
Theorem undo_and_redo_are_inverse (h : History) :
  (historyIndex h < length (history h))%nat ->
  ((0 < historyIndex h)%nat -> handleRedo (handleUndo h) = h)
  /\ ((historyIndex h < length (history h) - 1)%nat -> handleUndo (handleRedo h) = h).
Proof.
  intros Hidx. destruct h as [texts idx]. cbn [history historyIndex] in *. split.
  - intros Hpos. unfold handleUndo. cbn [history historyIndex].
    assert (E : (0 <? idx)%nat = true) by (apply Nat.ltb_lt; exact Hpos).
    rewrite E. unfold handleRedo. cbn [history historyIndex].
    assert (E2 : (idx - 1 <? length texts - 1)%nat = true) by (apply Nat.ltb_lt; lia).
    rewrite E2. f_equal. lia.
  - intros Hlt. unfold handleRedo. cbn [history historyIndex].
    assert (E : (idx <? length texts - 1)%nat = true) by (apply Nat.ltb_lt; exact Hlt).
    rewrite E. unfold handleUndo. cbn [history historyIndex].
    assert (E2 : (0 <? idx + 1)%nat = true) by (apply Nat.ltb_lt; lia).
    rewrite E2. f_equal. lia.
Qed.

Lemma undo_and_redo_are_inverse_witness :
  ((0 < 1)%nat ->
   handleRedo (handleUndo (mkHistory [txt "a"; txt "b"; txt "c"] 1))
   = mkHistory [txt "a"; txt "b"; txt "c"] 1)
  /\ ((1 < 3 - 1)%nat ->
      handleUndo (handleRedo (mkHistory [txt "a"; txt "b"; txt "c"] 1))
      = mkHistory [txt "a"; txt "b"; txt "c"] 1).
Proof.
  apply (undo_and_redo_are_inverse (mkHistory [txt "a"; txt "b"; txt "c"] 1)).
  simpl. lia.
Defined.

(** ** Editing in the preview *)

Lemma deserialize_nonempty (coordinates : text) :
  Forall (fun shape => points shape <> []) (deserialize coordinates).
Proof.
  unfold deserialize. destruct (trim coordinates); [constructor|].
  apply Forall_concat, Forall_fmap, Forall_forall. intros block _.
  unfold compose.
  destruct (trim block); [constructor|apply scanBlock_points_nonempty].
Qed.

Lemma filter_all {A : Type} (P : A -> Prop) `{forall x, Decision (P x)} (l : list A) :
  Forall P l -> filter P l = l.
Proof.
  induction 1 as [|x l Hx _ IH]; [reflexivity|].
  rewrite filter_cons. destruct (decide (P x)); [|contradiction].
  rewrite IH. reflexivity.
Qed.

Lemma nonEmpty_iff {A : Type} (l : list A) : nonEmpty l = true <-> l <> [].
Proof.
  destruct l; split; intros H; try discriminate; try reflexivity; contradiction.
Qed.

(** A document without empty shapes comes back whole. *)
Lemma deserialize_shapesToString_full (shapes : list Shape) :
  plainDocument shapes ->
  Forall (fun shape => points shape <> []) shapes ->
  deserialize (shapesToString shapes) = map roundShape shapes.
Proof.
  intros Hplain Hne. rewrite (deserialize_shapesToString shapes Hplain).
  rewrite filter_all; [reflexivity|].
  eapply Forall_impl; [exact Hne|]. intros shape. apply nonEmpty_iff.
Qed.

Lemma addPoint_form (shapes : list Shape) (newPoint : Point) :
  exists earlier pts,
    addPoint shapes newPoint = earlier ++ [mkShape (pts ++ [newPoint]) false]
    /\ ((shapes = earlier /\ pts = []) \/ shapes = earlier ++ [mkShape pts false]).
Proof.
  unfold addPoint. destruct (last shapes) as [lastShape|] eqn:El.
  - destruct (isClosed lastShape) eqn:Ec.
    + exists shapes, []. split; [reflexivity|left; split; reflexivity].
    + apply last_Some in El as [earlier ->].
      exists earlier, (points lastShape).
      rewrite length_app. cbn [length].
      replace (length earlier + 1 - 1)%nat with (length earlier) by lia.
      rewrite take_app_length. split; [reflexivity|right].
      destruct lastShape as [pts closed]. cbn in *. subst closed. reflexivity.
  - exists shapes, []. split; [reflexivity|left; split; reflexivity].
Qed.

Lemma addPoint_open (earlier : list Shape) (pts : list Point) (newPoint : Point) :
  addPoint (earlier ++ [mkShape pts false]) newPoint
  = earlier ++ [mkShape (pts ++ [newPoint]) false].
Proof.
  unfold addPoint. rewrite last_snoc. cbn [isClosed points].
  rewrite length_app. cbn [length].
  replace (length earlier + 1 - 1)%nat with (length earlier) by lia.
  rewrite take_app_length. reflexivity.
Qed.

Lemma addPoint_closed (earlier : list Shape) (pts : list Point) (newPoint : Point) :
  addPoint (earlier ++ [mkShape pts true]) newPoint
  = (earlier ++ [mkShape pts true]) ++ [mkShape [newPoint] false].
Proof. unfold addPoint. rewrite last_snoc. reflexivity. Qed.

(** The text handed over after a click is read back as the document
    with the point added, coordinates rounded to two decimals. *)
Lemma click_reads_back (coordinates : text) (newPoint : Point) :
  plainDocument (deserialize coordinates) ->
  plainPoint newPoint ->
  deserialize (shapesToString (addPoint (deserialize coordinates) newPoint))
  = map roundShape (addPoint (deserialize coordinates) newPoint).
Proof.
  intros Hplain Hp.
  destruct (addPoint_form (deserialize coordinates) newPoint)
    as (earlier & pts & Hadd & Hcase).
  rewrite Hadd. pose proof (deserialize_nonempty coordinates) as Hne.
  assert (H : plainDocument earlier /\ Forall (fun shape => points shape <> []) earlier
              /\ Forall plainPoint pts).
  { destruct Hcase as [[E ->]| E]; rewrite E in Hplain, Hne.
    - split; [exact Hplain|]. split; [exact Hne|constructor].
    - apply Forall_app in Hplain as [H1 H2]. apply Forall_app in Hne as [H3 _].
      split; [exact H1|]. split; [exact H3|]. apply Forall_inv in H2. exact H2. }
  destruct H as (H1 & H2 & H3).
  apply deserialize_shapesToString_full.
  - apply Forall_app. split; [exact H1|]. constructor; [|constructor].
    cbn [points]. apply Forall_app. split; [exact H3|]. constructor; [exact Hp|constructor].
  - apply Forall_app. split; [exact H2|]. constructor; [|constructor].
    cbn [points]. intros E. apply app_eq_nil in E as [_ E]. discriminate E.
Qed.


(** The check that a text read by the preview is a plain document. *)
Ltac plain_document_check :=
  match goal with
  | |- plainDocument ?d =>
    let v := eval vm_compute in d in
    change (plainDocument v); repeat constructor; vm_compute; reflexivity
  end.




(** ** Polylines and polygons *)

Lemma replaceRuns_solid (repl a rest : text) :
  solid a ->
  replaceRuns isSpace repl (a ++ rest) = a ++ replaceRuns isSpace repl rest.
Proof.
  induction 1 as [|c a Hc _ IH]; [reflexivity|].
  cbn [app replaceRuns]. rewrite Hc, IH. reflexivity.
Qed.

Lemma argToken_solid (t : text) : argToken t -> solid t.
Proof.
  intros [_ H]. eapply Forall_impl; [exact H|]. apply argChar_not_space.
Qed.

Lemma pointPairText_solid (ab : text * text) :
  argToken ab.1 -> argToken ab.2 -> solid (pointPairText ab).
Proof.
  intros Ha Hb. unfold pointPairText.
  apply solid_app; [apply argToken_solid; exact Ha|].
  apply solid_app; [repeat constructor|apply argToken_solid; exact Hb].
Qed.

Lemma pointPairText_head (ab : text * text) :
  argToken ab.1 -> exists c r, pointPairText ab = c :: r /\ isSpace c = false.
Proof.
  intros [Hne Ha]. unfold pointPairText. destruct ab.1 as [|c r]; [contradiction|].
  exists c, (r ++ txt "," ++ ab.2). split; [reflexivity|].
  apply argChar_not_space. apply Forall_inv in Ha. exact Ha.
Qed.

Lemma replaceRuns_space (repl : text) (c : ascii) (r : text) :
  isSpace c = false ->
  replaceRuns isSpace repl (" "%char :: c :: r)
  = repl ++ replaceRuns isSpace repl (c :: r).
Proof.
  intros Hc. change (replaceRuns isSpace repl (" "%char :: c :: r))
    with (if isSpace " " then
            if isSpace c then replaceRuns isSpace repl (c :: r)
            else repl ++ replaceRuns isSpace repl (c :: r)
          else " "%char :: replaceRuns isSpace repl (c :: r)).
  rewrite Hc. reflexivity.
Qed.

(** Between the points of the attribute each space becomes [ L ]. *)
Lemma replaceRuns_points (pairs : list (text * text)) :
  Forall (fun ab => argToken ab.1 /\ argToken ab.2) pairs ->
  replaceRuns isSpace (txt " L ") (pointsAttribute pairs)
  = join (txt " L ") (map pointPairText pairs).
Proof.
  unfold pointsAttribute.
  induction 1 as [|ab pairs [Ha Hb] Hrest IH]; [reflexivity|].
  destruct pairs as [|ab2 pairs'].
  - cbn [map join]. rewrite <- (app_nil_r (pointPairText ab)) at 1.
    rewrite replaceRuns_solid by (apply pointPairText_solid; assumption).
    cbn [replaceRuns]. rewrite app_nil_r. reflexivity.
  - cbn [map].
    rewrite (join_cons_more (txt " ")), (join_cons_more (txt " L ")) by discriminate.
    rewrite replaceRuns_solid by (apply pointPairText_solid; assumption).
    f_equal. cbn [map] in IH. rewrite <- IH.
    apply Forall_inv in Hrest as [Ha2 _].
    destruct (pointPairText_head ab2 Ha2) as (c & r & Hc & Hsp).
    destruct pairs' as [|ab3 pairs''].
    + cbn [map join]. rewrite Hc. apply (replaceRuns_space _ c r Hsp).
    + cbn [map]. rewrite (join_cons_more (txt " ")) by discriminate. rewrite Hc.
      apply (replaceRuns_space _ c _ Hsp).
Qed.

Lemma join_concat (sep p : text) (rest : list text) :
  join sep (p :: rest) = p ++ concat (map (fun q => sep ++ q) rest).
Proof.
  revert p. induction rest as [|q rest IH]; intros p.
  - cbn. rewrite app_nil_r. reflexivity.
  - rewrite join_cons_more by discriminate. rewrite IH.
    cbn [map concat]. rewrite <- app_assoc. reflexivity.
Qed.

Lemma pointPairText_chunk (ab : text * text) :
  argToken ab.1 -> argToken ab.2 ->
  Forall (fun c => isCommandLetter c = false) (pointPairText ab).
Proof.
  intros [_ Ha] [_ Hb]. unfold pointPairText.
  apply Forall_app. split; [apply token_chunk; exact Ha|].
  apply Forall_app. split; [repeat constructor|apply token_chunk; exact Hb].
Qed.

(** The commands of the part of the description that follows the first
    point: one [L] for each further point, each with the spaces that
    follow it. *)
Lemma lineCommands (pairs : list (text * text)) (tail tailChunk : text)
    (tailCommands : list text) :
  Forall (fun ab => argToken ab.1 /\ argToken ab.2) pairs ->
  matchCommandsAux tail = (tailChunk, tailCommands) ->
  exists chunk commands,
    matchCommandsAux
      (concat (map (fun q => txt " L " ++ q) (map pointPairText pairs)) ++ tail)
    = (chunk, commands ++ tailCommands)
    /\ (chunk = [" "%char] \/ chunk = tailChunk)
    /\ Forall2 (fun command ab =>
                  exists ws, (ws = [" "%char] \/ ws = tailChunk)
                             /\ command = "L"%char :: " "%char :: pointPairText ab ++ ws)
               commands pairs.
Proof.
  intros Hall Htail. induction Hall as [|ab pairs [Ha Hb] _ IH].
  - exists tailChunk, []. split; [exact Htail|]. split; [right; reflexivity|constructor].
  - destruct IH as (chunk & commands & Hrest & Hchunk & Hcommands).
    exists [" "%char], (("L"%char :: " "%char :: pointPairText ab ++ chunk) :: commands).
    split; [|split; [left; reflexivity|]].
    + cbn [map concat]. rewrite <- !app_assoc.
      cbn [txt list_ascii_of_string app].
      apply matchCommandsAux_char; [reflexivity|].
      apply matchCommandsAux_letter; [reflexivity|].
      apply matchCommandsAux_char; [reflexivity|].
      apply matchCommandsAux_chunk; [apply pointPairText_chunk; assumption|].
      exact Hrest.
    + constructor; [|exact Hcommands]. exists chunk. split; [exact Hchunk|reflexivity].
Qed.

Lemma args_pair (a b ws : text) :
  argToken a -> argToken b -> Forall (fun c => isSpace c = true) ws ->
  map parseFloat (runs isArgChar (trim (" "%char :: (a ++ txt "," ++ b) ++ ws)))
  = [parseFloat a; parseFloat b].
Proof.
  intros [Hna Ha] [Hnb Hb] Hws. rewrite runs_trim, runs_sep by reflexivity.
  rewrite <- !app_assoc. cbn [txt list_ascii_of_string app].
  rewrite runs_token by (assumption || reflexivity).
  unfold runs. rewrite runsAux_app_none.
  - fold (runs isArgChar b). rewrite runs_token_end by assumption. reflexivity.
  - eapply Forall_impl; [exact Hws|]. apply space_not_argChar.
Qed.

(** Carrying out the [L] commands appends the points in order. *)
Lemma exec_lineCommands (tailChunk : text) (commands : list text)
    (pairs : list (text * text)) :
  Forall (fun c => isSpace c = true) tailChunk ->
  Forall (fun ab => argToken ab.1 /\ argToken ab.2) pairs ->
  Forall2 (fun command ab =>
             exists ws, (ws = [" "%char] \/ ws = tailChunk)
                        /\ command = "L"%char :: " "%char :: pointPairText ab ++ ws)
          commands pairs ->
  forall st,
    exists x y,
      fold_left execCommand commands st
      = mkPathState (st_paths st) (st_currentPath st ++ map pairPoint pairs)
                    x y (st_startX st) (st_startY st).
Proof.
  intros Htail Hall H. revert Hall.
  induction H as [|command ab commands pairs (ws & Hws & ->) _ IH]; intros Hall st.
  - exists (st_x st), (st_y st). cbn [fold_left map]. rewrite app_nil_r.
    destruct st; reflexivity.
  - inversion Hall as [|? ? [Ha Hb] Hrest]; subst.
    cbn [fold_left]. rewrite exec_L.
    assert (Hsp : Forall (fun c => isSpace c = true) ws).
    { destruct Hws as [->| ->]; [repeat constructor|exact Htail]. }
    rewrite (args_pair _ _ ws Ha Hb Hsp :
               map parseFloat (runs isArgChar (trim (" "%char :: pointPairText ab ++ ws)))
               = [parseFloat ab.1; parseFloat ab.2]).
    change (loopIndices (length [parseFloat ab.1; parseFloat ab.2]) 2) with [0%nat].
    change (fold_left (lineto false [parseFloat ab.1; parseFloat ab.2]) [0%nat] st)
      with (lineto false [parseFloat ab.1; parseFloat ab.2] st 0).
    destruct (IH Hrest (lineto false [parseFloat ab.1; parseFloat ab.2] st 0))
      as (x & y & ->).
    exists x, y. unfold lineto, resolve, arg.
    cbn [st_paths st_currentPath st_startX st_startY nth Nat.add map].
    rewrite <- app_assoc. reflexivity.
Qed.

Lemma join_last_solid (sep : text) (blocks : list text) :
  blocks <> [] -> Forall (fun b => solid b /\ b <> []) blocks ->
  exists d, last (join sep blocks) = Some d /\ isSpace d = false.
Proof.
  induction blocks as [|b blocks IH]; intros Hne Hall; [contradiction|].
  inversion Hall as [|? ? [Hb Hbne] Hrest]; subst.
  destruct blocks as [|b2 blocks'].
  - cbn [join]. destruct (last b) as [d|] eqn:El.
    + exists d. split; [reflexivity|].
      apply last_Some in El as [b' ->]. apply Forall_app in Hb as [_ Hd].
      apply Forall_inv in Hd. exact Hd.
    + apply last_None in El. contradiction.
  - rewrite join_cons_more by discriminate.
    destruct (IH ltac:(discriminate) Hrest) as (d & Hd & Hsp).
    exists d. split; [|exact Hsp].
    rewrite !last_app, Hd. reflexivity.
Qed.

Lemma pointPairText_nonempty (ab : text * text) : pointPairText ab <> [].
Proof.
  unfold pointPairText. intros E. apply app_eq_nil in E as [_ E]. discriminate E.
Qed.

(** The attribute as written has no white space at its ends. *)
Lemma pointsAttribute_trim (first : text * text) (rest : list (text * text)) :
  Forall (fun ab => argToken ab.1 /\ argToken ab.2) (first :: rest) ->
  exists c r,
    pointsAttribute (first :: rest) = c :: r
    /\ trim (pointsAttribute (first :: rest)) = c :: r.
Proof.
  intros Hall. unfold pointsAttribute. cbn [map].
  pose proof (Forall_inv Hall) as [Ha _].
  destruct (pointPairText_head first Ha) as (c & r0 & Hc & Hsp).
  destruct (join_head (txt " ") (pointPairText first) (map pointPairText rest) c r0 Hc)
    as [r Hr].
  destruct (join_last_solid (txt " ") (map pointPairText (first :: rest)))
    as (d & Hd & Hdsp).
  - discriminate.
  - apply Forall_fmap. eapply Forall_impl; [exact Hall|].
    intros ab [H1 H2]. split; [apply pointPairText_solid; assumption|].
    apply pointPairText_nonempty.
  - cbn [map] in Hd. exists c, r. split; [exact Hr|].
    rewrite Hr in Hd |- *. apply (trim_solid_ends c d r Hsp Hd Hdsp).
Qed.

(** The description [M p1 L p2 ... L pn] with what follows it. *)
Lemma poly_path (first : text * text) (rest : list (text * text))
    (tail tailChunk : text) (tailCommands : list text) :
  Forall (fun ab => argToken ab.1 /\ argToken ab.2) (first :: rest) ->
  matchCommandsAux tail = (tailChunk, tailCommands) ->
  Forall (fun c => isSpace c = true) tailChunk ->
  exists x y,
    parsePathData
      (txt "M " ++ join (txt " L ") (map pointPairText (first :: rest)) ++ tail)
    = finishPaths
        (fold_left execCommand tailCommands
           (mkPathState [] (map pairPoint (first :: rest)) x y
                        (parseFloat first.1) (parseFloat first.2))).
Proof.
  intros Hall Htail Hsp.
  inversion Hall as [|? ? [Ha Hb] Hrest]; subst.
  destruct (lineCommands rest tail tailChunk tailCommands Hrest Htail)
    as (chunk & commands & Hcommands & Hchunk & Hforall).
  destruct (exec_lineCommands tailChunk commands rest Hsp Hrest Hforall
              (mkPathState [] [pairPoint first] (parseFloat first.1) (parseFloat first.2)
                           (parseFloat first.1) (parseFloat first.2)))
    as (x & y & Hexec).
  exists x, y.
  cbn [map]. rewrite join_concat, <- app_assoc.
  cbn [txt list_ascii_of_string app]. unfold parsePathData, matchCommands.
  rewrite (matchCommandsAux_letter "M" _ (" "%char :: pointPairText first ++ chunk)
             (commands ++ tailCommands)).
  - cbn [snd]. unfold runCommands. cbn [fold_left]. rewrite fold_left_app.
    rewrite exec_M.
    assert (Hws : Forall (fun c => isSpace c = true) chunk).
    { destruct Hchunk as [->| ->]; [repeat constructor|exact Hsp]. }
    rewrite (args_pair _ _ chunk Ha Hb Hws : 
               map parseFloat (runs isArgChar (trim (" "%char :: pointPairText first ++ chunk)))
               = [parseFloat first.1; parseFloat first.2]).
    change (loopIndices (length [parseFloat first.1; parseFloat first.2]) 2)
      with [0%nat].
    change (fold_left (moveto false [parseFloat first.1; parseFloat first.2]) [0%nat]
              initialPathState)
      with (mkPathState [] [pairPoint first] (parseFloat first.1) (parseFloat first.2)
                        (parseFloat first.1) (parseFloat first.2)).
    rewrite Hexec. reflexivity.
  - reflexivity.
  - apply matchCommandsAux_char; [reflexivity|].
    apply matchCommandsAux_chunk; [apply pointPairText_chunk; assumption|].
    exact Hcommands.
Qed.

(** X23: a polygon whose [points] attribute is a list of points written
    as two number tokens with a comma between them, one space between
    the points, is turned into one closed subpath: its points in order
    and the first point once more. *)
Theorem polygon_becomes_its_points (el : Element) (first : text * text)
    (rest : list (text * text)) :
  tagIs el "polygon" = true ->
  Forall (fun ab => argToken ab.1 /\ argToken ab.2) (first :: rest) ->
  getAttribute el (txt "points") = Some (pointsAttribute (first :: rest)) ->
  (shapeToPath el).2 = true
  /\ parsePathData (shapeToPath el).1
     = [map pairPoint (first :: rest) ++ [pairPoint first]].
Proof.
  intros Htag Hall Hattr. unfold shapeToPath.
  rewrite (tagIs_unique el "polygon" "path" Htag) by discriminate.
  rewrite (tagIs_unique el "polygon" "rect" Htag) by discriminate.
  rewrite (tagIs_unique el "polygon" "circle" Htag) by discriminate.
  rewrite (tagIs_unique el "polygon" "ellipse" Htag) by discriminate.
  rewrite (tagIs_unique el "polygon" "line" Htag) by discriminate.
  rewrite (tagIs_unique el "polygon" "polyline" Htag) by discriminate.
  rewrite Htag, Hattr. cbn [fst snd option_map]. split; [reflexivity|].
  destruct (pointsAttribute_trim first rest Hall) as (c & r & Hc & ->).
  cbn [orElse]. rewrite <- Hc, (replaceRuns_points _ Hall).
  destruct (poly_path first rest (txt " Z") [" "%char] [["Z"%char]] Hall eq_refl)
    as (x & y & ->); [repeat constructor|].
  reflexivity.
Qed.

(** X24: a polyline written in the same way is turned into one open
    subpath of its points in order. *)
Theorem polyline_becomes_its_points (el : Element) (first : text * text)
    (rest : list (text * text)) :
  tagIs el "polyline" = true ->
  Forall (fun ab => argToken ab.1 /\ argToken ab.2) (first :: rest) ->
  getAttribute el (txt "points") = Some (pointsAttribute (first :: rest)) ->
  (shapeToPath el).2 = false
  /\ parsePathData (shapeToPath el).1 = [map pairPoint (first :: rest)].
Proof.
  intros Htag Hall Hattr. unfold shapeToPath.
  rewrite (tagIs_unique el "polyline" "path" Htag) by discriminate.
  rewrite (tagIs_unique el "polyline" "rect" Htag) by discriminate.
  rewrite (tagIs_unique el "polyline" "circle" Htag) by discriminate.
  rewrite (tagIs_unique el "polyline" "ellipse" Htag) by discriminate.
  rewrite (tagIs_unique el "polyline" "line" Htag) by discriminate.
  rewrite Htag, Hattr. cbn [fst snd option_map]. split; [reflexivity|].
  destruct (pointsAttribute_trim first rest Hall) as (c & r & Hc & ->).
  cbn [orElse]. rewrite <- Hc, (replaceRuns_points _ Hall).
  rewrite <- (app_nil_r (join _ _)).
  destruct (poly_path first rest [] [] [] Hall eq_refl) as (x & y & ->); [constructor|].
  reflexivity.
Qed.

Ltac token_pairs_check :=
  repeat (constructor; [split; (split; [discriminate|repeat constructor])|]);
  constructor.

Lemma polygon_becomes_its_points_witness :
  (shapeToPath (element "polygon" [attr "points" "0,0 10,0 10,-7.5"])).2 = true
  /\ parsePathData (shapeToPath (element "polygon" [attr "points" "0,0 10,0 10,-7.5"])).1
     = [map pairPoint [(txt "0", txt "0"); (txt "10", txt "0"); (txt "10", txt "-7.5")]
          ++ [pairPoint (txt "0", txt "0")]].
Proof.
  apply (polygon_becomes_its_points
           (element "polygon" [attr "points" "0,0 10,0 10,-7.5"])
           (txt "0", txt "0") [(txt "10", txt "0"); (txt "10", txt "-7.5")]).
  - reflexivity.
  - token_pairs_check.
  - reflexivity.
Defined.

Lemma polyline_becomes_its_points_witness :
  (shapeToPath (element "polyline" [attr "points" "0,0 10,0 10,-7.5"])).2 = false
  /\ parsePathData (shapeToPath (element "polyline" [attr "points" "0,0 10,0 10,-7.5"])).1
     = [map pairPoint [(txt "0", txt "0"); (txt "10", txt "0"); (txt "10", txt "-7.5")]].
Proof.
  apply (polyline_becomes_its_points
           (element "polyline" [attr "points" "0,0 10,0 10,-7.5"])
           (txt "0", txt "0") [(txt "10", txt "0"); (txt "10", txt "-7.5")]).
  - reflexivity.
  - token_pairs_check.
  - reflexivity.
Defined.

(** ** The view box of the preview *)

Lemma splitChar_token (tok rest : text) :
  Forall (fun c => isArgChar c = true) tok ->
  splitChar " " (tok ++ " "%char :: rest) = tok :: splitChar " " rest.
Proof.
  induction 1 as [|c tok Hc _ IH]; [reflexivity|].
  cbn [app splitChar]. rewrite IH.
  assert (E : ascii_eqb c " " = false).
  { apply ascii_eqb_neq. intros ->. discriminate Hc. }
  rewrite E. reflexivity.
Qed.

Lemma splitChar_token_end (tok : text) :
  Forall (fun c => isArgChar c = true) tok -> splitChar " " tok = [tok].
Proof.
  induction 1 as [|c tok Hc _ IH]; [reflexivity|].
  cbn [splitChar]. rewrite IH.
  assert (E : ascii_eqb c " " = false).
  { apply ascii_eqb_neq. intros ->. discriminate Hc. }
  rewrite E. reflexivity.
Qed.

Lemma readsInfinity_token (tok : text) :
  Forall (fun c => isArgChar c = true) tok -> readsInfinity tok = false.
Proof.
  assert (HI : forall c, isArgChar c = true -> ascii_eqb "I" c = false).
  { intros c Hc. apply ascii_eqb_neq. intros <-. discriminate Hc. }
  intros Htok. destruct Htok as [|c tok Hc Htok]; [reflexivity|].
  unfold readsInfinity, trimStart. cbn [dropWhile].
  rewrite (argChar_not_space c Hc).
  destruct (ascii_eqb c "-" || ascii_eqb c "+").
  - destruct Htok as [|c2 tok Hc2 _]; [reflexivity|].
    cbn [txt list_ascii_of_string startsWith]. rewrite (HI c2 Hc2). reflexivity.
  - cbn [txt list_ascii_of_string startsWith]. rewrite (HI c Hc). reflexivity.
Qed.

(** X26: when the four numbers of the view box have at most six
    decimals (below 10^21), the stroke width read back from its text is
    one two-hundredth of the width of the view box, and 0.5 when that
    width is zero. *)
Theorem stroke_width_from_view_box (x y width height : num) (w : Q) :
  decimalNumber x -> decimalNumber y -> decimalNumber width -> decimalNumber height ->
  width = Fin w ->
  exists s,
    strokeWidth (frameText (FrameNumbers x y width height)) = Some (Fin s)
    /\ (~ w == 0 -> s == w / 200)
    /\ (w == 0 -> s == 1 # 2).
Proof.
  intros Hx Hy Hw Hh ->.
  destruct (decimal_token _ Hx) as [[_ Tx] _]. destruct (decimal_token _ Hy) as [[_ Ty] _].
  destruct (decimal_token _ Hw) as [[_ Tw] Ew]. destruct (decimal_token _ Hh) as [[_ Th] _].
  unfold strokeWidth, frameText. cbn [txt list_ascii_of_string app].
  rewrite !splitChar_token by assumption.
  rewrite splitChar_token_end by assumption.
  cbn [map nth_error]. unfold parseFloatOrInfinity.
  rewrite (readsInfinity_token _ Tw).
  destruct (parseFloat (numToString (Fin w))) as [v|]; [|contradiction].
  cbn [num_eq] in Ew.
  destruct (Qeq_bool v 0) eqn:Ev.
  - apply Qeq_bool_iff in Ev. unfold ndiv, nZ.
    change (Qeq_bool (inject_Z 200) 0) with false. cbv iota.
    eexists. split; [reflexivity|]. split.
    + intros Hnz. exfalso. apply Hnz. rewrite <- Ew. exact Ev.
    + intros _. reflexivity.
  - unfold ndiv, nZ. change (Qeq_bool (inject_Z 200) 0) with false. cbv iota.
    eexists. split; [reflexivity|]. split.
    + intros _. rewrite Ew. reflexivity.
    + intros Hz. exfalso. rewrite <- Ew in Hz. apply Qeq_bool_iff in Hz. congruence.
Qed.

Lemma stroke_width_from_view_box_witness :
  exists s,
    strokeWidth
      (frameText (FrameNumbers (Fin (- 3 # 4)) (Fin (- 3 # 4)) (Fin (23 # 2)) (Fin (13 # 2))))
    = Some (Fin s)
    /\ (~ 23 # 2 == 0 -> s == (23 # 2) / 200)
    /\ (23 # 2 == 0 -> s == 1 # 2).
Proof.
  apply (stroke_width_from_view_box (Fin (- 3 # 4)) (Fin (- 3 # 4)) (Fin (23 # 2))
           (Fin (13 # 2)) (23 # 2)).
  - decimal_check.
  - decimal_check.
  - decimal_check.
  - decimal_check.
  - reflexivity.
Defined.

(** ** More simplification with a larger epsilon *)

Lemma ngt_weaken (dmax epsilon1 epsilon2 : num) :
  (epsilon1 <=? epsilon2)%num = true ->
  (dmax >? epsilon2)%num = true -> (dmax >? epsilon1)%num = true.
Proof.
  destruct dmax as [d|], epsilon1 as [e1|], epsilon2 as [e2|]; try discriminate.
  intros H1 H2. apply Qle_bool_iff in H1. apply ngt_Fin in H2. apply ngt_Fin. lra.
Qed.

(** Whenever both runs return, the one with the larger [epsilon] returns
    a subsequence of the other. *)
Lemma rdp_monotone (sqrtQ : Q -> Q) (epsilon1 epsilon2 : num) (fuel1 : nat) :
  (epsilon1 <=? epsilon2)%num = true ->
  forall fuel2 points r1 r2,
    ramerDouglasPeucker sqrtQ fuel1 points epsilon1 = Some r1 ->
    ramerDouglasPeucker sqrtQ fuel2 points epsilon2 = Some r2 ->
    r2 `sublist_of` r1.
Proof.
  intros Hle. induction fuel1 as [|fuel1 IH]; intros fuel2 points r1 r2 H1 H2;
    [discriminate|].
  destruct fuel2 as [|fuel2]; [discriminate|].
  pose proof (rdp_sound sqrtQ (S fuel1) _ _ _ H1) as (_ & Hhead & Hlast).
  pose proof (rdp_length sqrtQ (S fuel1) _ _ _ H1) as Hlen1.
  cbn [ramerDouglasPeucker] in H1, H2.
  destruct (length points <? 3)%nat eqn:Elen.
  { injection H1 as <-. injection H2 as <-. reflexivity. }
  apply Nat.ltb_ge in Elen.
  pose proof (farthest_index sqrtQ points (length points - 1)) as Hidx.
  destruct (farthest sqrtQ points (length points - 1)) as [dmax index].
  cbn [fst snd] in Hidx.
  destruct (ngt dmax epsilon2) eqn:Hgt2.
  - rewrite (ngt_weaken _ _ _ Hle Hgt2) in H1.
    destruct (ramerDouglasPeucker sqrtQ fuel1 (slice points 0 (index + 1)) epsilon1)
      as [a1|] eqn:Ea1; [|discriminate].
    destruct (ramerDouglasPeucker sqrtQ fuel1 (slice points index (length points)) epsilon1)
      as [b1|] eqn:Eb1; [|discriminate].
    destruct (ramerDouglasPeucker sqrtQ fuel2 (slice points 0 (index + 1)) epsilon2)
      as [a2|] eqn:Ea2; [|discriminate].
    destruct (ramerDouglasPeucker sqrtQ fuel2 (slice points index (length points)) epsilon2)
      as [b2|] eqn:Eb2; [|discriminate].
    injection H1 as <-. injection H2 as <-.
    pose proof (IH _ _ _ _ Ea1 Ea2) as Sa. pose proof (IH _ _ _ _ Eb1 Eb2) as Sb.
    apply sublist_app; [|exact Sb].
    pose proof (rdp_sound sqrtQ _ _ _ _ Ea1) as (_ & _ & La1).
    pose proof (rdp_sound sqrtQ _ _ _ _ Ea2) as (_ & _ & La2).
    rewrite slice_from_0 in La1, La2.
    assert (Hk : exists x, last (take (index + 1) points) = Some x).
    { destruct (last (take (index + 1) points)) as [x|] eqn:E; [eauto|].
      apply last_None in E. apply (f_equal length) in E.
      rewrite length_take in E. cbn [length] in E. lia. }
    destruct Hk as [x Hx]. rewrite Hx in La1, La2.
    apply last_Some in La1 as [a1' ->]. apply last_Some in La2 as [a2' ->].
    rewrite !slice_from_0, !length_app. cbn [length].
    replace (length a1' + 1 - 1)%nat with (length a1') by lia.
    replace (length a2' + 1 - 1)%nat with (length a2') by lia.
    rewrite !take_app_length.
    apply sublist_app_inv_r in Sa. exact Sa.
  - injection H2 as <-.
    destruct (ends_sublist points ltac:(lia)) as (_ & Hh & Hl).
    rewrite Hh in Hhead. rewrite Hl in Hlast.
    specialize (Hlen1 ltac:(lia)).
    destruct r1 as [|p0 r1]; [cbn in Hlen1; lia|].
    cbn [head] in Hhead. injection Hhead as ->.
    apply sublist_skip.
    destruct (last r1) as [pl|] eqn:El.
    + apply last_Some in El as [mid ->].
      assert (E : last (at_ points 0 :: mid ++ [pl]) = Some pl).
      { change (at_ points 0 :: mid ++ [pl]) with ((at_ points 0 :: mid) ++ [pl]).
        apply last_snoc. }
      rewrite E in Hlast. injection Hlast as ->.
      apply sublist_inserts_l. reflexivity.
    + apply last_None in El. subst r1. cbn in Hlen1. lia.
Qed.

(** X28: raising [epsilon] only removes points: for two values of
    [epsilon] that are not negative, the simplification with the larger
    one returns a subsequence of what it returns with the smaller
    one. *)
Theorem larger_epsilon_keeps_fewer_points (sqrtQ : Q -> Q) (points : list Point)
    (epsilon1 epsilon2 : num) (fuel : nat) :
  (nZ 0 <=? epsilon1)%num = true ->
  (epsilon1 <=? epsilon2)%num = true ->
  (length points < fuel)%nat ->
  exists r1 r2,
    ramerDouglasPeucker sqrtQ fuel points epsilon1 = Some r1
    /\ ramerDouglasPeucker sqrtQ fuel points epsilon2 = Some r2
    /\ r2 `sublist_of` r1.
Proof.
  intros H0 Hle Hfuel.
  destruct epsilon1 as [e1|]; [|discriminate].
  destruct epsilon2 as [e2|]; [|discriminate].
  apply Qle_bool_iff in H0 as H0'. apply Qle_bool_iff in Hle as Hle'.
  destruct (rdp_returns sqrtQ fuel points (Fin e1)) as [r1 Hr1]; [|exact Hfuel|].
  { apply Qlt_bool_false. exact H0'. }
  destruct (rdp_returns sqrtQ fuel points (Fin e2)) as [r2 Hr2]; [|exact Hfuel|].
  { apply Qlt_bool_false. change (inject_Z 0) with 0 in *. lra. }
  exists r1, r2. split; [exact Hr1|]. split; [exact Hr2|].
  exact (rdp_monotone sqrtQ _ _ fuel Hle fuel points r1 r2 Hr1 Hr2).
Qed.

Lemma larger_epsilon_keeps_fewer_points_witness :
  exists r1 r2,
    ramerDouglasPeucker sqrt_floor 6
      [(nZ 0, nZ 0); (nZ 1, nZ 5); (nZ 2, nZ 0); (nZ 3, nZ 7); (nZ 9, nZ 9)] (nZ 1)
    = Some r1
    /\ ramerDouglasPeucker sqrt_floor 6
         [(nZ 0, nZ 0); (nZ 1, nZ 5); (nZ 2, nZ 0); (nZ 3, nZ 7); (nZ 9, nZ 9)] (nZ 4)
       = Some r2
    /\ r2 `sublist_of` r1.
Proof.
  apply (larger_epsilon_keeps_fewer_points sqrt_floor
           [(nZ 0, nZ 0); (nZ 1, nZ 5); (nZ 2, nZ 0); (nZ 3, nZ 7); (nZ 9, nZ 9)]
           (nZ 1) (nZ 4) 6).
  - reflexivity.
  - reflexivity.
  - simpl. lia.
Defined.

(** * Properties of the pipeline on doubles *)

(** ** The order of doubles *)

Ltac compare_doubles :=
  unfold Double.dgt, Double.dlt, SFltb, SFcompare in *;
  repeat match goal with
         | s : bool |- _ => destruct s
         end;
  change Pos.compare_cont with (fun c a b => Pos.compare_cont c a b) in *;
  cbv beta in *;
  repeat match goal with
         | H : context [Pos.compare_cont Eq ?a ?b] |- _ =>
           change (Pos.compare_cont Eq a b) with (Pos.compare a b) in H
         | |- context [Pos.compare_cont Eq ?a ?b] =>
           change (Pos.compare_cont Eq a b) with (Pos.compare a b)
         end;
  repeat match goal with
         | H : context [Z.compare ?a ?b] |- _ => destruct (Z.compare_spec a b)
         | |- context [Z.compare ?a ?b] => destruct (Z.compare_spec a b)
         | H : context [Pos.compare ?a ?b] |- _ => destruct (Pos.compare_spec a b)
         | |- context [Pos.compare ?a ?b] => destruct (Pos.compare_spec a b)
         end;
  cbn [CompOpp] in *;
  try discriminate; try reflexivity; try lia.

Lemma dgt_trans (a b c : Double.double) :
  Double.dgt a b = true -> Double.dgt b c = true -> Double.dgt a c = true.
Proof.
  destruct a as [sa|sa| |sa ma ea], b as [sb|sb| |sb mb eb], c as [sc|sc| |sc mc ec];
    intros H1 H2; compare_doubles.
Qed.

(** Of two numbers, one that is not greater than the other is at most
    equal to it. *)
Lemma dgt_le_trans (a b c : Double.double) :
  Double.dgt a c = true -> Double.dgt a b = false -> b <> S754_nan ->
  Double.dgt b c = true.
Proof.
  destruct a as [sa|sa| |sa ma ea], b as [sb|sb| |sb mb eb], c as [sc|sc| |sc mc ec];
    intros H1 H2 Hb; try congruence; compare_doubles.
Qed.

Lemma dgt_not_nan (a b : Double.double) : Double.dgt a b = true -> a <> S754_nan.
Proof. intros H ->. destruct b; discriminate. Qed.

(** ** Simplification on doubles *)

Lemma double_farthest_fold_index points end_ (l : list nat) (acc : Double.double * nat) :
  Forall (fun i => (1 <= i < end_)%nat) l ->
  (acc.2 = 0%nat /\ acc.1 = Double.ofZ 0) \/ (1 <= acc.2 < end_)%nat ->
  ((fold_left (Double.farthestStep points end_) l acc).2 = 0%nat
   /\ (fold_left (Double.farthestStep points end_) l acc).1 = Double.ofZ 0)
  \/ (1 <= (fold_left (Double.farthestStep points end_) l acc).2 < end_)%nat.
Proof.
  revert acc. induction l as [|i l IH]; intros acc Hl Hinv; simpl.
  - exact Hinv.
  - inversion Hl as [|? ? Hi Hl']; subst.
    apply IH; [assumption|]. unfold Double.farthestStep.
    destruct (Double.dgt _ _); [right; exact Hi | exact Hinv].
Qed.

(** The loop leaves [index] at 0 with [dmax] at 0, or at an interior
    position. *)
Lemma double_farthest_index points end_ :
  ((Double.farthest points end_).2 = 0%nat
   /\ (Double.farthest points end_).1 = Double.ofZ 0)
  \/ (1 <= (Double.farthest points end_).2 < end_)%nat.
Proof.
  unfold Double.farthest. apply double_farthest_fold_index.
  - apply Forall_forall. intros i Hi. apply list_elem_of_In, in_seq in Hi. lia.
  - left. split; reflexivity.
Qed.

Lemma double_at_lookup (l : list Double.Point) (i : nat) (p : Double.Point) :
  l !! i = Some p -> Double.at_ l i = p.
Proof. intros H. unfold Double.at_. apply nth_lookup_Some. exact H. Qed.

Lemma double_at_last (l : list Double.Point) (p : Double.Point) :
  Double.at_ (l ++ [p]) (length (l ++ [p]) - 1) = p.
Proof.
  apply double_at_lookup. rewrite length_app. simpl.
  replace (length l + 1 - 1)%nat with (length l) by lia.
  apply list_lookup_middle. reflexivity.
Qed.

Lemma double_ends_sublist (l : list Double.Point) :
  (2 <= length l)%nat ->
  [Double.at_ l 0; Double.at_ l (length l - 1)] `sublist_of` l
  /\ head l = Some (Double.at_ l 0) /\ last l = Some (Double.at_ l (length l - 1)).
Proof.
  intros Hlen. destruct l as [|p0 tl]; [simpl in Hlen; lia|].
  destruct (last tl) as [pl|] eqn:Elast.
  - apply last_Some in Elast as [mid ->].
    change (p0 :: mid ++ [pl]) with ((p0 :: mid) ++ [pl]).
    rewrite double_at_last. split; [|split].
    + simpl. apply sublist_skip. apply sublist_inserts_l. reflexivity.
    + reflexivity.
    + apply last_snoc.
  - apply last_None in Elast. subst. simpl in Hlen. lia.
Qed.

(** Whenever the recursion returns, it returns a subsequence of its
    input with the same first and last point. *)
Lemma double_rdp_sound fuel : forall points epsilon r,
  Double.ramerDouglasPeucker fuel points epsilon = Some r ->
  r `sublist_of` points /\ head r = head points /\ last r = last points.
Proof.
  induction fuel as [|fuel IH]; intros points epsilon r Hr; simpl in Hr.
  - discriminate.
  - destruct (length points <? 3)%nat eqn:Elen.
    + inversion Hr; subst. split; [reflexivity|split; reflexivity].
    + apply Nat.ltb_ge in Elen.
      pose proof (double_farthest_index points (length points - 1)) as Hidx.
      destruct (Double.farthest points (length points - 1)) as [dmax index].
      cbn [fst snd] in Hidx.
      destruct (Double.dgt dmax epsilon).
      * assert (Hi : (index < length points)%nat) by lia.
        destruct (Double.ramerDouglasPeucker fuel (slice points 0 (index + 1)) epsilon)
          as [r1|] eqn:E1; [|discriminate].
        destruct (Double.ramerDouglasPeucker fuel (slice points index (length points))
                    epsilon) as [r2|] eqn:E2; [|discriminate].
        inversion Hr; subst r; clear Hr.
        apply IH in E1 as (S1 & H1 & L1). apply IH in E2 as (S2 & H2 & L2).
        rewrite slice_from_0 in *. rewrite slice_to_length in *.
        destruct (lookup_lt_is_Some_2 points index Hi) as [x Hx].
        replace (index + 1)%nat with (S index) in * by lia.
        rewrite (take_S_r _ _ _ Hx) in *.
        rewrite last_snoc in L1. apply last_Some in L1 as [r1' ->].
        rewrite length_app. simpl.
        replace (length r1' + 1 - 1)%nat with (length r1') by lia.
        rewrite take_app_length.
        apply sublist_app_inv_r in S1.
        rewrite (last_drop_lt _ _ Hi) in L2.
        assert (Hd : head (drop index points) = Some x).
        { rewrite head_lookup, lookup_drop. rewrite Nat.add_0_r. exact Hx. }
        rewrite Hd in H2.
        split; [|split].
        -- rewrite <- (take_drop index points). apply sublist_app; assumption.
        -- rewrite (head_split points index), head_app.
           destruct r1' as [|a r1']; simpl in *.
           ++ rewrite head_snoc in H1.
              destruct (head (take index points)); congruence.
           ++ rewrite head_snoc in H1.
              destruct (head (take index points)); congruence.
        -- rewrite last_app, L2.
           destruct (last points) eqn:El; [reflexivity|].
           apply last_None in El. subst. simpl in Hi. lia.
      * inversion Hr; subst r; clear Hr.
        destruct (double_ends_sublist points) as (S & H & L); [lia|].
        split; [exact S|]. rewrite H, L. split; reflexivity.
Qed.

(** A split at index 0 hands the whole input to the second recursive
    call: the recursion never returns. *)
Lemma double_rdp_stuck points epsilon :
  (3 <= length points)%nat ->
  (Double.farthest points (length points - 1)).2 = 0%nat ->
  Double.dgt (Double.farthest points (length points - 1)).1 epsilon = true ->
  forall fuel, Double.ramerDouglasPeucker fuel points epsilon = None.
Proof.
  intros Hlen Hidx Hgt fuel. induction fuel as [|fuel IH]; [reflexivity|].
  simpl. apply Nat.ltb_ge in Hlen. rewrite Hlen.
  destruct (Double.farthest points (length points - 1)) as [dmax index].
  cbn [fst snd] in Hidx, Hgt. subst index. rewrite Hgt.
  rewrite slice_to_length. change (drop 0 points) with points. rewrite IH.
  destruct (Double.ramerDouglasPeucker fuel (slice points 0 (0 + 1)) epsilon); reflexivity.
Qed.

(** With an [epsilon] that zero does not exceed every split is at an
    interior point, and the recursion returns within as many nested
    calls as the input has points. *)
Lemma double_rdp_returns fuel : forall points epsilon,
  Double.dgt (Double.ofZ 0) epsilon = false ->
  (length points < fuel)%nat ->
  exists r, Double.ramerDouglasPeucker fuel points epsilon = Some r.
Proof.
  induction fuel as [|fuel IH]; intros points epsilon Heps Hfuel; [lia|].
  simpl. destruct (length points <? 3)%nat eqn:Elen; [eauto|].
  apply Nat.ltb_ge in Elen.
  pose proof (double_farthest_index points (length points - 1)) as Hidx.
  destruct (Double.farthest points (length points - 1)) as [dmax index].
  cbn [fst snd] in Hidx.
  destruct (Double.dgt dmax epsilon) eqn:Hgt; [|eauto].
  destruct Hidx as [[-> ->]|Hidx].
  { congruence. }
  destruct (IH (slice points 0 (index + 1)) epsilon Heps) as [r1 ->].
  { rewrite slice_from_0, length_take. lia. }
  destruct (IH (slice points index (length points)) epsilon Heps) as [r2 ->].
  { rewrite slice_to_length, length_drop. lia. }
  eauto.
Qed.

(** A result obtained with some fuel is obtained with any fuel above the
    length of the input: the bound used by the pipeline loses nothing. *)
Lemma double_rdp_fuel_enough fuel : forall points epsilon r,
  Double.ramerDouglasPeucker fuel points epsilon = Some r ->
  forall fuel', (length points < fuel')%nat ->
    Double.ramerDouglasPeucker fuel' points epsilon = Some r.
Proof.
  induction fuel as [|fuel IH]; intros points epsilon r Hr fuel' Hfuel;
    [discriminate|].
  destruct fuel' as [|fuel']; [lia|].
  pose proof (double_rdp_stuck points epsilon) as Hstuck.
  simpl in Hr |- *.
  destruct (length points <? 3)%nat eqn:Elen; [exact Hr|].
  apply Nat.ltb_ge in Elen.
  pose proof (double_farthest_index points (length points - 1)) as Hidx.
  destruct (Double.farthest points (length points - 1)) as [dmax index].
  cbn [fst snd] in Hidx, Hstuck.
  destruct (Double.dgt dmax epsilon) eqn:Hgt; [|exact Hr].
  destruct (Double.ramerDouglasPeucker fuel (slice points 0 (index + 1)) epsilon)
    as [r1|] eqn:E1; [|discriminate].
  destruct (Double.ramerDouglasPeucker fuel (slice points index (length points)) epsilon)
    as [r2|] eqn:E2; [|discriminate].
  destruct Hidx as [[-> _]|Hidx].
  { rewrite slice_to_length in E2. change (drop 0 points) with points in E2.
    rewrite (Hstuck Elen eq_refl eq_refl fuel) in E2. discriminate. }
  rewrite (IH _ _ _ E1), (IH _ _ _ E2); [exact Hr| |].
  - rewrite slice_to_length, length_drop. lia.
  - rewrite slice_from_0, length_take. lia.
Qed.

(** The result has at least two points when the input has. *)
Lemma double_rdp_length fuel : forall points epsilon r,
  Double.ramerDouglasPeucker fuel points epsilon = Some r ->
  (2 <= length points)%nat -> (2 <= length r)%nat.
Proof.
  induction fuel as [|fuel IH]; intros points epsilon r Hr Hlen; simpl in Hr;
    [discriminate|].
  destruct (length points <? 3)%nat eqn:Elen.
  { injection Hr as <-. exact Hlen. }
  apply Nat.ltb_ge in Elen.
  pose proof (double_farthest_index points (length points - 1)) as Hidx.
  destruct (Double.farthest points (length points - 1)) as [dmax index].
  cbn [fst snd] in Hidx.
  destruct (Double.dgt dmax epsilon).
  - destruct (Double.ramerDouglasPeucker fuel (slice points 0 (index + 1)) epsilon)
      as [r1|] eqn:E1; [|discriminate].
    destruct (Double.ramerDouglasPeucker fuel (slice points index (length points)) epsilon)
      as [r2|] eqn:E2; [|discriminate].
    injection Hr as <-. rewrite length_app.
    apply IH in E2; [lia|]. rewrite slice_to_length, length_drop. lia.
  - injection Hr as <-. simpl. lia.
Qed.

(** The loop ends with a [dmax] that is one of the distances it met, or
    the initial zero. *)
Lemma double_farthest_fold_value points end_ (l : list nat) :
  forall acc : Double.double * nat,
    (fold_left (Double.farthestStep points end_) l acc).1 = acc.1
    \/ exists i, i ∈ l
         /\ (fold_left (Double.farthestStep points end_) l acc).1
            = Double.getPerpendicularDistance (Double.at_ points i) (Double.at_ points 0)
                (Double.at_ points end_).
Proof.
  induction l as [|i l IH]; intros acc; simpl; [left; reflexivity|].
  destruct (IH (Double.farthestStep points end_ acc i)) as [E|(j & Hj & E)].
  - rewrite E. unfold Double.farthestStep.
    destruct (Double.dgt _ _); [|left; reflexivity].
    right. exists i. split; [left|reflexivity].
  - right. exists j. split; [right; exact Hj|exact E].
Qed.

(** The loop ends with a [dmax] above [epsilon] as soon as it started
    with one or met a distance above [epsilon]. *)
Lemma double_farthest_fold_gt points end_ epsilon (l : list nat) :
  forall acc : Double.double * nat,
    acc.1 <> S754_nan ->
    Double.dgt acc.1 epsilon = true
    \/ (exists i, i ∈ l
          /\ Double.dgt (Double.getPerpendicularDistance (Double.at_ points i)
                           (Double.at_ points 0) (Double.at_ points end_)) epsilon = true) ->
    Double.dgt (fold_left (Double.farthestStep points end_) l acc).1 epsilon = true.
Proof.
  induction l as [|i l IH]; intros acc Hacc H; simpl.
  - destruct H as [H|(i & Hi & _)]; [exact H|]. inversion Hi.
  - unfold Double.farthestStep at 2.
    destruct (Double.dgt (Double.getPerpendicularDistance _ _ _) acc.1) eqn:Hgt.
    + apply IH; cbn [fst].
      * eapply dgt_not_nan. exact Hgt.
      * destruct H as [H|(j & Hj & H)].
        -- left. eapply dgt_trans; eassumption.
        -- apply elem_of_cons in Hj as [->|Hj]; [left; exact H|].
           right. exists j. split; assumption.
    + apply IH; [exact Hacc|].
      destruct H as [H|(j & Hj & H)]; [left; exact H|].
      apply elem_of_cons in Hj as [->|Hj].
      * left. eapply dgt_le_trans; eassumption.
      * right. exists j. split; assumption.
Qed.

(** C2, as amended: a list of at least three points is reduced to its
    first and last point exactly when no point in between is farther
    than [epsilon] from the segment that joins them, the distance being
    the double that [getPerpendicularDistance] computes; [epsilon] is
    any double that zero does not exceed. *)
Theorem collapse_iff_within_epsilon (points : list Double.Point)
    (epsilon : Double.double) (fuel : nat) :
  (3 <= length points)%nat ->
  Double.dgt (Double.ofZ 0) epsilon = false ->
  Double.ramerDouglasPeucker (S fuel) points epsilon
  = Some [Double.at_ points 0; Double.at_ points (length points - 1)]
  <-> forall i, (1 <= i < length points - 1)%nat ->
        Double.dgt (Double.getPerpendicularDistance (Double.at_ points i)
                      (Double.at_ points 0) (Double.at_ points (length points - 1)))
                   epsilon = false.
Proof.
  intros Hlen Heps. split.
  - intros Hr i Hi.
    destruct (Double.dgt (Double.getPerpendicularDistance _ _ _) epsilon) eqn:Hgt;
      [exfalso|reflexivity].
    assert (Hmax : Double.dgt (Double.farthest points (length points - 1)).1 epsilon
                   = true).
    { unfold Double.farthest. apply double_farthest_fold_gt; [discriminate|].
      right. exists i. split; [|exact Hgt].
      apply list_elem_of_In, in_seq. lia. }
    pose proof (double_rdp_stuck points epsilon Hlen) as Hstuck.
    pose proof (double_farthest_index points (length points - 1)) as Hidx.
    cbn [Double.ramerDouglasPeucker] in Hr.
    assert (Elen : (length points <? 3)%nat = false) by (apply Nat.ltb_ge; exact Hlen).
    rewrite Elen in Hr.
    destruct (Double.farthest points (length points - 1)) as [dmax index].
    cbn [fst snd] in *. rewrite Hmax in Hr.
    destruct Hidx as [[-> _]|Hidx].
    { rewrite slice_to_length in Hr. change (drop 0 points) with points in Hr.
      rewrite (Hstuck eq_refl Hmax fuel) in Hr.
      destruct (Double.ramerDouglasPeucker fuel _ epsilon); discriminate. }
    destruct (Double.ramerDouglasPeucker fuel (slice points 0 (index + 1)) epsilon)
      as [r1|] eqn:E1; [|discriminate].
    destruct (Double.ramerDouglasPeucker fuel (slice points index (length points)) epsilon)
      as [r2|] eqn:E2; [|discriminate].
    apply double_rdp_length in E1; [|rewrite slice_from_0, length_take; lia].
    apply double_rdp_length in E2; [|rewrite slice_to_length, length_drop; lia].
    injection Hr as Hr. apply (f_equal length) in Hr.
    rewrite length_app, slice_from_0, length_take in Hr. simpl in Hr. lia.
  - intros Hall. cbn [Double.ramerDouglasPeucker].
    assert (Elen : (length points <? 3)%nat = false) by (apply Nat.ltb_ge; exact Hlen).
    rewrite Elen.
    pose proof (double_farthest_fold_value points (length points - 1)
                  (seq 1 (length points - 1 - 1)) (Double.ofZ 0, 0%nat)) as Hval.
    fold (Double.farthest points (length points - 1)) in Hval.
    destruct (Double.farthest points (length points - 1)) as [dmax index].
    cbn [fst] in Hval.
    assert (E : Double.dgt dmax epsilon = false).
    { destruct Hval as [->|(i & Hi & ->)]; [exact Heps|].
      apply Hall. apply list_elem_of_In, in_seq in Hi. lia. }
    rewrite E. reflexivity.
Qed.

Lemma collapse_iff_within_epsilon_witness :
  Double.ramerDouglasPeucker 1
    [Double.point "0" "0"; Double.point "1" "2.5"; Double.point "3" "6";
     Double.point "4" "8"] (Double.parseFloat (txt "1"))
  = Some [Double.point "0" "0"; Double.point "4" "8"]
  <-> forall i, (1 <= i < 4 - 1)%nat ->
        Double.dgt
          (Double.getPerpendicularDistance
             (Double.at_ [Double.point "0" "0"; Double.point "1" "2.5";
                          Double.point "3" "6"; Double.point "4" "8"] i)
             (Double.point "0" "0") (Double.point "4" "8"))
          (Double.parseFloat (txt "1")) = false.
Proof.
  apply (collapse_iff_within_epsilon
           [Double.point "0" "0"; Double.point "1" "2.5"; Double.point "3" "6";
            Double.point "4" "8"] (Double.parseFloat (txt "1")) 0).
  - simpl. lia.
  - vm_compute. reflexivity.
Defined.

(** C2 as stated fails in two ways.  The points (0,0), (5,0), (1,0) lie
    on one line, but (5,0) is beyond the end of the segment from (0,0)
    to (1,0); its distance is measured to the nearer end and is 4, so
    with [epsilon = 1] all three points are kept.  And the points (0,0),
    (1e17,1e17), (3e17,3e17) lie on one line with the second between the
    other two, but the rounding of the projection leaves it at a
    computed distance of about 22.6, so with [epsilon = 10] all three
    are kept as well. *)
Lemma collinear_points_kept :
  Double.collinearPoints
    [Double.point "0" "0"; Double.point "5" "0"; Double.point "1" "0"]
  /\ Double.dgt (Double.parseFloat (txt "1")) (Double.ofZ 0) = true
  /\ (forall fuel r,
        Double.ramerDouglasPeucker fuel
          [Double.point "0" "0"; Double.point "5" "0"; Double.point "1" "0"]
          (Double.parseFloat (txt "1")) = Some r ->
        r = [Double.point "0" "0"; Double.point "5" "0"; Double.point "1" "0"])
  /\ Double.collinearPoints
       [Double.point "0" "0"; Double.point "1e17" "1e17"; Double.point "3e17" "3e17"]
  /\ Double.dgt (Double.parseFloat (txt "10")) (Double.ofZ 0) = true
  /\ Double.numToString
       (Double.getPerpendicularDistance (Double.point "1e17" "1e17")
          (Double.point "0" "0") (Double.point "3e17" "3e17"))
     = txt "22.627416997969522"
  /\ (forall fuel r,
        Double.ramerDouglasPeucker fuel
          [Double.point "0" "0"; Double.point "1e17" "1e17"; Double.point "3e17" "3e17"]
          (Double.parseFloat (txt "10")) = Some r ->
        r = [Double.point "0" "0"; Double.point "1e17" "1e17";
             Double.point "3e17" "3e17"]).
Proof.
  split; [|split; [vm_compute; reflexivity|split; [|split; [|split; [|split]]]]].
  - split; [repeat constructor|]. exists 0, 1, 0. split.
    + intros [_ H]. discriminate.
    + repeat constructor.
  - intros fuel r H.
    apply double_rdp_fuel_enough with (fuel' := 4%nat) in H; [|simpl; lia].
    vm_compute in H. injection H as <-. vm_compute. reflexivity.
  - split; [repeat constructor|]. exists 1, (-1), 0. split.
    + intros [H _]. discriminate.
    + repeat constructor.
  - vm_compute. reflexivity.
  - vm_compute. reflexivity.
  - intros fuel r H.
    apply double_rdp_fuel_enough with (fuel' := 4%nat) in H; [|simpl; lia].
    vm_compute in H. injection H as <-. vm_compute. reflexivity.
Qed.

(** ** Filtering of close points on doubles *)

Lemma double_at_last_lookup (l : list Double.Point) (p : Double.Point) :
  last l = Some p -> Double.at_ l (length l - 1) = p.
Proof.
  intros H. apply last_Some in H as [l' ->]. apply double_at_last.
Qed.

Lemma double_filterStep_spec (minDistance : Double.double)
    (filtered : list Double.Point) (c lastPoint : Double.Point) :
  last filtered = Some lastPoint ->
  Double.filterStep (Double.dmul minDistance minDistance) filtered c =
    if Double.fartherThan minDistance lastPoint c then filtered ++ [c] else filtered.
Proof.
  intros Hlast. unfold Double.filterStep, Double.fartherThan.
  rewrite (double_at_last_lookup _ _ Hlast). reflexivity.
Qed.

(** The loop keeps the first point first and only ever appends a point
    that passes the test against the last one kept. *)
Lemma double_filter_fold_spec (minDistance : Double.double) (rest : list Double.Point) :
  forall filtered first,
    head filtered = Some first ->
    (forall i p q, filtered !! i = Some p -> filtered !! S i = Some q ->
                   Double.fartherThan minDistance p q = true) ->
    let out := fold_left (Double.filterStep (Double.dmul minDistance minDistance))
                         rest filtered in
    head out = Some first
    /\ (forall i p q, out !! i = Some p -> out !! S i = Some q ->
                      Double.fartherThan minDistance p q = true).
Proof.
  induction rest as [|c rest IH]; intros filtered first Hhead Hpairs; simpl.
  - split; assumption.
  - destruct (last filtered) as [lastPoint|] eqn:Hlast.
    2:{ apply last_None in Hlast. subst. discriminate. }
    rewrite (double_filterStep_spec _ _ _ _ Hlast).
    destruct (Double.fartherThan minDistance lastPoint c) eqn:Hfar.
    + apply IH.
      * rewrite head_snoc, Hhead. reflexivity.
      * intros i p q Hp Hq.
        destruct (decide (S i < length filtered)%nat) as [Hlt|Hge].
        -- rewrite lookup_app_l in Hp by lia. rewrite lookup_app_l in Hq by lia.
           eauto.
        -- assert (Hi : S i = length filtered).
           { apply lookup_lt_Some in Hq. rewrite length_app in Hq. simpl in Hq. lia. }
           rewrite lookup_app_l in Hp by lia.
           rewrite Hi, list_lookup_middle in Hq by reflexivity.
           rewrite last_lookup in Hlast.
           replace (Init.Nat.pred (length filtered)) with i in Hlast by lia.
           congruence.
    + apply IH; assumption.
Qed.

(** C8, as amended: for a non-empty list and [minDistance > 0], the
    filtered list starts with the first input point, and each of its
    points passed the test of the loop against the point kept before
    it: the squared distance between the two, computed in doubles,
    is strictly greater than the square of [minDistance], computed in
    doubles. *)
Theorem filter_keeps_first_and_spacing (minDistance : Double.double)
    (simplified : list Double.Point) :
  simplified <> [] ->
  Double.dgt minDistance (Double.ofZ 0) = true ->
  head (Double.filterPoints minDistance simplified) = head simplified
  /\ (forall i p q,
        Double.filterPoints minDistance simplified !! i = Some p ->
        Double.filterPoints minDistance simplified !! S i = Some q ->
        Double.fartherThan minDistance p q = true).
Proof.
  intros Hne Hpos. unfold Double.filterPoints. rewrite Hpos.
  destruct simplified as [|first rest]; [congruence|].
  cbn [length Nat.ltb Nat.leb andb drop Double.at_ nth].
  apply double_filter_fold_spec.
  - reflexivity.
  - intros i p q Hp Hq. destruct i; discriminate.
Qed.

Lemma filter_keeps_first_and_spacing_witness :
  head (Double.filterPoints (Double.parseFloat (txt "0.5"))
          [Double.point "0" "0"; Double.point "0.3" "0"; Double.point "1" "0"])
  = head [Double.point "0" "0"; Double.point "0.3" "0"; Double.point "1" "0"]
  /\ (forall i p q,
        Double.filterPoints (Double.parseFloat (txt "0.5"))
          [Double.point "0" "0"; Double.point "0.3" "0"; Double.point "1" "0"] !! i
        = Some p ->
        Double.filterPoints (Double.parseFloat (txt "0.5"))
          [Double.point "0" "0"; Double.point "0.3" "0"; Double.point "1" "0"] !! S i
        = Some q ->
        Double.fartherThan (Double.parseFloat (txt "0.5")) p q = true).
Proof.
  apply (filter_keeps_first_and_spacing (Double.parseFloat (txt "0.5"))
           [Double.point "0" "0"; Double.point "0.3" "0"; Double.point "1" "0"]).
  - discriminate.
  - vm_compute. reflexivity.
Defined.

(** C8 as stated fails by a rounding error: with [minDistance = 1.3]
    the point (1.62, 1.7) is kept after (0.84, 0.66), since the squared
    distance computed in doubles, 1.6900000000000004, exceeds the square
    of [minDistance] computed in doubles, 1.6900000000000002; yet the
    exact squared distance between the two points is less than the
    exact square of [minDistance], so their Euclidean distance is less
    than [minDistance]. *)
Lemma kept_point_closer_than_minDistance :
  Double.dgt (Double.parseFloat (txt "1.3")) (Double.ofZ 0) = true
  /\ Double.filterPoints (Double.parseFloat (txt "1.3"))
       [Double.point "0.84" "0.66"; Double.point "1.62" "1.7"]
     = [Double.point "0.84" "0.66"; Double.point "1.62" "1.7"]
  /\ Double.processSVG (Double.ofZ 10) false (Double.parseFloat (txt "1.3"))
       [element "svg" []; element "path" [attr "d" "M 0.84 0.66 L 1.62 1.7"]]
     = Double.Resolve (txt "[0.84,0.66]," ++ [LF] ++ txt "[1.62,1.7]")
  /\ Double.exactSqDistance (Double.point "0.84" "0.66") (Double.point "1.62" "1.7")
     < Double.toQ (Double.parseFloat (txt "1.3")) * Double.toQ (Double.parseFloat (txt "1.3")).
Proof.
  split; [vm_compute; reflexivity|]. split; [vm_compute; reflexivity|].
  split; [vm_compute; reflexivity|].
  vm_compute. reflexivity.
Qed.

(** ** The closed flag *)

Lemma double_closedFlag_spec (isClosed : bool) (simplified : list Double.Point) :
  Double.closedFlag isClosed simplified
  = isClosed
    || Double.nearlyEqual (Double.at_ simplified 0)
         (Double.at_ simplified (length simplified - 1)).
Proof. unfold Double.closedFlag, Double.nearlyEqual. destruct isClosed; reflexivity. Qed.

(** C3, as amended: for a subpath that is written out, the final points
    are the filtered ones, while the closed flag is true if the path
    description signalled closure and otherwise exactly when the first
    and the last point of the simplified list, before filtering, pass
    the test of the code: on both axes the absolute value of their
    difference, computed in doubles, is less than the double 0.1. *)
Theorem closed_flag_from_simplified (epsilon : Double.double)
    (shouldResize : bool) (minDistance : Double.double) (cv : Double.Canvas)
    (isClosed : bool) (pathPoints finalPoints : list Double.Point)
    (isPathClosed : bool) :
  Double.processSubPath epsilon shouldResize minDistance cv isClosed pathPoints
  = Double.Kept finalPoints isPathClosed ->
  exists simplified first last_,
    Double.ramerDouglasPeucker
      (S (length (Double.transformPoints shouldResize cv pathPoints)))
      (Double.transformPoints shouldResize cv pathPoints) epsilon = Some simplified
    /\ finalPoints = Double.filterPoints minDistance simplified
    /\ head simplified = Some first
    /\ last simplified = Some last_
    /\ (isClosed = true -> isPathClosed = true)
    /\ (isClosed = false -> isPathClosed = Double.nearlyEqual first last_).
Proof.
  unfold Double.processSubPath.
  destruct (length pathPoints <? 2)%nat; [discriminate|].
  destruct (Double.ramerDouglasPeucker _ _ _) as [simplified|]; [|discriminate].
  destruct (length simplified <? 2)%nat eqn:Elen; [discriminate|].
  destruct (length (Double.filterPoints minDistance simplified) <? 2)%nat;
    [discriminate|].
  intros H. inversion H; subst; clear H.
  apply Nat.ltb_ge in Elen.
  destruct (double_ends_sublist simplified Elen) as (_ & Hh & Hl).
  exists simplified, (Double.at_ simplified 0),
    (Double.at_ simplified (length simplified - 1)).
  rewrite double_closedFlag_spec.
  repeat split; try assumption; intros ->; reflexivity.
Qed.

(** An open path whose simplified list returns to within 0.05 of its
    start: the filter drops the last point, the final end points are 10
    apart, and the shape is closed all the same. *)
Lemma closed_flag_from_simplified_witness :
  exists simplified first last_,
    Double.ramerDouglasPeucker 4
      [Double.point "0" "0"; Double.point "10" "0"; Double.point "0.05" "0"]
      (Double.parseFloat (txt "1")) = Some simplified
    /\ [Double.point "0" "0"; Double.point "10" "0"]
       = Double.filterPoints (Double.parseFloat (txt "9.96")) simplified
    /\ head simplified = Some first
    /\ last simplified = Some last_
    /\ (false = true -> true = true)
    /\ (false = false -> true = Double.nearlyEqual first last_).
Proof.
  apply (closed_flag_from_simplified (Double.parseFloat (txt "1")) false
           (Double.parseFloat (txt "9.96"))
           (Double.resolveCanvas (element "svg" []) false) false
           [Double.point "0" "0"; Double.point "10" "0"; Double.point "0.05" "0"]
           [Double.point "0" "0"; Double.point "10" "0"] true).
  vm_compute. reflexivity.
Defined.

(** C3 as stated fails by a rounding error: the open path (0.06, 0),
    (3, 4), (-0.04, 0) is written out as not closed, since the
    difference of 0.06 and -0.04 computed in doubles is the double 0.1
    itself; yet the exact coordinates of its first and last point
    differ by less than 0.1 on both axes. *)
Lemma close_end_points_left_open :
  Double.processSubPath (Double.parseFloat (txt "1")) false (Double.ofZ 0)
    (Double.resolveCanvas (element "svg" []) false) false
    [Double.point "0.06" "0"; Double.point "3" "4"; Double.point "-0.04" "0"]
  = Double.Kept
      [Double.point "0.06" "0"; Double.point "3" "4"; Double.point "-0.04" "0"] false
  /\ Double.processSVG (Double.parseFloat (txt "1")) false (Double.ofZ 0)
       [element "svg" []; element "path" [attr "d" "M 0.06 0 L 3 4 L -0.04 0"]]
     = Double.Resolve (txt "[0.06,0]," ++ [LF] ++ txt "[3,4]," ++ [LF] ++ txt "[-0.04,0]")
  /\ Qabs (Double.exactX (Double.point "0.06" "0")
           - Double.exactX (Double.point "-0.04" "0")) < 1 # 10
  /\ Qabs (Double.exactY (Double.point "0.06" "0")
           - Double.exactY (Double.point "-0.04" "0")) < 1 # 10.
Proof. repeat split; vm_compute; reflexivity. Qed.

(** ** Background frames *)

Lemma isBackgroundRect_frameRule (cv : Double.Canvas) (el : Element) :
  Double.isBackgroundRect cv el = tagIs el "rect" && Double.frameRule cv el.
Proof.
  unfold Double.isBackgroundRect, Double.frameRule, Double.within1, Double.getNumber.
  destruct (tagIs el "rect"); [|reflexivity].
  destruct (is100Percent (getAttribute el (txt "width")));
    destruct (is100Percent (getAttribute el (txt "height")));
    destruct (Double.dgt (Double.svgWidth cv) (Double.ofZ 0));
    destruct (Double.dgt (Double.svgHeight cv) (Double.ofZ 0));
    reflexivity.
Qed.

(** An element that yields nothing can be left out of the list. *)
Lemma elementsCoords_without (epsilon : Double.double) (shouldResize : bool)
    (minDistance : Double.double) (cv : Double.Canvas) (el : Element)
    (before after : list Element) :
  Double.elementCoords epsilon shouldResize minDistance cv el = Double.Normal [] ->
  Double.elementsCoords epsilon shouldResize minDistance cv (before ++ el :: after)
  = Double.elementsCoords epsilon shouldResize minDistance cv (before ++ after).
Proof.
  intros Hel. induction before as [|b before IH]; cbn [app Double.elementsCoords].
  - rewrite Hel.
    destruct (Double.elementsCoords epsilon shouldResize minDistance cv after);
      reflexivity.
  - rewrite IH. reflexivity.
Qed.

(** A rectangle is not matched by the selector [parsererror]. *)
Lemma rect_not_parsererror (el : Element) :
  tagIs el "rect" = true -> matchesSelector "parsererror" el = false.
Proof.
  unfold tagIs, matchesSelector, localName, toLowerCase. intros H.
  apply text_eqb_eq in H.
  destruct (tagName el) as [|a [|b [|c [|d [|e t]]]]]; try discriminate.
  cbn [map txt list_ascii_of_string] in H.
  injection H as Ha Hb Hc Hd.
  assert (Hcolon : forall x y, toLowerCase1 x = y -> y <> ":"%char ->
                     negb (ascii_eqb x ":") = true).
  { intros x y Hx Hy. apply negb_true_iff, ascii_eqb_neq. intros ->.
    apply Hy. rewrite <- Hx. reflexivity. }
  cbn [dropWhile].
  rewrite (Hcolon a _ Ha), (Hcolon b _ Hb), (Hcolon c _ Hc), (Hcolon d _ Hd)
    by discriminate.
  cbn [txt list_ascii_of_string text_eqb].
  rewrite !andb_false_r. reflexivity.
Qed.

(** C4, as amended: a rectangle to which the frame rule applies (both
    size attributes [100%], or a resolved coordinate space whose origin
    and size its [x], [y], [width] and [height] match within one unit,
    each difference computed in doubles) yields nothing, and the
    document settles as it does without the rectangle, as long as
    another shape element is left; a rectangle to which the rule does
    not apply is converted like any other shape. *)
Theorem background_frame_excluded (epsilon : Double.double) (shouldResize : bool)
    (minDistance : Double.double) (svgEl el : Element) (before after : list Element) :
  tagIs el "rect" = true ->
  Double.elementCoords epsilon shouldResize minDistance
    (Double.resolveCanvas svgEl shouldResize) el
  = (if Double.frameRule (Double.resolveCanvas svgEl shouldResize) el
     then Double.Normal []
     else Double.subPathsCoords epsilon shouldResize minDistance
            (Double.resolveCanvas svgEl shouldResize) true
            (Double.parsePathData (Double.shapeToPath el).1))
  /\ (Double.frameRule (Double.resolveCanvas svgEl shouldResize) el = true ->
      filter (fun e => isShapeElement e = true) (svgEl :: before ++ after) <> [] ->
      Double.processSVG epsilon shouldResize minDistance
        (svgEl :: before ++ el :: after)
      = Double.processSVG epsilon shouldResize minDistance (svgEl :: before ++ after)).
Proof.
  intros Htag.
  assert (Hel : Double.elementCoords epsilon shouldResize minDistance
                  (Double.resolveCanvas svgEl shouldResize) el
                = if Double.frameRule (Double.resolveCanvas svgEl shouldResize) el
                  then Double.Normal []
                  else Double.subPathsCoords epsilon shouldResize minDistance
                         (Double.resolveCanvas svgEl shouldResize) true
                         (Double.parsePathData (Double.shapeToPath el).1)).
  { unfold Double.elementCoords. rewrite isBackgroundRect_frameRule, Htag.
    cbn [andb].
    destruct (Double.frameRule _ el); [reflexivity|].
    unfold Double.shapeToPath.
    rewrite (tagIs_unique el "rect" "path" Htag) by discriminate.
    rewrite Htag. reflexivity. }
  split; [exact Hel|].
  intros Hrule Hleft. rewrite Hrule in Hel.
  unfold Double.processSVG, hasParserError.
  assert (Eparse : existsb (matchesSelector "parsererror") (svgEl :: before ++ el :: after)
                   = existsb (matchesSelector "parsererror") (svgEl :: before ++ after)).
  { cbn [existsb]. rewrite !existsb_app. cbn [existsb].
    rewrite (rect_not_parsererror el Htag). reflexivity. }
  rewrite Eparse.
  destruct (existsb (matchesSelector "parsererror") (svgEl :: before ++ after));
    [reflexivity|].
  change (svgEl :: before ++ el :: after) with ((svgEl :: before) ++ el :: after).
  change (svgEl :: before ++ after) with ((svgEl :: before) ++ after) in Hleft |- *.
  rewrite filter_app in Hleft. rewrite !filter_app.
  destruct (isShapeElement el) eqn:Eshape.
  - rewrite (filter_cons_True (fun e => isShapeElement e = true) el after Eshape).
    rewrite elementsCoords_without by exact Hel.
    destruct (filter (fun e => isShapeElement e = true) (svgEl :: before) ++
              filter (fun e => isShapeElement e = true) after) as [|e0 es] eqn:E;
      [congruence|].
    assert (Hlen : forall l1 l2 : list Element,
              l1 ++ l2 = e0 :: es -> (length (l1 ++ el :: l2) =? 0)%nat = false).
    { intros l1 l2 _. rewrite length_app. cbn [length]. apply Nat.eqb_neq. lia. }
    rewrite (Hlen _ _ E). reflexivity.
  - rewrite (filter_cons_False (fun e => isShapeElement e = true) el after)
      by (rewrite Eshape; discriminate).
    reflexivity.
Qed.

Lemma background_frame_excluded_witness :
  Double.elementCoords (Double.ofZ 10) false (Double.ofZ 0)
    (Double.resolveCanvas (element "svg" [attr "viewBox" "0 0 100 100"]) false)
    (element "rect" [attr "x" "0.5"; attr "y" "0"; attr "width" "100.5";
                     attr "height" "100"])
  = (if Double.frameRule
          (Double.resolveCanvas (element "svg" [attr "viewBox" "0 0 100 100"]) false)
          (element "rect" [attr "x" "0.5"; attr "y" "0"; attr "width" "100.5";
                           attr "height" "100"])
     then Double.Normal []
     else Double.subPathsCoords (Double.ofZ 10) false (Double.ofZ 0)
            (Double.resolveCanvas (element "svg" [attr "viewBox" "0 0 100 100"]) false)
            true
            (Double.parsePathData
               (Double.shapeToPath
                  (element "rect" [attr "x" "0.5"; attr "y" "0"; attr "width" "100.5";
                                   attr "height" "100"])).1))
  /\ (Double.frameRule
        (Double.resolveCanvas (element "svg" [attr "viewBox" "0 0 100 100"]) false)
        (element "rect" [attr "x" "0.5"; attr "y" "0"; attr "width" "100.5";
                         attr "height" "100"]) = true ->
      filter (fun e => isShapeElement e = true)
        (element "svg" [attr "viewBox" "0 0 100 100"]
         :: [element "g" []]
            ++ [element "line" [attr "x1" "10"; attr "y1" "10"; attr "x2" "90";
                                attr "y2" "50"]]) <> [] ->
      Double.processSVG (Double.ofZ 10) false (Double.ofZ 0)
        (element "svg" [attr "viewBox" "0 0 100 100"]
         :: [element "g" []]
            ++ element "rect" [attr "x" "0.5"; attr "y" "0"; attr "width" "100.5";
                               attr "height" "100"]
               :: [element "line" [attr "x1" "10"; attr "y1" "10"; attr "x2" "90";
                                   attr "y2" "50"]])
      = Double.processSVG (Double.ofZ 10) false (Double.ofZ 0)
          (element "svg" [attr "viewBox" "0 0 100 100"]
           :: [element "g" []]
              ++ [element "line" [attr "x1" "10"; attr "y1" "10"; attr "x2" "90";
                                  attr "y2" "50"]])).
Proof.
  apply (background_frame_excluded (Double.ofZ 10) false (Double.ofZ 0)
           (element "svg" [attr "viewBox" "0 0 100 100"])
           (element "rect" [attr "x" "0.5"; attr "y" "0"; attr "width" "100.5";
                            attr "height" "100"])
           [element "g" []]
           [element "line" [attr "x1" "10"; attr "y1" "10"; attr "x2" "90";
                            attr "y2" "50"]]).
  reflexivity.
Defined.

(** C4 as stated fails in both directions on a 100 by 100 canvas at the
    origin.  A rectangle at x = 1 of width 101 is excluded by the code
    (the document, which has no other shape, yields no coordinates),
    although its right edge, at 102, is two units from the edge of the
    canvas; a rectangle at x = -1 of width 102 is written out by the
    code, although its edges, at -1 and 101, are each within one
    unit. *)
Lemma frame_rule_compares_sizes_not_edges :
  Double.processSVG (Double.ofZ 10) false (Double.ofZ 0)
    [element "svg" [attr "viewBox" "0 0 100 100"];
     element "rect" [attr "x" "1"; attr "y" "0"; attr "width" "101"; attr "height" "100"]]
  = Double.Reject noCoordinates
  /\ Double.specFrameRule
       (Double.resolveCanvas (element "svg" [attr "viewBox" "0 0 100 100"]) false)
       (element "rect" [attr "x" "1"; attr "y" "0"; attr "width" "101"; attr "height" "100"])
     = false
  /\ Double.processSVG (Double.ofZ 10) false (Double.ofZ 0)
       [element "svg" [attr "viewBox" "0 0 100 100"];
        element "rect" [attr "x" "-1"; attr "y" "0"; attr "width" "102";
                        attr "height" "100"]]
     = Double.Resolve
         (txt "[-1,0]," ++ [LF] ++ txt "[101,0]," ++ [LF] ++ txt "[101,100]," ++ [LF]
          ++ txt "[-1,100]," ++ [LF] ++ txt "[-1,0,-1]")
  /\ Double.specFrameRule
       (Double.resolveCanvas (element "svg" [attr "viewBox" "0 0 100 100"]) false)
       (element "rect" [attr "x" "-1"; attr "y" "0"; attr "width" "102";
                        attr "height" "100"])
     = true.
Proof. repeat split; vm_compute; reflexivity. Qed.

(** ** Errors about shapes *)

(** Elements that are background frames or have no path description
    yield nothing. *)
Lemma elementsCoords_nothing (epsilon : Double.double) (shouldResize : bool)
    (minDistance : Double.double) (cv : Double.Canvas) (elements : list Element) :
  Forall (fun el => Double.isBackgroundRect cv el = true
                    \/ (Double.shapeToPath el).1 = []) elements ->
  Double.elementsCoords epsilon shouldResize minDistance cv elements = Double.Normal [].
Proof.
  induction 1 as [|el rest Hel _ IH]; [reflexivity|].
  cbn [Double.elementsCoords]. unfold Double.elementCoords.
  destruct (Double.isBackgroundRect cv el) eqn:Ebg.
  - rewrite IH. reflexivity.
  - destruct Hel as [Hel|Hel]; [discriminate|].
    destruct (Double.shapeToPath el) as [d isClosed]. cbn [fst] in Hel. subst d.
    cbn [Double.parsePathData Double.subPathsCoords]. rewrite IH. reflexivity.
Qed.

(** C6, as amended: on a document that parsed and has a root, the error
    "No valid shapes found" is raised exactly when no element is
    matched by the selector of the recognised kinds; when such elements
    are present and every one of them is a background frame or has no
    path description, the pipeline is rejected with "Could not extract
    any processable coordinates" instead.  Either way nothing is
    resolved. *)
Theorem shape_errors (epsilon : Double.double) (shouldResize : bool)
    (minDistance : Double.double) (svgEl : Element) (others : list Element) :
  hasParserError (svgEl :: others) = false ->
  (filter (fun el => isShapeElement el = true) (svgEl :: others) = [] <->
   Double.processSVG epsilon shouldResize minDistance (svgEl :: others)
   = Double.Reject noValidShapes)
  /\ (filter (fun el => isShapeElement el = true) (svgEl :: others) <> [] ->
      Forall (fun el => Double.isBackgroundRect
                          (Double.resolveCanvas svgEl shouldResize) el = true
                        \/ (Double.shapeToPath el).1 = [])
             (filter (fun el => isShapeElement el = true) (svgEl :: others)) ->
      Double.processSVG epsilon shouldResize minDistance (svgEl :: others)
      = Double.Reject noCoordinates).
Proof.
  intros Hparse. unfold Double.processSVG.
  rewrite Hparse.
  destruct (filter (fun el => isShapeElement el = true) (svgEl :: others))
    as [|el els] eqn:Efilter.
  - split; [|congruence]. split; reflexivity.
  - split.
    + split; [discriminate|].
      cbn [length Nat.eqb].
      destruct (Double.elementsCoords _ _ _ _ _) as [coords|]; [|discriminate].
      destruct (length coords =? 0)%nat; [|discriminate].
      intros H. inversion H.
    + intros _ Hall. cbn [length Nat.eqb].
      rewrite (elementsCoords_nothing _ _ _ _ _ Hall). reflexivity.
Qed.

Lemma shape_errors_witness :
  (filter (fun el => isShapeElement el = true)
     [element "svg" [attr "viewBox" "0 0 100 100"]; element "g" []] = [] <->
   Double.processSVG (Double.ofZ 10) true (Double.parseFloat (txt "0.5"))
     [element "svg" [attr "viewBox" "0 0 100 100"]; element "g" []]
   = Double.Reject noValidShapes)
  /\ (filter (fun el => isShapeElement el = true)
        [element "svg" [attr "viewBox" "0 0 100 100"]; element "g" []] <> [] ->
      Forall (fun el => Double.isBackgroundRect
                          (Double.resolveCanvas
                             (element "svg" [attr "viewBox" "0 0 100 100"]) true) el
                        = true
                        \/ (Double.shapeToPath el).1 = [])
             (filter (fun el => isShapeElement el = true)
                [element "svg" [attr "viewBox" "0 0 100 100"]; element "g" []]) ->
      Double.processSVG (Double.ofZ 10) true (Double.parseFloat (txt "0.5"))
        [element "svg" [attr "viewBox" "0 0 100 100"]; element "g" []]
      = Double.Reject noCoordinates).
Proof.
  apply (shape_errors (Double.ofZ 10) true (Double.parseFloat (txt "0.5"))
           (element "svg" [attr "viewBox" "0 0 100 100"]) [element "g" []]).
  reflexivity.
Defined.

(** C6 as stated fails: a document whose only shape element is a
    background rectangle has no eligible shape after the exclusion, and
    is rejected with the other message.  So is a document whose only
    shape element carries a namespace prefix: the selector finds it by
    its local name, while the conversion, which goes by the tag name,
    gives it no path. *)
Lemma only_background_rect_other_error :
  filter (fun el => isShapeElement el = true
                    /\ Double.isBackgroundRect
                         (Double.resolveCanvas
                            (element "svg" [attr "viewBox" "0 0 100 100"]) true)
                         el = false)
    [element "svg" [attr "viewBox" "0 0 100 100"];
     element "rect" [attr "width" "100%"; attr "height" "100%"]]
  = []
  /\ Double.processSVG (Double.ofZ 10) true (Double.parseFloat (txt "0.5"))
       [element "svg" [attr "viewBox" "0 0 100 100"];
        element "rect" [attr "width" "100%"; attr "height" "100%"]]
     = Double.Reject noCoordinates
  /\ Double.processSVG (Double.ofZ 10) true (Double.parseFloat (txt "0.5"))
       [element "s:svg" [attr "viewBox" "0 0 100 100"];
        element "s:rect" [attr "x" "10"; attr "y" "10"; attr "width" "30";
                          attr "height" "40"]]
     = Double.Reject noCoordinates
  /\ Double.Reject noCoordinates <> Double.Reject noValidShapes.
Proof.
  split; [reflexivity|]. split; [vm_compute; reflexivity|].
  split; [vm_compute; reflexivity|]. discriminate.
Qed.

(** ** Subpaths that are kept *)

Lemma double_rdp_shorter fuel (points : list Double.Point) epsilon r :
  Double.ramerDouglasPeucker fuel points epsilon = Some r ->
  (length r <= length points)%nat.
Proof.
  intros Hr. apply sublist_length. apply (double_rdp_sound fuel _ _ _ Hr).
Qed.



(** A path whose last command lacks an argument: its second point has
    an [undefined] ordinate, the subpath is kept, and writing it out
    throws; with fit-to-canvas on the transform turns the missing
    ordinate into NaN and the text is written. *)
Example missing_argument :
  Double.processSVG (Double.ofZ 10) false (Double.ofZ 0)
    [element "svg" []; element "path" [attr "d" "M 1 2 L 3"]]
  = Double.RejectThrown Double.TypeError
  /\ Double.processSVG (Double.ofZ 10) true (Double.ofZ 0)
       [element "svg" []; element "path" [attr "d" "M 1 2 L 3"]]
     = Double.Resolve (txt "[1,2]," ++ [LF] ++ txt "[3,NaN]").
Proof. split; vm_compute; reflexivity. Qed.

(** ** Shapes as path descriptions, on doubles *)

Lemma double_args_one (a tail : text) :
  argToken a -> Forall (fun c => isSpace c = true) tail ->
  map Double.parseFloat (runs isArgChar (trim (" "%char :: a ++ tail)))
  = [Double.parseFloat a].
Proof.
  intros [Hne Ha] Htail. rewrite runs_trim, runs_sep by reflexivity.
  unfold runs. rewrite runsAux_app_none.
  - fold (runs isArgChar a). rewrite runs_token_end by assumption. reflexivity.
  - eapply Forall_impl; [exact Htail|]. apply space_not_argChar.
Qed.

Lemma double_args_two (a b tail : text) :
  argToken a -> argToken b -> Forall (fun c => isSpace c = true) tail ->
  map Double.parseFloat (runs isArgChar (trim (" "%char :: a ++ " "%char :: b ++ tail)))
  = [Double.parseFloat a; Double.parseFloat b].
Proof.
  intros [Hna Ha] [Hnb Hb] Htail. rewrite runs_trim, runs_sep by reflexivity.
  rewrite runs_token by (assumption || reflexivity).
  unfold runs. rewrite runsAux_app_none.
  - fold (runs isArgChar b). rewrite runs_token_end by assumption. reflexivity.
  - eapply Forall_impl; [exact Htail|]. apply space_not_argChar.
Qed.

Lemma double_args_two_end (a b : text) :
  argToken a -> argToken b ->
  map Double.parseFloat (runs isArgChar (trim (" "%char :: a ++ " "%char :: b)))
  = [Double.parseFloat a; Double.parseFloat b].
Proof.
  intros Ha Hb. rewrite <- (double_args_two a b [] Ha Hb); [|constructor].
  rewrite app_nil_r. reflexivity.
Qed.

(** The commands one by one. *)
Lemma double_exec_M (st : Double.PathState) (rest : text) :
  Double.execCommand st ("M"%char :: rest)
  = fold_left (Double.moveto false (map Double.parseFloat (runs isArgChar (trim rest))))
      (loopIndices (length (map Double.parseFloat (runs isArgChar (trim rest)))) 2) st.
Proof. reflexivity. Qed.

Lemma double_exec_L (st : Double.PathState) (rest : text) :
  Double.execCommand st ("L"%char :: rest)
  = fold_left (Double.lineto false (map Double.parseFloat (runs isArgChar (trim rest))))
      (loopIndices (length (map Double.parseFloat (runs isArgChar (trim rest)))) 2) st.
Proof. reflexivity. Qed.

Lemma double_exec_H (st : Double.PathState) (rest : text) :
  Double.execCommand st ("H"%char :: rest)
  = fold_left (Double.horizontal false (map Double.parseFloat (runs isArgChar (trim rest))))
      (loopIndices (length (map Double.parseFloat (runs isArgChar (trim rest)))) 1) st.
Proof. reflexivity. Qed.

Lemma double_exec_V (st : Double.PathState) (rest : text) :
  Double.execCommand st ("V"%char :: rest)
  = fold_left (Double.vertical false (map Double.parseFloat (runs isArgChar (trim rest))))
      (loopIndices (length (map Double.parseFloat (runs isArgChar (trim rest)))) 1) st.
Proof. reflexivity. Qed.

Lemma double_exec_Z (st : Double.PathState) (rest : text) :
  Double.execCommand st ("Z"%char :: rest) = Double.closepath st.
Proof. reflexivity. Qed.

(** An arc is not among the commands carried out. *)
Lemma double_exec_A (st : Double.PathState) (rest : text) :
  Double.execCommand st ("A"%char :: rest) = st.
Proof. reflexivity. Qed.

(** The path description of a rectangle. *)
Lemma double_rect_path (sx sy sxw syh : text) :
  argToken sx -> argToken sy -> argToken sxw -> argToken syh ->
  Double.parsePathData
    (txt "M " ++ sx ++ txt " " ++ sy ++ txt " H " ++ sxw ++ txt " V " ++ syh
       ++ txt " H " ++ sx ++ txt " Z")
  = [[(Double.Num (Double.parseFloat sx), Double.Num (Double.parseFloat sy));
      (Double.Num (Double.parseFloat sxw), Double.Num (Double.parseFloat sy));
      (Double.Num (Double.parseFloat sxw), Double.Num (Double.parseFloat syh));
      (Double.Num (Double.parseFloat sx), Double.Num (Double.parseFloat syh));
      (Double.Num (Double.parseFloat sx), Double.Num (Double.parseFloat sy))]].
Proof.
  intros [Nx Hx] [Ny Hy] [Nxw Hxw] [Nyh Hyh].
  cbn [txt list_ascii_of_string app]. unfold Double.parsePathData.
  split_commands.
  unfold Double.runCommands. cbn [fold_left].
  rewrite double_exec_Z, !double_exec_H, double_exec_V, double_exec_M.
  rewrite !double_args_one, double_args_two
    by (try split; try assumption; repeat constructor).
  generalize (Double.parseFloat sx) (Double.parseFloat sy) (Double.parseFloat sxw)
             (Double.parseFloat syh).
  intros X Y XW YH. reflexivity.
Qed.

(** The path description of a line. *)
Lemma double_line_path (sx1 sy1 sx2 sy2 : text) :
  argToken sx1 -> argToken sy1 -> argToken sx2 -> argToken sy2 ->
  Double.parsePathData
    (txt "M " ++ sx1 ++ txt " " ++ sy1 ++ txt " L " ++ sx2 ++ txt " " ++ sy2)
  = [[(Double.Num (Double.parseFloat sx1), Double.Num (Double.parseFloat sy1));
      (Double.Num (Double.parseFloat sx2), Double.Num (Double.parseFloat sy2))]].
Proof.
  intros [N1 H1] [N2 H2] [N3 H3] [N4 H4].
  cbn [txt list_ascii_of_string app]. unfold Double.parsePathData.
  split_commands.
  unfold Double.runCommands. cbn [fold_left].
  rewrite double_exec_L, double_exec_M.
  rewrite double_args_two, double_args_two_end
    by (try split; try assumption; repeat constructor).
  generalize (Double.parseFloat sx1) (Double.parseFloat sy1) (Double.parseFloat sx2)
             (Double.parseFloat sy2).
  intros X1 Y1 X2 Y2. reflexivity.
Qed.

(** The path description of a circle or an ellipse: the two arcs are
    passed over, and closing the subpath repeats its only point. *)
Lemma double_arcs_path (sa sb sr1 sr2 sc : text) :
  argToken sa -> argToken sb -> argToken sr1 -> argToken sr2 -> argToken sc ->
  Double.parsePathData
    (txt "M " ++ sa ++ txt " " ++ sb
       ++ txt " A " ++ sr1 ++ txt " " ++ sr2 ++ txt " 0 1 0 " ++ sc ++ txt " " ++ sb
       ++ txt " A " ++ sr1 ++ txt " " ++ sr2 ++ txt " 0 1 0 " ++ sa ++ txt " " ++ sb
       ++ txt " Z")
  = [[(Double.Num (Double.parseFloat sa), Double.Num (Double.parseFloat sb));
      (Double.Num (Double.parseFloat sa), Double.Num (Double.parseFloat sb))]].
Proof.
  intros [Na Ha] [Nb Hb] [N1 H1] [N2 H2] [Nc Hc].
  cbn [txt list_ascii_of_string app]. unfold Double.parsePathData.
  split_commands.
  unfold Double.runCommands. cbn [fold_left].
  rewrite double_exec_Z, !double_exec_A, double_exec_M.
  rewrite double_args_two by (try split; try assumption; repeat constructor).
  generalize (Double.parseFloat sa) (Double.parseFloat sb). intros A B. reflexivity.
Qed.

(** X9: a rectangle whose corner coordinates [x], [y], [x + width] and
    [y + height], the sums computed in doubles, are written in plain
    decimal notation is turned into one closed subpath of five points:
    its four corners in the order (x, y), (x + w, y), (x + w, y + h),
    (x, y + h), and (x, y) once more, each coordinate as it is read
    back from its text. *)
Theorem rect_becomes_its_corners (el : Element) :
  tagIs el "rect" = true ->
  Double.plainNumber (Double.getNumber el "x") ->
  Double.plainNumber (Double.getNumber el "y") ->
  Double.plainNumber (Double.dadd (Double.getNumber el "x") (Double.getNumber el "width")) ->
  Double.plainNumber (Double.dadd (Double.getNumber el "y") (Double.getNumber el "height")) ->
  (Double.shapeToPath el).2 = true
  /\ Double.parsePathData (Double.shapeToPath el).1
     = [[(Double.readBack (Double.getNumber el "x"),
          Double.readBack (Double.getNumber el "y"));
         (Double.readBack
            (Double.dadd (Double.getNumber el "x") (Double.getNumber el "width")),
          Double.readBack (Double.getNumber el "y"));
         (Double.readBack
            (Double.dadd (Double.getNumber el "x") (Double.getNumber el "width")),
          Double.readBack
            (Double.dadd (Double.getNumber el "y") (Double.getNumber el "height")));
         (Double.readBack (Double.getNumber el "x"),
          Double.readBack
            (Double.dadd (Double.getNumber el "y") (Double.getNumber el "height")));
         (Double.readBack (Double.getNumber el "x"),
          Double.readBack (Double.getNumber el "y"))]].
Proof.
  intros Htag Tx Ty Txw Tyh. unfold Double.shapeToPath.
  rewrite (tagIs_unique el "rect" "path" Htag) by discriminate.
  rewrite Htag. cbn [fst snd]. split; [reflexivity|].
  rewrite (double_rect_path _ _ _ _ Tx Ty Txw Tyh). reflexivity.
Qed.

(** The check that a number is written in plain decimal notation. *)
Ltac plain_number_check :=
  match goal with
  | |- Double.plainNumber ?x =>
    unfold Double.plainNumber;
    let v := eval vm_compute in (Double.numToString x) in
    change (Double.numToString x) with v;
    split; [discriminate|repeat constructor]
  end.

Lemma rect_becomes_its_corners_witness :
  (Double.shapeToPath
     (element "rect" [attr "x" "10"; attr "y" "20.5"; attr "width" "30";
                      attr "height" "40"])).2 = true
  /\ Double.parsePathData
       (Double.shapeToPath
          (element "rect" [attr "x" "10"; attr "y" "20.5"; attr "width" "30";
                           attr "height" "40"])).1
     = [[Double.point "10" "20.5"; Double.point "40" "20.5"; Double.point "40" "60.5";
         Double.point "10" "60.5"; Double.point "10" "20.5"]].
Proof.
  apply (rect_becomes_its_corners
           (element "rect" [attr "x" "10"; attr "y" "20.5"; attr "width" "30";
                            attr "height" "40"])).
  - reflexivity.
  - plain_number_check.
  - plain_number_check.
  - plain_number_check.
  - plain_number_check.
Defined.

(** X11: of a circle whose numbers [cx - r], [cy], [r] and [cx + r],
    computed in doubles, are written in plain decimal notation nothing
    but the leftmost point of the outline is kept: the arcs add no
    point, and the one subpath is that point twice. *)
Theorem circle_collapses_to_one_point (el : Element) :
  tagIs el "circle" = true ->
  Double.plainNumber (Double.dsub (Double.getNumber el "cx") (Double.getNumber el "r")) ->
  Double.plainNumber (Double.getNumber el "cy") ->
  Double.plainNumber (Double.getNumber el "r") ->
  Double.plainNumber (Double.dadd (Double.getNumber el "cx") (Double.getNumber el "r")) ->
  (Double.shapeToPath el).2 = true
  /\ Double.parsePathData (Double.shapeToPath el).1
     = [[(Double.readBack
            (Double.dsub (Double.getNumber el "cx") (Double.getNumber el "r")),
          Double.readBack (Double.getNumber el "cy"));
         (Double.readBack
            (Double.dsub (Double.getNumber el "cx") (Double.getNumber el "r")),
          Double.readBack (Double.getNumber el "cy"))]].
Proof.
  intros Htag Ta Tb Tr Tc. unfold Double.shapeToPath.
  rewrite (tagIs_unique el "circle" "path" Htag) by discriminate.
  rewrite (tagIs_unique el "circle" "rect" Htag) by discriminate.
  rewrite Htag. cbn [fst snd]. split; [reflexivity|].
  rewrite (double_arcs_path _ _ _ _ _ Ta Tb Tr Tr Tc). reflexivity.
Qed.

Lemma circle_collapses_to_one_point_witness :
  (Double.shapeToPath
     (element "circle" [attr "cx" "50"; attr "cy" "60"; attr "r" "12.5"])).2 = true
  /\ Double.parsePathData
       (Double.shapeToPath
          (element "circle" [attr "cx" "50"; attr "cy" "60"; attr "r" "12.5"])).1
     = [[Double.point "37.5" "60"; Double.point "37.5" "60"]].
Proof.
  apply (circle_collapses_to_one_point
           (element "circle" [attr "cx" "50"; attr "cy" "60"; attr "r" "12.5"])).
  - reflexivity.
  - plain_number_check.
  - plain_number_check.
  - plain_number_check.
  - plain_number_check.
Defined.

(** X12: the same holds of an ellipse: the one subpath is the leftmost
    point of the outline twice. *)
Theorem ellipse_collapses_to_one_point (el : Element) :
  tagIs el "ellipse" = true ->
  Double.plainNumber (Double.dsub (Double.getNumber el "cx") (Double.getNumber el "rx")) ->
  Double.plainNumber (Double.getNumber el "cy") ->
  Double.plainNumber (Double.getNumber el "rx") ->
  Double.plainNumber (Double.getNumber el "ry") ->
  Double.plainNumber (Double.dadd (Double.getNumber el "cx") (Double.getNumber el "rx")) ->
  (Double.shapeToPath el).2 = true
  /\ Double.parsePathData (Double.shapeToPath el).1
     = [[(Double.readBack
            (Double.dsub (Double.getNumber el "cx") (Double.getNumber el "rx")),
          Double.readBack (Double.getNumber el "cy"));
         (Double.readBack
            (Double.dsub (Double.getNumber el "cx") (Double.getNumber el "rx")),
          Double.readBack (Double.getNumber el "cy"))]].
Proof.
  intros Htag Ta Tb Trx Try Tc. unfold Double.shapeToPath.
  rewrite (tagIs_unique el "ellipse" "path" Htag) by discriminate.
  rewrite (tagIs_unique el "ellipse" "rect" Htag) by discriminate.
  rewrite (tagIs_unique el "ellipse" "circle" Htag) by discriminate.
  rewrite Htag. cbn [fst snd]. split; [reflexivity|].
  rewrite (double_arcs_path _ _ _ _ _ Ta Tb Trx Try Tc). reflexivity.
Qed.

Lemma ellipse_collapses_to_one_point_witness :
  (Double.shapeToPath
     (element "ellipse" [attr "cx" "50"; attr "cy" "60"; attr "rx" "20"; attr "ry" "10"])).2
  = true
  /\ Double.parsePathData
       (Double.shapeToPath
          (element "ellipse"
             [attr "cx" "50"; attr "cy" "60"; attr "rx" "20"; attr "ry" "10"])).1
     = [[Double.point "30" "60"; Double.point "30" "60"]].
Proof.
  apply (ellipse_collapses_to_one_point
           (element "ellipse"
              [attr "cx" "50"; attr "cy" "60"; attr "rx" "20"; attr "ry" "10"])).
  - reflexivity.
  - plain_number_check.
  - plain_number_check.
  - plain_number_check.
  - plain_number_check.
  - plain_number_check.
Defined.

(** A torn number: the difference [1.000001 - 1] is written in exponent
    notation, which the argument pattern of the parser splits in two,
    so the circle becomes a subpath of three points. *)
Example circle_with_exponent :
  Double.numToString
    (Double.dsub (Double.parseFloat (txt "1.000001")) (Double.parseFloat (txt "1")))
  = txt "9.999999999177334e-7"
  /\ Double.parsePathData
       (Double.shapeToPath
          (element "circle" [attr "cx" "1.000001"; attr "cy" "5"; attr "r" "1"])).1
     = [[(Double.Num (Double.parseFloat (txt "9.999999999177334")),
          Double.Num (Double.parseFloat (txt "-7")));
         (Double.Num (Double.parseFloat (txt "5")), Double.Undefined);
         (Double.Num (Double.parseFloat (txt "9.999999999177334")),
          Double.Num (Double.parseFloat (txt "-7")))]].
Proof. split; vm_compute; reflexivity. Qed.

(** ** A point twice, and two points *)

(** The difference of a number and itself is zero, or NaN when the
    number is not finite. *)
Lemma dsub_self (a : Double.double) :
  Double.dsub a a = S754_zero false \/ Double.dsub a a = S754_nan.
Proof.
  destruct a as [s|s| |s m e]; unfold Double.dsub, SFsub.
  - left. destruct s; reflexivity.
  - right. destruct s; reflexivity.
  - right. reflexivity.
  - left. rewrite Z.sub_diag. reflexivity.
Qed.

(** The square of a positive number does not lie below zero. *)
Lemma square_not_below_zero (m : Double.double) :
  Double.dgt m (Double.ofZ 0) = true ->
  Double.dgt (S754_zero false) (Double.dmul m m) = false.
Proof.
  destruct m as [s|s| |s m e]; try discriminate; destruct s; try discriminate;
    intros _; [reflexivity|].
  unfold Double.dmul, SFmul, binary_round_aux. cbn [xorb].
  destruct (shr_fexp _ _ _ _ _) as [mrs' e'].
  destruct (shr_fexp _ _ _ _ _) as [mrs'' e''].
  destruct (shr_m mrs'') as [|p|p]; [reflexivity| |reflexivity].
  destruct (e'' <=? Double.emax - Double.prec)%Z; reflexivity.
Qed.

(** The test of the filter fails between a point and itself. *)
Lemma not_farther_than_itself (minDistance : Double.double) (p : Double.Point) :
  Double.dgt minDistance (Double.ofZ 0) = true ->
  Double.fartherThan minDistance p p = false.
Proof.
  intros Hmin. unfold Double.fartherThan.
  pose proof (square_not_below_zero minDistance Hmin) as Hsq.
  destruct (dsub_self (Double.x_of p)) as [-> | ->];
    destruct (dsub_self (Double.y_of p)) as [-> | ->];
    [exact Hsq| | |];
    unfold Double.dgt, SFltb; cbn;
    destruct (Double.dmul minDistance minDistance); reflexivity.
Qed.

(** A subpath that is one point twice does not survive the filter. *)
Lemma double_repeated_point_dropped (epsilon : Double.double) (shouldResize : bool)
    (minDistance : Double.double) (cv : Double.Canvas) (isClosed : bool)
    (p : Double.Point) :
  Double.dgt minDistance (Double.ofZ 0) = true ->
  Double.processSubPath epsilon shouldResize minDistance cv isClosed [p; p]
  = Double.Skipped.
Proof.
  intros Hmin. unfold Double.processSubPath. cbn [length Nat.ltb Nat.leb].
  assert (E : exists p', Double.transformPoints shouldResize cv [p; p] = [p'; p']).
  { unfold Double.transformPoints. destruct shouldResize; eexists; reflexivity. }
  destruct E as [p' ->].
  cbn [length Double.ramerDouglasPeucker Nat.ltb Nat.leb].
  unfold Double.filterPoints. rewrite Hmin.
  cbn [andb length Nat.ltb Nat.leb drop fold_left Double.at_ nth].
  rewrite (double_filterStep_spec minDistance [p'] p' p' eq_refl).
  rewrite (not_farther_than_itself minDistance p' Hmin). reflexivity.
Qed.

(** X13: with the filter of close points on ([minDistance] above 0, as
    by default), a circle whose numbers are written in plain decimal
    notation adds nothing to the output, whatever [epsilon] and the
    fit-to-canvas option are: its one subpath, a point twice, is
    dropped. *)
Theorem circle_dropped_by_filter (epsilon : Double.double) (shouldResize : bool)
    (minDistance : Double.double) (cv : Double.Canvas) (el : Element) :
  tagIs el "circle" = true ->
  Double.plainNumber (Double.dsub (Double.getNumber el "cx") (Double.getNumber el "r")) ->
  Double.plainNumber (Double.getNumber el "cy") ->
  Double.plainNumber (Double.getNumber el "r") ->
  Double.plainNumber (Double.dadd (Double.getNumber el "cx") (Double.getNumber el "r")) ->
  Double.dgt minDistance (Double.ofZ 0) = true ->
  Double.elementCoords epsilon shouldResize minDistance cv el = Double.Normal [].
Proof.
  intros Htag Ta Tb Tr Tc Hmin. unfold Double.elementCoords, Double.isBackgroundRect.
  rewrite (tagIs_unique el "circle" "rect" Htag) by discriminate.
  assert (E : exists p, Double.parsePathData (Double.shapeToPath el).1 = [[p; p]]).
  { unfold Double.shapeToPath.
    rewrite (tagIs_unique el "circle" "path" Htag) by discriminate.
    rewrite (tagIs_unique el "circle" "rect" Htag) by discriminate.
    rewrite Htag. cbn [fst snd].
    rewrite (double_arcs_path _ _ _ _ _ Ta Tb Tr Tr Tc).
    eexists. reflexivity. }
  destruct E as [p E]. destruct (Double.shapeToPath el) as [d closed].
  cbn [fst] in E. rewrite E.
  cbn [Double.subPathsCoords].
  rewrite double_repeated_point_dropped by exact Hmin. reflexivity.
Qed.

Lemma circle_dropped_by_filter_witness :
  Double.elementCoords (Double.ofZ 10) true (Double.parseFloat (txt "0.5"))
    (Double.resolveCanvas (element "svg" [attr "viewBox" "0 0 100 100"]) true)
    (element "circle" [attr "cx" "50"; attr "cy" "60"; attr "r" "12.5"])
  = Double.Normal [].
Proof.
  apply (circle_dropped_by_filter (Double.ofZ 10) true (Double.parseFloat (txt "0.5"))
           (Double.resolveCanvas (element "svg" [attr "viewBox" "0 0 100 100"]) true)
           (element "circle" [attr "cx" "50"; attr "cy" "60"; attr "r" "12.5"])).
  - reflexivity.
  - plain_number_check.
  - plain_number_check.
  - plain_number_check.
  - plain_number_check.
  - reflexivity.
Defined.

(** Two points, without fit-to-canvas: the simplification returns them,
    and the filter keeps the second one when it passes the test against
    the first. *)
Lemma double_two_points_subpath (epsilon minDistance : Double.double)
    (cv : Double.Canvas) (isClosed : bool) (p1 p2 : Double.Point) :
  Double.processSubPath epsilon false minDistance cv isClosed [p1; p2]
  = if Double.dgt minDistance (Double.ofZ 0) && negb (Double.fartherThan minDistance p1 p2)
    then Double.Skipped
    else Double.Kept [p1; p2] (Double.closedFlag isClosed [p1; p2]).
Proof.
  unfold Double.processSubPath, Double.transformPoints.
  cbn [length Nat.ltb Nat.leb Double.ramerDouglasPeucker].
  unfold Double.filterPoints.
  destruct (Double.dgt minDistance (Double.ofZ 0)); cbn [andb negb].
  - cbn [length Nat.ltb Nat.leb drop fold_left Double.at_ nth].
    rewrite (double_filterStep_spec minDistance [p1] p2 p1 eq_refl).
    destruct (Double.fartherThan minDistance p1 p2); reflexivity.
  - reflexivity.
Qed.

(** X27: with fit-to-canvas off, a line element whose four coordinates
    are written in plain decimal notation goes through the pipeline as
    its two end points, as they are read back from their text: it is
    written out as these two points, closed exactly when they pass the
    test of the closure heuristic, unless the filter of close points is
    on and the second point does not pass the test of the filter
    against the first, in which case the line yields nothing.  The
    value of [epsilon] plays no part. *)
Theorem line_through_pipeline (epsilon minDistance : Double.double)
    (cv : Double.Canvas) (el : Element) :
  tagIs el "line" = true ->
  Double.plainNumber (Double.getNumber el "x1") ->
  Double.plainNumber (Double.getNumber el "y1") ->
  Double.plainNumber (Double.getNumber el "x2") ->
  Double.plainNumber (Double.getNumber el "y2") ->
  exists coordsStr,
    Double.pointsText
      [(Double.readBack (Double.getNumber el "x1"),
        Double.readBack (Double.getNumber el "y1"));
       (Double.readBack (Double.getNumber el "x2"),
        Double.readBack (Double.getNumber el "y2"))]
      (Double.nearlyEqual
         (Double.readBack (Double.getNumber el "x1"),
          Double.readBack (Double.getNumber el "y1"))
         (Double.readBack (Double.getNumber el "x2"),
          Double.readBack (Double.getNumber el "y2")))
    = Some coordsStr
    /\ Double.elementCoords epsilon false minDistance cv el
       = if Double.dgt minDistance (Double.ofZ 0)
            && negb (Double.fartherThan minDistance
                       (Double.readBack (Double.getNumber el "x1"),
                        Double.readBack (Double.getNumber el "y1"))
                       (Double.readBack (Double.getNumber el "x2"),
                        Double.readBack (Double.getNumber el "y2")))
         then Double.Normal []
         else Double.Normal [coordsStr].
Proof.
  intros Htag T1 T2 T3 T4.
  eexists. split; [unfold Double.readBack; reflexivity|].
  unfold Double.elementCoords, Double.isBackgroundRect.
  rewrite (tagIs_unique el "line" "rect" Htag) by discriminate.
  assert (E : Double.shapeToPath el
              = (txt "M " ++ Double.numToString (Double.getNumber el "x1") ++ txt " "
                   ++ Double.numToString (Double.getNumber el "y1") ++ txt " L "
                   ++ Double.numToString (Double.getNumber el "x2") ++ txt " "
                   ++ Double.numToString (Double.getNumber el "y2"), false)).
  { unfold Double.shapeToPath.
    rewrite (tagIs_unique el "line" "path" Htag) by discriminate.
    rewrite (tagIs_unique el "line" "rect" Htag) by discriminate.
    rewrite (tagIs_unique el "line" "circle" Htag) by discriminate.
    rewrite (tagIs_unique el "line" "ellipse" Htag) by discriminate.
    rewrite Htag. reflexivity. }
  rewrite E, (double_line_path _ _ _ _ T1 T2 T3 T4).
  cbn [Double.subPathsCoords]. rewrite double_two_points_subpath.
  fold (Double.readBack (Double.getNumber el "x1")).
  fold (Double.readBack (Double.getNumber el "y1")).
  fold (Double.readBack (Double.getNumber el "x2")).
  fold (Double.readBack (Double.getNumber el "y2")).
  destruct (Double.dgt minDistance (Double.ofZ 0) && negb (Double.fartherThan _ _ _));
    [reflexivity|].
  rewrite double_closedFlag_spec. reflexivity.
Qed.

Lemma line_through_pipeline_witness :
  exists coordsStr,
    Double.pointsText [Double.point "1" "0"; Double.point "1.1" "0"]
      (Double.nearlyEqual (Double.point "1" "0") (Double.point "1.1" "0"))
    = Some coordsStr
    /\ Double.elementCoords (Double.ofZ 10) false (Double.parseFloat (txt "0.1"))
         (Double.resolveCanvas (element "svg" []) false)
         (element "line" [attr "x1" "1"; attr "y1" "0"; attr "x2" "1.1"; attr "y2" "0"])
       = if Double.dgt (Double.parseFloat (txt "0.1")) (Double.ofZ 0)
            && negb (Double.fartherThan (Double.parseFloat (txt "0.1"))
                       (Double.point "1" "0") (Double.point "1.1" "0"))
         then Double.Normal []
         else Double.Normal [coordsStr].
Proof.
  apply (line_through_pipeline (Double.ofZ 10) (Double.parseFloat (txt "0.1"))
           (Double.resolveCanvas (element "svg" []) false)
           (element "line" [attr "x1" "1"; attr "y1" "0"; attr "x2" "1.1"; attr "y2" "0"])).
  - reflexivity.
  - plain_number_check.
  - plain_number_check.
  - plain_number_check.
  - plain_number_check.
Defined.

(** The line from (1, 0) to (1.1, 0) with [minDistance = 0.1] is written
    out: in doubles the squared difference of 1.1 and 1 exceeds the
    square of 0.1. *)
Example line_at_the_threshold :
  Double.processSVG (Double.ofZ 10) false (Double.parseFloat (txt "0.1"))
    [element "svg" [];
     element "line" [attr "x1" "1"; attr "y1" "0"; attr "x2" "1.1"; attr "y2" "0"]]
  = Double.Resolve (txt "[1,0]," ++ [LF] ++ txt "[1.1,0]").
Proof. vm_compute. reflexivity. Qed.
